(** * set_wallpaper.py: the time-to-image mapping and its plumbing

    A shallow embedding of [src/set_wallpaper.py].

    Conventions of the embedding.
    - Python [int] is [Z].
    - Python [float] is IEEE 754 binary64. The module [Binary64] has
      [get_current_images] on the floats themselves: every operation is
      rounded as the interpreter rounds it, and the conversions raise as they
      do there. The statements about the position, the indices and the
      amount of the blend are made and proved on it, in [Binary64Facts].
    - Outside that module the numbers are exact rationals [Q]
      ([total_seconds], [get_current_images], [init_astral]): a second
      reading of the same lines, without the roundings, that [main] is
      written on. It is kept for what does not depend on a rounding: what
      [main] does to the outside and in which order, the sign of the
      position before dawn, a position that is computed without any
      rounding. Two fractions are compared with [==] ([Qeq]), since [Q] does
      not keep fractions reduced. Where the two readings differ (a position
      that the rounding moves across 1, across N - 1 or across an integer)
      the floats are the code; [Binary64Runs] has examples.
    - A timezone-aware [datetime] is an instant, counted in microseconds
      ([Z]); the difference of two of them is a [timedelta], again a number
      of microseconds, and [total_seconds] divides it by 10^6.
    - A Python exception is a value of [exn]; a call that can raise returns
      a [result].
    - The wall clock, the file system, the image library, the sun calculator
      and the process launcher are fields of a [World] record; what the
      program does to them is appended to a trace of [event]s.
    - [main] never returns; its loop is cut after a number of iterations,
      and its [outcome] says where an exception came from, if one did. *)

From Stdlib Require Import ZArith QArith Qround Qabs Qpower List String Ascii Bool.
From Stdlib Require Import Lia Lqa.
From Stdlib Require Import Permutation Sorted.
From Stdlib Require PrimFloat FloatOps SpecFloat FloatAxioms.
Import ListNotations.

Local Open Scope Z_scope.

(** ** Exceptions *)

Inductive exn : Type :=
| IndexError
| ValueError
| ZeroDivisionError
| FileNotFoundError
| KeyError
| OverflowError
| OSError.

Inductive result (A : Type) : Type :=
| Ok (a : A)
| Raise (e : exn).

Arguments Ok {A} a.
Arguments Raise {A} e.

Definition bind {A B : Type} (c : result A) (k : A -> result B) : result B :=
  match c with
  | Ok a => k a
  | Raise e => Raise e
  end.

Declare Scope py_scope.
Delimit Scope py_scope with py.
Notation "x <- c ;; k" := (bind c (fun x => k))
  (at level 61, c at next level, right associativity) : py_scope.
Notation "' pat <- c ;; k" := (bind c (fun x => match x with pat => k end))
  (at level 61, pat pattern, c at next level, right associativity) : py_scope.

(** [for x in l: f x], collecting the results, stopping at the first
    exception. *)
Fixpoint mapM {A B : Type} (f : A -> result B) (l : list A) : result (list B) :=
  match l with
  | [] => Ok []
  | x :: t =>
      match f x with
      | Raise e => Raise e
      | Ok y =>
          match mapM f t with
          | Raise e => Raise e
          | Ok ys => Ok (y :: ys)
          end
      end
  end.

(** ** Python lists *)

Definition len {A : Type} (l : list A) : Z := Z.of_nat (List.length l).

(** [l[i]]: indices [0 .. len-1] count from the front, [-len .. -1] from
    the back, anything else raises [IndexError]. *)
Definition getitem {A : Type} (l : list A) (i : Z) : result A :=
  let j := if i <? 0 then i + len l else i in
  if (j <? 0) || (len l <=? j) then Raise IndexError
  else match nth_error l (Z.to_nat j) with
       | Some a => Ok a
       | None => Raise IndexError
       end.

(** ** Numbers, without the roundings

    The operations of the source on the exact rationals. The floats
    themselves are in [Binary64], further down. *)

Definition Qlt_bool (x y : Q) : bool := negb (Qle_bool y x).

(** [x / y]: raises on a zero divisor. *)
Definition truediv (x y : Q) : result Q :=
  if Qeq_bool y 0 then Raise ZeroDivisionError else Ok (x / y)%Q.

(** [math.floor] *)
Definition math_floor (x : Q) : Z := Qfloor x.

(** ** Time *)

Definition datetime := Z.
Definition timedelta := Z.

Bind Scope Z_scope with datetime.
Bind Scope Z_scope with timedelta.

Definition total_seconds (d : timedelta) : Q := d # 1000000.

(** ** get_current_images *)

Section Interpolator.

Context {Image : Type}.

(** The value the source calls [image_id] (the spec's "position"), where
    it is defined. *)
Definition image_id_of (now dawn_time : datetime) (day_length : Q) (dusk_id : Z) : Q :=
  (inject_Z dusk_id * total_seconds (now - dawn_time)%Z / day_length)%Q.

(** [now] is the value [datetime.now(tzlocal())] reads from the clock. *)
Definition get_current_images (now : datetime) (dawn_time : datetime)
    (day_length : Q) (images : list Image) (dusk_id : Z)
  : result (Image * Image * Q) :=
  (let cursor := total_seconds (now - dawn_time)%Z in
   image_id <- truediv (inject_Z dusk_id * cursor) day_length ;;
   if Qlt_bool image_id 1 || Qlt_bool (inject_Z (len images - 1)%Z) image_id then
     (* out of range, just pick last image *)
     last_image <- getitem images (len images - 1)%Z ;;
     Ok (last_image, last_image, 1%Q)
   else
     img1 <- getitem images (math_floor image_id) ;;
     img2 <- getitem images (math_floor (image_id + 1)) ;;
     let amount := (image_id - inject_Z (math_floor image_id))%Q in
     Ok (img1, img2, amount))%py.

End Interpolator.

(** ** Strings *)

(** [needle in hay] *)
Fixpoint contains (needle hay : string) : bool :=
  String.prefix needle hay ||
  match hay with
  | EmptyString => false
  | String _ rest => contains needle rest
  end.

(** The class [0-9] of the regular expression. *)
Definition is_digit (c : ascii) : bool :=
  (48 <=? Z.of_nat (nat_of_ascii c)) && (Z.of_nat (nat_of_ascii c) <=? 57).

(** [re.sub(r'[^0-9]*', "", f)]: every run of characters outside [0-9] is
    replaced by the empty string, so exactly the digits stay, in order. *)
Fixpoint re_sub_non_digits (f : string) : string :=
  match f with
  | EmptyString => EmptyString
  | String c rest =>
      if is_digit c then String c (re_sub_non_digits rest)
      else re_sub_non_digits rest
  end.

Fixpoint int_digits (acc : Z) (s : string) : result Z :=
  match s with
  | EmptyString => Ok acc
  | String c rest =>
      if is_digit c
      then int_digits (10 * acc + (Z.of_nat (nat_of_ascii c) - 48)) rest
      else Raise ValueError
  end.

(** [int(s)] on a string: the decimal value of a non-empty string of
    digits, [ValueError] on the empty string. (Signs, blanks and underscores,
    which [int] also reads, are refused here: [re_sub_non_digits] never
    produces them.) *)
Definition int_of_str (s : string) : result Z :=
  match s with
  | EmptyString => Raise ValueError
  | String _ _ => int_digits 0 s
  end.

(** [int(x)] on a float: truncation towards zero. *)
Definition int_of_float (x : Q) : Z := Z.quot (Qnum x) (Z.pos (Qden x)).

(** A string in a condition is true when it is not empty. *)
Definition truthy (s : string) : bool :=
  match s with
  | EmptyString => false
  | String _ _ => true
  end.

Definition startswith_sep (s : string) : bool := String.prefix "/" s.

Fixpoint endswith_sep (s : string) : bool :=
  match s with
  | EmptyString => false
  | String c EmptyString => Ascii.eqb c "/"
  | String _ rest => endswith_sep rest
  end.

(** [os.path.join(a, b)] of posixpath. *)
Definition os_path_join (a b : string) : string :=
  if startswith_sep b then b
  else if negb (truthy a) || endswith_sep a then String.append a b
  else String.append a (String.append "/" b).

(** ** list.sort(key=...) *)

Section Sort.

Context {A : Type}.

(** Insertion in front of the first entry whose key is not smaller: an
    entry put in before the others stays before those of equal key. *)
Fixpoint insert_keyed (k : Z) (x : A) (l : list (Z * A)) : list (Z * A) :=
  match l with
  | [] => [(k, x)]
  | (k', y) :: rest =>
      if k <=? k' then (k, x) :: l else (k', y) :: insert_keyed k x rest
  end.

Fixpoint sort_keyed (l : list (Z * A)) : list (Z * A) :=
  match l with
  | [] => []
  | (k, x) :: rest => insert_keyed k x (sort_keyed rest)
  end.

(** [l.sort(key=key)]: the keys of all the elements are computed first,
    in order (the first exception ends the call); then the elements are
    put in ascending key order, those of equal key in their order in [l]
    (the sort is stable). *)
Definition list_sort (key : A -> result Z) (l : list A) : result (list A) :=
  (keys <- mapM key l ;;
   Ok (map snd (sort_keyed (combine keys l))))%py.

End Sort.

(** ** The world outside *)

Record Args : Type := {
  city : string;
  folder : string;
  rate : Z;
  temp : string;
  dusk_id : Z;
  command : string
}.

Section Program.

Context {Image : Type}.

Inductive event : Type :=
| Called (cmd : string) (wallpaper_path : string)
| Saved (path : string) (img : Image)
| Stdout_time (label : string) (t : datetime)
| Stdout_number (label : string) (x : Q)
| Slept (seconds : Z).

(** What the program gets from its collaborators. [tick] is the number of
    the iteration of the loop of [main] in which the question is asked:
    the clock and the sun's times change from one to the next. *)
Record World : Type := {
  os_path_expanduser : string -> string;
  (** [os.listdir]: raises on a missing folder *)
  os_listdir : string -> result (list string);
  (** [Image.open(path).convert('RGBA')] *)
  Image_open : string -> result Image;
  (** [Image.blend] *)
  Image_blend : Image -> Image -> Q -> result Image;
  (** [img.save(path, 'PNG', compress_level=1)] *)
  Image_save : Image -> string -> result unit;
  (** [call(cmd.format(wallpaper_path).split())] *)
  format_split_call : string -> string -> result unit;
  (** [Astral()[city].sun()]: dawn and dusk *)
  astral_sun : nat -> string -> result (datetime * datetime);
  (** [datetime.now(tzlocal())] *)
  datetime_now : nat -> datetime
}.

Variable w : World.

(** A procedure appends to the trace of what it did to the outside, and
    returns or raises. *)
Definition proc (A : Type) : Type := list event -> list event * result A.

Definition ret {A : Type} (a : A) : proc A := fun tr => (tr, Ok a).

Definition lift {A : Type} (r : result A) : proc A := fun tr => (tr, r).

Definition emit (e : event) : proc unit := fun tr => (tr ++ [e], Ok tt).

Definition pbind {A B : Type} (c : proc A) (k : A -> proc B) : proc B :=
  fun tr =>
    match c tr with
    | (tr', Ok a) => k a tr'
    | (tr', Raise e) => (tr', Raise e)
    end.

Notation "x <~ c ;; k" := (pbind c (fun x => k))
  (at level 61, c at next level, right associativity).
Notation "' pat <~ c ;; k" := (pbind c (fun x => match x with pat => k end))
  (at level 61, pat pattern, c at next level, right associativity).
Notation "c ;;; k" := (pbind c (fun _ => k))
  (at level 61, right associativity).

Definition update_wallpaper (cmd wallpaper_path : string) : proc unit :=
  lift (format_split_call w cmd wallpaper_path) ;;;
  emit (Called cmd wallpaper_path).

(** The names [init_images] keeps from the listing of the folder. *)
Definition is_image_name (f : string) : bool :=
  contains "jpeg" f || contains "jpg" f || contains "png" f.

(** The [key] of the sort of [init_images]. *)
Definition sort_key (f : string) : result Z :=
  int_of_str (re_sub_non_digits f).

Definition init_images (folder : string) (set_cmd : string)
  : proc (list string * list Image) :=
  names <~ lift (os_listdir w folder) ;;
  let image_paths := filter is_image_name names in
  image_paths <~ lift (list_sort sort_key image_paths) ;;
  (if truthy set_cmd then
     middle <~ lift (getitem image_paths
                       (int_of_float (inject_Z (len image_paths) / 2))) ;;
     update_wallpaper set_cmd (os_path_join folder middle)
   else ret tt) ;;;
  image_files <~ lift (mapM (fun f => Image_open w (os_path_join folder f))
                         image_paths) ;;
  ret (image_paths, image_files).

Definition init_astral (tick : nat) (city : string)
  : result (datetime * datetime * Q) :=
  ('(dawn, dusk) <- astral_sun w tick city ;;
   let day_length := total_seconds (dusk - dawn)%Z in
   Ok (dawn, dusk, day_length))%py.

Definition blend_images (img1 img2 : Image) (amount : Q) (tmp_path : string)
  : proc unit :=
  new_img <~ lift (Image_blend w img1 img2 amount) ;;
  lift (Image_save w new_img tmp_path) ;;;
  emit (Saved tmp_path new_img).

(** [time.sleep] of an int: the length is first converted to nanoseconds
    on 64 bits, which raises beyond 9223372036 seconds on either side;
    then a negative length is refused. *)
Definition sleep (seconds : Z) : proc unit :=
  if 9223372036 <? Z.abs seconds then lift (Raise OverflowError)
  else if seconds <? 0 then lift (Raise ValueError)
  else emit (Slept seconds).

(** One iteration of the [while True] of [main]. *)
Definition main_tick (args : Args) (images : list Image) (tick : nat)
  : proc unit :=
  '(dawn_time, dusk_time, day_length) <~ lift (init_astral tick (city args)) ;;
  emit (Stdout_time "Dawn:" dawn_time) ;;;
  emit (Stdout_time "Dusk:" dusk_time) ;;;
  emit (Stdout_number "Day length (seconds):" day_length) ;;;
  '(img1, img2, amount) <~
     lift (get_current_images (datetime_now w tick) dawn_time day_length
             images (dusk_id args)) ;;
  blend_images img1 img2 amount (temp args) ;;;
  update_wallpaper (command args) (temp args) ;;;
  sleep (60 * rate args).

(** How far a run of [main] has got: it never returns. *)
Inductive outcome : Type :=
| Raised_at_startup (e : exn)
| Raised_in_loop (tick : nat) (e : exn)
| Looping (ticks_done : nat).

(** The loop, cut after [fuel] iterations. *)
Fixpoint main_loop (fuel : nat) (args : Args) (images : list Image)
    (tick : nat) (tr : list event) : list event * outcome :=
  match fuel with
  | O => (tr, Looping tick)
  | S fuel' =>
      match main_tick args images tick tr with
      | (tr', Ok _) => main_loop fuel' args images (S tick) tr'
      | (tr', Raise e) => (tr', Raised_in_loop tick e)
      end
  end.

Definition main (fuel : nat) (args : Args) : list event * outcome :=
  let path := os_path_expanduser w (folder args) in
  match init_images path (command args) [] with
  | (tr, Raise e) => (tr, Raised_at_startup e)
  | (tr, Ok (image_paths, images)) => main_loop fuel args images 0%nat tr
  end.

End Program.

Arguments event : clear implicits.
Arguments World : clear implicits.
Arguments proc : clear implicits.

(** The sixteen-image set of the scenarios: the handle of image [i] is [i]. *)
Definition sixteen : list Z := [0;1;2;3;4;5;6;7;8;9;10;11;12;13;14;15].

Definition hms (h m s : Z) : datetime := ((h * 60 + m) * 60 + s) * 1000000.

(** ** Predicates of the statements *)

Definition picks_last_image {Image : Type} (now dawn_time : datetime)
    (day_length : Q) (images : list Image) (dusk_id : Z) : Prop :=
  exists last_image,
    getitem images (len images - 1) = Ok last_image /\
    get_current_images now dawn_time day_length images dusk_id
    = Ok (last_image, last_image, 1%Q).

(** The sequence whose image number [i] is [i] itself. *)
Definition positions {Image : Type} (images : list Image) : list Z :=
  map Z.of_nat (seq 0 (List.length images)).

(** The pair of indices [get_current_images] reads the sequence at: its
    result on the sequence of the positions. *)
Definition get_current_indices {Image : Type} (now dawn_time : datetime)
    (day_length : Q) (images : list Image) (dusk_id : Z)
  : result (Z * Z * Q) :=
  get_current_images now dawn_time day_length (positions images) dusk_id.

(** ** The interpolation on binary64

    [get_current_images] as the interpreter computes it, on the floats of
    Python (IEEE 754 binary64, round to nearest, ties to even). A float is a
    primitive float of Rocq; its operations are specified by [SpecFloat], the
    executable model of the standard. The statements about the position,
    the indices and the amount are made on this module. *)

Module Binary64.

Import PrimFloat FloatOps SpecFloat.

(** An integer as an unrounded binary number. *)
Definition sf_of_int (z : Z) : spec_float :=
  match z with
  | Z0 => S754_zero false
  | Zpos m => S754_finite false m 0
  | Zneg m => S754_finite true m 0
  end.

(** The conversion of an [int] operand of a float operation ([dusk_id] in
    [dusk_id * cursor], the floor in [image_id - math.floor(image_id)]): the
    nearest float, and [OverflowError] past the largest float. *)
Definition float_of_int (z : Z) : result float :=
  match binary_normalize prec emax z 0 false with
  | S754_infinity _ => Raise OverflowError
  | sf => Ok (SF2Prim sf)
  end.

(** The rational number a finite float stands for. *)
Definition sf_value (x : spec_float) : option Q :=
  match x with
  | S754_zero _ => Some 0%Q
  | S754_finite s m e =>
      Some (inject_Z (cond_Zopp s (Zpos m)) * 2 ^ e)%Q
  | S754_infinity _ => None
  | S754_nan => None
  end.

Definition float_value (x : float) : option Q := sf_value (Prim2SF x).

(** [x < n] and [x > n] for a float [x] and an int [n]: the interpreter
    compares the two exactly; a NaN compares false. *)
Definition float_compare_int (x : float) (n : Z) : option comparison :=
  match Prim2SF x with
  | S754_nan => None
  | S754_infinity s => Some (if s then Lt else Gt)
  | sf => match sf_value sf with
          | Some v => Some (Qcompare v (inject_Z n))
          | None => None
          end
  end.

Definition float_lt_int (x : float) (n : Z) : bool :=
  match float_compare_int x n with Some Lt => true | _ => false end.

Definition float_gt_int (x : float) (n : Z) : bool :=
  match float_compare_int x n with Some Gt => true | _ => false end.

(** [math.floor] on a float: an [int]; [ValueError] on a NaN and
    [OverflowError] on an infinity. *)
Definition math_floor (x : float) : result Z :=
  match Prim2SF x with
  | S754_nan => Raise ValueError
  | S754_infinity _ => Raise OverflowError
  | sf => match sf_value sf with
          | Some v => Ok (Qfloor v)
          | None => Raise ValueError
          end
  end.

(** [x / y] on floats. *)
Definition truediv (x y : float) : result float :=
  if is_zero y then Raise ZeroDivisionError else Ok (x / y)%float.

(** [timedelta.total_seconds()]: the quotient of two ints, the number of
    microseconds and 10^6, rounded once. *)
Definition total_seconds (d : timedelta) : float :=
  SF2Prim (SFdiv prec emax (sf_of_int d) (sf_of_int 1000000)).

(** [image_id = dusk_id * cursor / day_length]: the product is rounded, then
    the quotient. *)
Definition image_id_of (now dawn_time : datetime) (day_length : float)
    (dusk_id : Z) : result float :=
  (let cursor := total_seconds (now - dawn_time) in
   d <- float_of_int dusk_id ;;
   truediv (d * cursor)%float day_length)%py.

(** [get_current_images]. The amount of the fallback is the int [1] in the
    source; it is the float [1.0] here, which compares equal to it. *)
Definition get_current_images {Image : Type} (now : datetime)
    (dawn_time : datetime) (day_length : float) (images : list Image)
    (dusk_id : Z)
  : result (Image * Image * float) :=
  (let cursor := total_seconds (now - dawn_time) in
   d <- float_of_int dusk_id ;;
   image_id <- truediv (d * cursor)%float day_length ;;
   if float_lt_int image_id 1 || float_gt_int image_id (len images - 1) then
     (* out of range, just pick last image *)
     last_image <- getitem images (len images - 1) ;;
     Ok (last_image, last_image, one)
   else
     i <- math_floor image_id ;;
     img1 <- getitem images i ;;
     j <- math_floor (image_id + one)%float ;;
     img2 <- getitem images j ;;
     i' <- math_floor image_id ;;
     fi <- float_of_int i' ;;
     Ok (img1, img2, (image_id - fi)%float))%py.

(** *** Predicates of the statements *)

Definition picks_last_image {Image : Type} (now dawn_time : datetime)
    (day_length : float) (images : list Image) (dusk_id : Z) : Prop :=
  exists last_image,
    getitem images (len images - 1) = Ok last_image /\
    get_current_images now dawn_time day_length images dusk_id
    = Ok (last_image, last_image, one).

(** The pair of indices [get_current_images] reads the sequence at. *)
Definition get_current_indices {Image : Type} (now dawn_time : datetime)
    (day_length : float) (images : list Image) (dusk_id : Z)
  : result (Z * Z * float) :=
  get_current_images now dawn_time day_length (positions images) dusk_id.

(** A day_length as [init_astral] gives it when dusk comes after dawn: a
    finite float above zero. *)
Definition finite_positive (x : float) : Prop :=
  exists m e, Prim2SF x = S754_finite false m e.

(** The differences a [timedelta] can hold: from -999999999 days to
    999999999 days, 23:59:59.999999. *)
Definition timedelta_in_range (d : timedelta) : Prop :=
  -86399999913600000000 <= d <= 86399999999999999999.

(** *** Notions used to specify the rounding

    The mantissa [m] followed by the fraction [num / den] is rounded to
    [rne m num den]: up when the fraction is above one half, or is one half
    and [m] is odd. *)

Definition round_up (m num den : Z) : bool :=
  (den <? 2 * num) || ((2 * num =? den) && Z.odd m).

Definition rne (m num den : Z) : Z :=
  if round_up m num den then m + 1 else m.

(** The round and sticky bits [r] and [s] of a shifted mantissa tell where
    the fraction [num / den] lies with respect to one half. *)
Definition loc_ok (num den : Z) (r s : bool) : Prop :=
  0 <= num < den /\
  r = (den <=? 2 * num) /\
  s = negb (num =? 0) && negb (2 * num =? den).

(** The float of sign [s], mantissa [n] and exponent [e], once the mantissa
    2^53 is written with 53 bits and the exponents past the largest are
    turned into infinity. *)
Definition rounded (s : bool) (n e : Z) : spec_float :=
  match n with
  | Z0 => S754_zero s
  | Zpos p =>
      if n =? 2 ^ 53 then
        if e + 1 <=? emax - prec
        then S754_finite s 4503599627370496 (e + 1)
        else S754_infinity s
      else if e <=? emax - prec then S754_finite s p e
      else S754_infinity s
  | Zneg _ => S754_nan
  end.

(** A mantissa of 53 bits at most (or 2^53, after a carry) at an exponent of
    the format; below 2^52 only at the least exponent. *)
Definition canonical_pair (n e : Z) : Prop :=
  0 <= n <= 2 ^ 53 /\ -1074 <= e /\ (n < 2 ^ 52 -> e = -1074).

(** The nearest integer, ties to even. *)
Definition rint (y : Q) : Z :=
  let q := Qfloor y in
  let f := (y - inject_Z q)%Q in
  rne q (Qnum f) (Zpos (Qden f)).

(** The exponent of the floats next to [x]. *)
Definition cexp_rel (x : Q) (e : Z) : Prop :=
  (e = -1074 /\ (x < 2 ^ (-1021))%Q) \/
  (-1074 < e /\ (2 ^ (e + 52) <= x)%Q /\ (x < 2 ^ (e + 53))%Q).

(** [x] rounds to the mantissa [n] at the exponent [e]. *)
Definition rounds_to (x : Q) (n e : Z) : Prop :=
  cexp_rel x e /\ n = rint (x * 2 ^ (- e)) /\ canonical_pair n e.

Definition nonneg (x : spec_float) : Prop :=
  match x with
  | S754_zero _ | S754_finite false _ _ | S754_infinity false => True
  | _ => False
  end.

Definition nonpos (x : spec_float) : Prop :=
  match x with
  | S754_zero _ | S754_finite true _ _ | S754_infinity true => True
  | _ => False
  end.

Definition finite_nonneg (x : spec_float) : Prop :=
  match x with
  | S754_zero _ | S754_finite false _ _ => True
  | _ => False
  end.

Definition finite_nonpos (x : spec_float) : Prop :=
  match x with
  | S754_zero _ | S754_finite true _ _ => True
  | _ => False
  end.

(** [a <= b] for two floats that are zero or more, plus infinity
    included. *)
Definition le_nn (a b : spec_float) : Prop :=
  b = S754_infinity false \/
  exists u v, sf_value a = Some u /\ sf_value b = Some v /\ (u <= v)%Q.

Ltac bool_cases :=
  repeat match goal with
  | |- context [?a <=? ?b] => destruct (Z.leb_spec a b)
  | |- context [?a <? ?b] => destruct (Z.ltb_spec a b)
  | |- context [?a =? ?b] => destruct (Z.eqb_spec a b)
  end; cbn [negb andb orb]; try reflexivity; try lia.

End Binary64.

Section SortedBy.

Context {A : Type}.

Definition key_le (p q : Z * A) : Prop := fst p <= fst q.

(** The sort with a key that is defined on every element. *)
Definition sorted_by (key : A -> Z) (l : list A) : list A :=
  map snd (sort_keyed (map (fun x => (key x, x)) l)).

End SortedBy.

(** [needle] occurs in [hay]. *)
Definition occurs_in (needle hay : string) : Prop :=
  exists before after, hay = String.append before (String.append needle after).

(** [f] has a character of [0-9]. *)
Definition has_digit (f : string) : Prop :=
  exists c, In c (list_ascii_of_string f) /\ is_digit c = true.

(** The key of a name that has one, 0 for the others. *)
Definition key_value (f : string) : Z :=
  match sort_key f with
  | Ok k => k
  | Raise _ => 0
  end.

(** ** The blend of the image library *)

(** Modelled from the spec: [Image.blend] of the imaging library, which is
    not part of src/. An image is the list of the values of its pixels, and
    the blend is "a per-pixel linear blend:
    output = imageA * (1 - fraction) + imageB * fraction". *)
Definition linear_blend (imageA imageB : list Q) (fraction : Q) : list Q :=
  map (fun ab => (fst ab * (1 - fraction) + snd ab * fraction)%Q)
      (combine imageA imageB).

(** ** Worlds and inputs of the examples *)

(** A world for the examples: a folder with the given listing, a handle
    per file (the number in its name), dawn at 08:00, dusk at 18:00, and a
    clock that says 12:00 at the first tick and ten minutes more at each
    of the next ones. *)
Definition listing_world (names : list string) : World Z := {|
  os_path_expanduser := fun p => p;
  os_listdir := fun _ => Ok names;
  Image_open := fun p => Ok (key_value p);
  Image_blend := fun a _ _ => Ok a;
  Image_save := fun _ _ => Ok tt;
  format_split_call := fun _ _ => Ok tt;
  astral_sun := fun _ _ => Ok (hms 8 0 0, hms 18 0 0);
  datetime_now := fun tick => hms 12 0 0 + Z.of_nat tick * 600000000
|}.

(** The same, with a city the sun calculator does not know. *)
Definition unknown_city_world (names : list string) : World Z := {|
  os_path_expanduser := fun p => p;
  os_listdir := fun _ => Ok names;
  Image_open := fun p => Ok (key_value p);
  Image_blend := fun a _ _ => Ok a;
  Image_save := fun _ _ => Ok tt;
  format_split_call := fun _ _ => Ok tt;
  astral_sun := fun _ _ => Raise KeyError;
  datetime_now := fun tick => hms 12 0 0 + Z.of_nat tick * 600000000
|}.

Definition default_args (dir cmd : string) : Args := {|
  city := "Rome";
  folder := dir;
  rate := 10;
  temp := "/tmp/wallpaper.png";
  dusk_id := 13;
  command := cmd
|}.

(** A listing with a name that has "jpg" in it, not as its extension, and
    no digit. *)
Definition notes_listing : list string :=
  ["1.png"%string; "notes_on_jpg_files"%string].

(** Two files with the same number, in the two orders a listing can have. *)
Definition twins_listing : list string := ["a1.png"%string; "b1.png"%string].
Definition twins_listing_reversed : list string :=
  ["b1.png"%string; "a1.png"%string].

(** A listing out of order, with a file that is not an image and numbers
    written with and without padding. *)
Definition mixed_listing : list string :=
  ["10.jpg"%string; "9.jpg"%string; "readme.txt"%string; "1.jpg"%string;
   "02.jpeg"%string].

(** A folder with a text file and nothing else. *)
Definition no_image_listing : list string := ["readme.txt"%string].

(** A world whose image library blends as the spec says and saves without
    an error. *)
Definition blend_world : World (list Q) := {|
  os_path_expanduser := fun p => p;
  os_listdir := fun _ => Ok [];
  Image_open := fun _ => Ok [];
  Image_blend := fun a b f => Ok (linear_blend a b f);
  Image_save := fun _ _ => Ok tt;
  format_split_call := fun _ _ => Ok tt;
  astral_sun := fun _ _ => Ok (hms 8 0 0, hms 18 0 0);
  datetime_now := fun _ => hms 12 0 0
|}.

Definition grey_ramp : list Q := [0; 128; 255]%Q.
Definition grey_ramp_reversed : list Q := [255; 128; 0]%Q.

(** ** Traces of main *)

(** What [main] may do to the outside with the arguments [args]: run the
    command of [args], save at the temp path of [args], sleep [60 * rate]
    seconds, write lines out. *)
Definition event_allowed {Image : Type} (args : Args) (e : event Image) : Prop :=
  match e with
  | Called cmd _ => cmd = command args
  | Saved path _ => path = temp args
  | Slept seconds => seconds = 60 * rate args /\ 0 <= seconds
  | Stdout_time _ _ => True
  | Stdout_number _ _ => True
  end.

Definition is_slept {Image : Type} (e : event Image) : bool :=
  match e with
  | Slept _ => true
  | _ => false
  end.

Definition is_saved {Image : Type} (e : event Image) : bool :=
  match e with
  | Saved _ _ => true
  | _ => false
  end.

(** The numbers of sleeps and of saved files of a trace. *)
Definition sleeps {Image : Type} (tr : list (event Image)) : nat :=
  List.length (filter is_slept tr).

Definition saves {Image : Type} (tr : list (event Image)) : nat :=
  List.length (filter is_saved tr).

(** ** More worlds and inputs of the examples *)

(** A listing in the order of the numbers, with a file that is not an
    image in it. *)
Definition ordered_listing : list string :=
  ["1.jpg"%string; "02.jpeg"%string; "readme.txt"%string; "9.jpg"%string;
   "10.jpg"%string].

(** The world of [listing_world] on a day whose dusk is its dawn. *)
Definition no_day_world (names : list string) : World Z := {|
  os_path_expanduser := fun p => p;
  os_listdir := fun _ => Ok names;
  Image_open := fun p => Ok (key_value p);
  Image_blend := fun a _ _ => Ok a;
  Image_save := fun _ _ => Ok tt;
  format_split_call := fun _ _ => Ok tt;
  astral_sun := fun _ _ => Ok (hms 12 0 0, hms 12 0 0);
  datetime_now := fun tick => hms 12 0 0 + Z.of_nat tick * 600000000
|}.

(** The default arguments with a refresh rate of -1 minute. *)
Definition negative_rate_args : Args := {|
  city := "Rome";
  folder := "wallpapers";
  rate := -1;
  temp := "/tmp/wallpaper.png";
  dusk_id := 13;
  command := "feh --bg-scale {}"
|}.

(** The default arguments with a refresh rate of 200000000 minutes. *)
Definition long_rate_args : Args := {|
  city := "Rome";
  folder := "wallpapers";
  rate := 200000000;
  temp := "/tmp/wallpaper.png";
  dusk_id := 13;
  command := "feh --bg-scale {}"
|}.

(** A listing with a name that has "jpg" in it, not as its extension, and a
    digit, and with a file that is no image. *)
Definition stray_listing : list string :=
  ["10.png"%string; "my_jpg_notes_2.txt"%string; "readme.txt"%string].

(** * Properties *)

(** ** Booleans, floors and indexing *)

Lemma Qlt_bool_true (x y : Q) : Qlt_bool x y = true <-> (x < y)%Q.
Proof.
  unfold Qlt_bool. rewrite negb_true_iff.
  split; intro H.
  - apply Qnot_le_lt. intro L. apply Qle_bool_iff in L. congruence.
  - destruct (Qle_bool y x) eqn:E; [|reflexivity].
    apply Qle_bool_iff in E. exfalso. exact (Qlt_not_le _ _ H E).
Qed.

Lemma Qlt_bool_false (x y : Q) : Qlt_bool x y = false <-> (y <= x)%Q.
Proof.
  unfold Qlt_bool. rewrite negb_false_iff. apply Qle_bool_iff.
Qed.


Lemma truediv_zero (x y : Q) : (y == 0)%Q -> truediv x y = Raise ZeroDivisionError.
Proof.
  intro H. unfold truediv. apply Qeq_eq_bool in H. rewrite H. reflexivity.
Qed.

(** The floor of [x] is the one integer [n] with [n <= x < n + 1]. *)
Lemma math_floor_unique (x : Q) (n : Z) :
  (inject_Z n <= x)%Q -> (x < inject_Z (n + 1))%Q -> math_floor x = n.
Proof.
  intros Hlo Hhi. unfold math_floor.
  assert (L : n <= Qfloor x).
  { apply Qfloor_resp_le in Hlo. rewrite Qfloor_Z in Hlo. exact Hlo. }
  assert (U : Qfloor x < n + 1).
  { rewrite Zlt_Qlt. eapply Qle_lt_trans; [apply Qfloor_le | exact Hhi]. }
  lia.
Qed.

Lemma math_floor_bounds (x : Q) :
  (inject_Z (math_floor x) <= x)%Q /\ (x < inject_Z (math_floor x + 1))%Q.
Proof.
  unfold math_floor. split; [apply Qfloor_le | apply Qlt_floor].
Qed.

Lemma math_floor_between (x : Q) (lo hi : Z) :
  (inject_Z lo <= x)%Q -> (x < inject_Z hi)%Q ->
  lo <= math_floor x < hi.
Proof.
  intros Hlo Hhi. destruct (math_floor_bounds x) as [Fl Fh]. split.
  - apply Qfloor_resp_le in Hlo. rewrite Qfloor_Z in Hlo. exact Hlo.
  - rewrite Zlt_Qlt. eapply Qle_lt_trans; [exact Fl | exact Hhi].
Qed.

Lemma len_nonneg {A : Type} (l : list A) : 0 <= len l.
Proof. unfold len. lia. Qed.

Lemma getitem_inside {A : Type} (l : list A) (i : Z) :
  0 <= i < len l ->
  exists a, getitem l i = Ok a /\ nth_error l (Z.to_nat i) = Some a.
Proof.
  intros [Hlo Hhi]. unfold getitem.
  destruct (i <? 0) eqn:E; [apply Z.ltb_lt in E; lia|].
  rewrite E. simpl.
  destruct (len l <=? i) eqn:E2; [apply Z.leb_le in E2; lia|].
  destruct (nth_error l (Z.to_nat i)) as [a|] eqn:N.
  - exists a. split; reflexivity.
  - apply nth_error_None in N. unfold len in Hhi. lia.
Qed.

Lemma getitem_beyond {A : Type} (l : list A) (i : Z) :
  len l <= i -> getitem l i = Raise IndexError.
Proof.
  intro H. pose proof (len_nonneg l) as P. unfold getitem.
  destruct (i <? 0) eqn:E; [apply Z.ltb_lt in E; lia|].
  rewrite E. simpl.
  destruct (len l <=? i) eqn:E2; [reflexivity|].
  apply Z.leb_gt in E2. lia.
Qed.


(** An index [l[i]] accepts is in [-len l .. len l - 1]. *)
Lemma getitem_index_range {A : Type} (l : list A) (i : Z) (a : A) :
  getitem l i = Ok a -> - len l <= i < len l.
Proof.
  unfold getitem. intro H.
  destruct (i <? 0) eqn:E;
    destruct ((_ <? 0) || _) eqn:E2; try discriminate;
    apply orb_false_iff in E2; destruct E2 as [E3 E4];
    apply Z.ltb_ge in E3; apply Z.leb_gt in E4.
  - apply Z.ltb_lt in E. lia.
  - apply Z.ltb_ge in E. lia.
Qed.

(** ** The fallback on the rationals *)

Section Regimes.

Context {Image : Type}.
Variables (now dawn_time : datetime) (day_length : Q).
Variables (images : list Image) (dusk_id : Z).

Local Abbreviation position := (image_id_of now dawn_time day_length dusk_id).

Hypothesis day_length_nonzero : ~ (day_length == 0)%Q.


End Regimes.

(** ** The position as a function of the time *)






(** ** The fallback: the last image, twice, with amount 1 *)



(** ** The indices used *)


(** C2 fails on the code at the position N - 1 itself: the test
    [image_id > len(images) - 1] lets it through, and the second index,
    floor(image_id + 1), is N. With dawn at 08:00, a day of 39000 s,
    sixteen images, dusk image 13 and now = 20:30 the position is 15 and
    get_current_images raises IndexError; so it does with two images, dusk
    image 1 and now = dusk. *)
Theorem C2_index_error_at_last_position :
  1 <= len sixteen /\ 0 <= 13 <= len sixteen - 1 /\ (0 < 39000)%Q /\
  (image_id_of (hms 20 30 0) (hms 8 0 0) 39000 13 == 15)%Q /\
  math_floor (image_id_of (hms 20 30 0) (hms 8 0 0) 39000 13 + 1) = len sixteen /\
  get_current_images (hms 20 30 0) (hms 8 0 0) 39000 sixteen 13
  = Raise IndexError /\
  get_current_images (hms 18 0 0) (hms 8 0 0) 36000 [0; 1] 1
  = Raise IndexError.
Proof.
  repeat split; vm_compute; congruence.
Qed.

Lemma len_positions {Image : Type} (images : list Image) :
  len (positions images) = len images.
Proof.
  unfold len, positions. rewrite length_map, length_seq. reflexivity.
Qed.

Lemma nth_error_positions {Image : Type} (images : list Image) (n : nat) :
  (n < List.length images)%nat ->
  nth_error (positions images) n = Some (Z.of_nat n).
Proof.
  intro H. unfold positions.
  rewrite nth_error_map, nth_error_seq.
  destruct (Nat.ltb_spec n (List.length images)); [reflexivity | lia].
Qed.

Lemma getitem_positions_inside {Image : Type} (images : list Image) (i : Z) :
  0 <= i < len images -> getitem (positions images) i = Ok i.
Proof.
  intro H.
  destruct (getitem_inside (positions images) i) as [j [G N]].
  { rewrite len_positions. exact H. }
  rewrite nth_error_positions in N by (unfold len in H; lia).
  injection N as <-. rewrite G. f_equal. lia.
Qed.


Lemma getitem_outside {A : Type} (l : list A) (i : Z) :
  i < - len l \/ len l <= i -> getitem l i = Raise IndexError.
Proof.
  intros [H|H]; [|apply getitem_beyond; exact H].
  pose proof (len_nonneg l) as P. unfold getitem.
  destruct (i <? 0) eqn:E; [|apply Z.ltb_ge in E; lia].
  destruct (i + len l <? 0) eqn:E2; [reflexivity|].
  apply Z.ltb_ge in E2. lia.
Qed.



(** ** The sort *)

Section SortFacts.

Context {A : Type}.

Lemma insert_keyed_permutation (k : Z) (x : A) (l : list (Z * A)) :
  Permutation ((k, x) :: l) (insert_keyed k x l).
Proof.
  induction l as [|[k' y] rest IH]; simpl.
  - apply Permutation_refl.
  - destruct (k <=? k').
    + apply Permutation_refl.
    + eapply perm_trans; [apply perm_swap|].
      apply perm_skip. exact IH.
Qed.

Lemma sort_keyed_permutation (l : list (Z * A)) :
  Permutation l (sort_keyed l).
Proof.
  induction l as [|[k x] rest IH]; simpl.
  - apply perm_nil.
  - eapply perm_trans; [|apply insert_keyed_permutation].
    apply perm_skip. exact IH.
Qed.

Lemma insert_keyed_head (k : Z) (x : A) (l : list (Z * A)) (p : Z * A) :
  key_le p (k, x) -> HdRel key_le p l -> HdRel key_le p (insert_keyed k x l).
Proof.
  intros Hp Hl. destruct l as [|[k' y] rest]; simpl.
  - constructor. exact Hp.
  - destruct (k <=? k'); constructor.
    + exact Hp.
    + inversion Hl; assumption.
Qed.

Lemma insert_keyed_sorted (k : Z) (x : A) (l : list (Z * A)) :
  Sorted key_le l -> Sorted key_le (insert_keyed k x l).
Proof.
  induction l as [|[k' y] rest IH]; simpl; intro S.
  - repeat constructor.
  - destruct (k <=? k') eqn:E.
    + constructor; [exact S|]. constructor.
      unfold key_le. simpl. apply Z.leb_le. exact E.
    + inversion S as [|? ? Srest Hd]; subst.
      constructor; [apply IH; exact Srest|].
      apply insert_keyed_head; [|exact Hd].
      unfold key_le. simpl. apply Z.leb_gt in E. lia.
Qed.

Lemma sort_keyed_sorted (l : list (Z * A)) : Sorted key_le (sort_keyed l).
Proof.
  induction l as [|[k x] rest IH]; simpl.
  - constructor.
  - apply insert_keyed_sorted. exact IH.
Qed.

(** The entries of one key are found in the order they came in. *)
Lemma insert_keyed_stable (k0 k : Z) (x : A) (l : list (Z * A)) :
  filter (fun p => fst p =? k0) (insert_keyed k x l)
  = filter (fun p => fst p =? k0) ((k, x) :: l).
Proof.
  induction l as [|[k' y] rest IH]; [reflexivity|].
  cbn [insert_keyed]. destruct (k <=? k') eqn:E; [reflexivity|].
  apply Z.leb_gt in E.
  cbn [filter fst] in *. rewrite IH.
  destruct (k =? k0) eqn:E1; destruct (k' =? k0) eqn:E2; try reflexivity.
  apply Z.eqb_eq in E1, E2. lia.
Qed.

Lemma sort_keyed_stable (k0 : Z) (l : list (Z * A)) :
  filter (fun p => fst p =? k0) (sort_keyed l)
  = filter (fun p => fst p =? k0) l.
Proof.
  induction l as [|[k x] rest IH]; [reflexivity|].
  cbn [sort_keyed]. rewrite insert_keyed_stable.
  cbn [filter fst]. rewrite IH. reflexivity.
Qed.

Lemma sort_keyed_keys (key : A -> Z) (l : list A) :
  Forall (fun p => fst p = key (snd p)) (sort_keyed (map (fun x => (key x, x)) l)).
Proof.
  eapply Permutation_Forall; [apply sort_keyed_permutation|].
  apply Forall_forall. intros p Hp. apply in_map_iff in Hp.
  destruct Hp as (x & <- & _). reflexivity.
Qed.

Lemma keyed_map_snd (key : A -> Z) (ps : list (Z * A)) :
  Forall (fun p => fst p = key (snd p)) ps ->
  map fst ps = map key (map snd ps).
Proof.
  induction 1 as [|p rest Hp _ IH]; simpl; congruence.
Qed.

Lemma sorted_by_permutation (key : A -> Z) (l : list A) :
  Permutation l (sorted_by key l).
Proof.
  unfold sorted_by.
  rewrite <- (map_id l) at 1.
  rewrite <- (map_ext (fun x => snd (key x, x)) (fun x => x)) by reflexivity.
  rewrite <- (map_map (fun x => (key x, x)) snd).
  apply Permutation_map, sort_keyed_permutation.
Qed.

Lemma Sorted_map_fst (ps : list (Z * A)) :
  Sorted key_le ps -> Sorted Z.le (map fst ps).
Proof.
  induction 1 as [|p rest S IH Hd]; simpl; constructor.
  - exact IH.
  - destruct Hd; simpl; constructor. assumption.
Qed.

Lemma sorted_by_sorted (key : A -> Z) (l : list A) :
  Sorted Z.le (map key (sorted_by key l)).
Proof.
  unfold sorted_by.
  rewrite <- keyed_map_snd by apply sort_keyed_keys.
  apply Sorted_map_fst, sort_keyed_sorted.
Qed.

Lemma filter_keyed_snd (key : A -> Z) (k0 : Z) (ps : list (Z * A)) :
  Forall (fun p => fst p = key (snd p)) ps ->
  filter (fun x => key x =? k0) (map snd ps)
  = map snd (filter (fun p => fst p =? k0) ps).
Proof.
  induction 1 as [|p rest Hp _ IH]; [reflexivity|].
  cbn [map filter]. rewrite <- Hp, IH.
  destruct (fst p =? k0); reflexivity.
Qed.

Lemma sorted_by_stable (key : A -> Z) (k0 : Z) (l : list A) :
  filter (fun x => key x =? k0) (sorted_by key l)
  = filter (fun x => key x =? k0) l.
Proof.
  unfold sorted_by.
  rewrite filter_keyed_snd by apply sort_keyed_keys.
  rewrite sort_keyed_stable.
  induction l as [|x rest IH]; [reflexivity|].
  cbn [map filter fst]. destruct (key x =? k0); cbn [map snd]; rewrite IH;
    reflexivity.
Qed.

(** Two arrangements of the same elements in strictly ascending key order
    are the same list. *)
Lemma strictly_sorted_unique (key : A -> Z) (l1 l2 : list A) :
  StronglySorted Z.lt (map key l1) -> StronglySorted Z.lt (map key l2) ->
  Permutation l1 l2 -> l1 = l2.
Proof.
  revert l2. induction l1 as [|a t1 IH]; intros l2 S1 S2 P.
  - apply Permutation_nil in P. congruence.
  - destruct l2 as [|b t2].
    { apply Permutation_sym, Permutation_nil in P. discriminate. }
    cbn [map] in S1, S2.
    apply StronglySorted_inv in S1. destruct S1 as [S1 F1].
    apply StronglySorted_inv in S2. destruct S2 as [S2 F2].
    assert (E : a = b).
    { assert (Ia : In a (b :: t2))
        by (eapply Permutation_in; [exact P | left; reflexivity]).
      assert (Ib : In b (a :: t1))
        by (eapply Permutation_in;
            [apply Permutation_sym; exact P | left; reflexivity]).
      destruct Ia as [Ea|Ia]; [congruence|].
      destruct Ib as [Eb|Ib]; [congruence|].
      exfalso.
      rewrite Forall_forall in F1, F2.
      pose proof (F1 (key b) (in_map key _ _ Ib)).
      pose proof (F2 (key a) (in_map key _ _ Ia)).
      lia. }
    subst b. f_equal. apply IH; try assumption.
    eapply Permutation_cons_inv. exact P.
Qed.

End SortFacts.

(** An ascending list of integers without a repeated one ascends strictly. *)
Lemma Sorted_le_NoDup_lt (ks : list Z) :
  Sorted Z.le ks -> NoDup ks -> StronglySorted Z.lt ks.
Proof.
  intros S N. apply Sorted_StronglySorted in S; [|intros x y z; apply Z.le_trans].
  induction S as [|k rest S IH F]; constructor.
  - apply IH. inversion N; assumption.
  - inversion N as [|? ? Hnotin _]; subst.
    rewrite Forall_forall in F |- *. intros y Hy.
    pose proof (F y Hy). assert (k <> y) by congruence. lia.
Qed.

Lemma Permutation_filter {A : Type} (f : A -> bool) (l1 l2 : list A) :
  Permutation l1 l2 -> Permutation (filter f l1) (filter f l2).
Proof.
  induction 1 as [|x l l' _ IH|x y l|l l' l'' _ IH1 _ IH2]; simpl.
  - apply perm_nil.
  - destruct (f x); [apply perm_skip|]; exact IH.
  - destruct (f x); destruct (f y); try apply Permutation_refl.
    apply perm_swap.
  - eapply perm_trans; eassumption.
Qed.

(** ** File names and their keys *)

Lemma prefix_occurs (needle hay : string) :
  String.prefix needle hay = true <-> exists after, hay = String.append needle after.
Proof.
  revert hay. induction needle as [|c n IH]; intro hay.
  - split; [intros _; exists hay; reflexivity | destruct hay; reflexivity].
  - destruct hay as [|d h]; simpl.
    + split; [discriminate | intros [a E]; discriminate].
    + destruct (Ascii.ascii_dec c d) as [->|Hne].
      * rewrite IH. split; intros [a E]; exists a; congruence.
      * split; [discriminate | intros [a E]; congruence].
Qed.

Lemma contains_occurs (needle hay : string) :
  contains needle hay = true <-> occurs_in needle hay.
Proof.
  unfold occurs_in. induction hay as [|d h IH]; cbn [contains].
  - rewrite orb_false_r, prefix_occurs. split.
    + intros [a E]. exists EmptyString, a. exact E.
    + intros (b & a & E). destruct b; [exists a; exact E|discriminate].
  - rewrite orb_true_iff, prefix_occurs, IH. split.
    + intros [[a E]|(b & a & E)].
      * exists EmptyString, a. exact E.
      * exists (String d b), a. simpl. congruence.
    + intros (b & a & E). destruct b as [|c b].
      * left. exists a. exact E.
      * right. exists b, a. simpl in E. congruence.
Qed.

Lemma re_sub_non_digits_empty (f : string) :
  re_sub_non_digits f = EmptyString <-> ~ has_digit f.
Proof.
  unfold has_digit. induction f as [|c rest IH]; simpl.
  - split; [intros _ (c & [] & _) | reflexivity].
  - destruct (is_digit c) eqn:D.
    + split; [discriminate|]. intro H. exfalso. apply H.
      exists c. split; [left; reflexivity | exact D].
    + rewrite IH. split; intros H (d & I & Dd); apply H.
      * destruct I as [<-|I]; [congruence|]. exists d. split; assumption.
      * exists d. split; [right; exact I | exact Dd].
Qed.

Lemma re_sub_non_digits_digits (f : string) :
  Forall (fun c => is_digit c = true)
         (list_ascii_of_string (re_sub_non_digits f)).
Proof.
  induction f as [|c rest IH]; simpl; [constructor|].
  destruct (is_digit c) eqn:D; [|exact IH].
  simpl. constructor; assumption.
Qed.

Lemma int_digits_defined (s : string) (acc : Z) :
  Forall (fun c => is_digit c = true) (list_ascii_of_string s) ->
  exists k, int_digits acc s = Ok k.
Proof.
  revert acc. induction s as [|c rest IH]; intros acc F; simpl.
  - exists acc. reflexivity.
  - simpl in F. inversion F as [|? ? D Frest]; subst.
    rewrite D. apply IH. exact Frest.
Qed.

Lemma int_of_str_raises (s : string) (e : exn) :
  int_of_str s = Raise e -> e = ValueError.
Proof.
  unfold int_of_str. destruct s as [|c rest]; [congruence|].
  generalize 0. generalize (String c rest). clear.
  intro s. induction s as [|d t IH]; intro acc; simpl; [discriminate|].
  destruct (is_digit d); [apply IH | congruence].
Qed.

(** The key is defined on the names that have a digit, and only there. *)
Lemma sort_key_defined (f : string) :
  has_digit f -> exists k, sort_key f = Ok k.
Proof.
  intro H. unfold sort_key, int_of_str.
  destruct (re_sub_non_digits f) eqn:E.
  - apply re_sub_non_digits_empty in E. contradiction.
  - rewrite <- E. apply int_digits_defined, re_sub_non_digits_digits.
Qed.

Lemma sort_key_undefined (f : string) :
  ~ has_digit f -> sort_key f = Raise ValueError.
Proof.
  intro H. unfold sort_key.
  apply re_sub_non_digits_empty in H. rewrite H. reflexivity.
Qed.

Lemma sort_key_raises (f : string) (e : exn) :
  sort_key f = Raise e -> e = ValueError.
Proof. apply int_of_str_raises. Qed.

Lemma sort_key_value (f : string) (k : Z) :
  sort_key f = Ok k -> key_value f = k.
Proof. unfold key_value. intros ->. reflexivity. Qed.

(** ** mapM and list_sort *)

Lemma mapM_raises {A B : Type} (f : A -> result B) (e0 : exn) (l : list A) :
  (forall x e, In x l -> f x = Raise e -> e = e0) ->
  (exists x, In x l /\ f x = Raise e0) ->
  mapM f l = Raise e0.
Proof.
  induction l as [|a rest IH]; intros Hall (x & I & E); [destruct I|].
  cbn [mapM]. destruct (f a) as [y|e] eqn:Fa.
  - destruct I as [<-|I]; [congruence|].
    rewrite IH; [reflexivity | |].
    + intros z e' Iz. apply Hall. right. exact Iz.
    + exists x. split; assumption.
  - f_equal. eapply Hall; [left; reflexivity | exact Fa].
Qed.

Lemma mapM_returns {A B : Type} (f : A -> result B) (g : A -> B) (l : list A) :
  (forall x, In x l -> f x = Ok (g x)) -> mapM f l = Ok (map g l).
Proof.
  induction l as [|a rest IH]; intro H; [reflexivity|].
  cbn [mapM map]. rewrite (H a) by (left; reflexivity).
  rewrite IH; [reflexivity|]. intros x I. apply H. right. exact I.
Qed.

Lemma mapM_returned {A B : Type} (f : A -> result B) (l : list A) (ys : list B) :
  mapM f l = Ok ys -> Forall2 (fun x y => f x = Ok y) l ys.
Proof.
  revert ys. induction l as [|a rest IH]; intros ys; cbn [mapM].
  - intros [= <-]. constructor.
  - destruct (f a) as [y|e] eqn:Fa; [|discriminate].
    destruct (mapM f rest) as [ys'|e]; [|discriminate].
    intros [= <-]. constructor; [exact Fa | apply IH; reflexivity].
Qed.

Lemma combine_keys (l : list string) (keys : list Z) :
  Forall2 (fun f k => sort_key f = Ok k) l keys ->
  combine keys l = map (fun f => (key_value f, f)) l /\
  keys = map key_value l.
Proof.
  induction 1 as [|f k l keys E _ [IH1 IH2]]; [split; reflexivity|].
  cbn [combine map]. apply sort_key_value in E. subst k.
  split; congruence.
Qed.

(** When [list_sort] returns, it returns the stable sort by the keys. *)
Lemma list_sort_returned (l paths : list string) :
  list_sort sort_key l = Ok paths ->
  paths = sorted_by key_value l /\ mapM sort_key l = Ok (map key_value l).
Proof.
  unfold list_sort. destruct (mapM sort_key l) as [keys|e] eqn:M;
    cbn [bind]; [|discriminate].
  intros [= <-]. apply mapM_returned in M.
  destruct (combine_keys l keys M) as [C K].
  rewrite C. subst keys. split; reflexivity.
Qed.

Lemma list_sort_returns (l : list string) :
  (forall f, In f l -> has_digit f) ->
  list_sort sort_key l = Ok (sorted_by key_value l).
Proof.
  intro H.
  assert (M : mapM sort_key l = Ok (map key_value l)).
  { apply mapM_returns. intros f I.
    destruct (sort_key_defined f (H f I)) as [k E].
    rewrite E. f_equal. symmetry. apply sort_key_value. exact E. }
  unfold list_sort. rewrite M. cbn [bind].
  destruct (combine_keys l (map key_value l) (mapM_returned _ _ _ M)) as [C _].
  rewrite C. reflexivity.
Qed.

Lemma list_sort_raises (l : list string) :
  (exists f, In f l /\ ~ has_digit f) ->
  list_sort sort_key l = Raise ValueError.
Proof.
  intros (f & I & H). unfold list_sort.
  rewrite (mapM_raises sort_key ValueError); [reflexivity | |].
  - intros x e _. apply sort_key_raises.
  - exists f. split; [exact I | apply sort_key_undefined; exact H].
Qed.

(** ** init_images *)

Section InitImages.

Context {Image : Type}.
Variable w : World Image.
Variables (folder set_cmd : string).

Lemma init_images_missing_folder (e : exn) (tr : list (event Image)) :
  os_listdir w folder = Raise e ->
  init_images w folder set_cmd tr = (tr, Raise e).
Proof.
  intro L. unfold init_images, pbind, lift. rewrite L. reflexivity.
Qed.

Lemma init_images_key_error (names : list string) (e : exn)
    (tr : list (event Image)) :
  os_listdir w folder = Ok names ->
  list_sort sort_key (filter is_image_name names) = Raise e ->
  init_images w folder set_cmd tr = (tr, Raise e).
Proof.
  intros L S. unfold init_images, pbind, lift. rewrite L, S. reflexivity.
Qed.

Lemma init_images_returned (tr tr' : list (event Image))
    (paths : list string) (files : list Image) :
  init_images w folder set_cmd tr = (tr', Ok (paths, files)) ->
  exists names,
    os_listdir w folder = Ok names /\
    list_sort sort_key (filter is_image_name names) = Ok paths.
Proof.
  unfold init_images, pbind, lift.
  destruct (os_listdir w folder) as [names|e]; [|discriminate].
  destruct (list_sort sort_key (filter is_image_name names)) as [ps|e] eqn:S;
    [|discriminate].
  intro H. exists names. split; [reflexivity|]. rewrite S. f_equal.
  destruct (truthy set_cmd).
  - destruct (getitem ps _) as [m|e]; [|discriminate].
    destruct (update_wallpaper w set_cmd _ tr) as [tr1 [[]|e]]; [|discriminate].
    destruct (mapM _ ps) as [fs|e]; [|discriminate].
    unfold ret in H. congruence.
  - unfold ret in H.
    destruct (mapM _ ps) as [fs|e]; [|discriminate].
    congruence.
Qed.

(** No image name in the listing, and a command to run: the middle of the
    empty list is asked for. *)
Lemma init_images_nothing_selected (names : list string)
    (tr : list (event Image)) :
  os_listdir w folder = Ok names ->
  filter is_image_name names = [] ->
  init_images w folder set_cmd tr
  = if truthy set_cmd then (tr, Raise IndexError) else (tr, Ok ([], [])).
Proof.
  intros L F. unfold init_images, pbind, lift. rewrite L, F.
  destruct (truthy set_cmd); reflexivity.
Qed.

(** The middle index of a list that is not empty is one of its indices. *)
Lemma middle_index (n : Z) :
  1 <= n -> 0 <= int_of_float (inject_Z n / 2) < n.
Proof.
  intro H. unfold int_of_float. cbn [Qnum Qden Qdiv Qmult Qinv inject_Z].
  rewrite Z.mul_1_r. change (Z.pos (1 * 2)) with 2.
  rewrite Z.quot_div_nonneg by lia.
  split; [apply Z.div_pos; lia | apply Z.div_lt; lia].
Qed.

(** When the folder is there, every name kept has a digit, one name at
    least is kept, the command runs and every file opens, [init_images]
    returns the names in order and their images. *)
Lemma init_images_returns (names : list string) (files : list Image)
    (tr : list (event Image)) :
  os_listdir w folder = Ok names ->
  (forall f, In f names -> is_image_name f = true -> has_digit f) ->
  filter is_image_name names <> [] ->
  (forall wallpaper_path, format_split_call w set_cmd wallpaper_path = Ok tt) ->
  mapM (fun f => Image_open w (os_path_join folder f))
       (sorted_by key_value (filter is_image_name names)) = Ok files ->
  exists tr',
    init_images w folder set_cmd tr
    = (tr', Ok (sorted_by key_value (filter is_image_name names), files)).
Proof.
  intros L D NE C O. unfold init_images, pbind, lift.
  rewrite L, list_sort_returns
    by (intros f I; apply filter_In in I; destruct I; apply D; assumption).
  set (paths := sorted_by key_value (filter is_image_name names)) in *.
  destruct (truthy set_cmd).
  - destruct (getitem_inside paths (int_of_float (inject_Z (len paths) / 2)))
      as [middle [G _]].
    { apply middle_index. unfold len.
      assert (P : Permutation (filter is_image_name names) paths)
        by apply sorted_by_permutation.
      apply Permutation_length in P.
      destruct (filter is_image_name names); [congruence|].
      simpl in P. lia. }
    rewrite G. unfold update_wallpaper, pbind, lift, emit.
    rewrite C, O. eexists. reflexivity.
  - unfold ret. rewrite O. eexists. reflexivity.
Qed.

End InitImages.

Lemma has_digit_decidable (f : string) : has_digit f \/ ~ has_digit f.
Proof.
  destruct (re_sub_non_digits f) eqn:E.
  - right. apply re_sub_non_digits_empty. exact E.
  - left.
    assert (N : ~ ~ has_digit f).
    { intro H. apply re_sub_non_digits_empty in H. congruence. }
    unfold has_digit in *. clear E.
    induction f as [|c rest IH].
    + exfalso. apply N. intros (c & [] & _).
    + destruct (is_digit c) eqn:D.
      * exists c. split; [left; reflexivity | exact D].
      * destruct IH as (d & I & Dd).
        -- intro H. apply N. intros (d & [<-|I] & Dd); [congruence|].
           apply H. exists d. split; assumption.
        -- exists d. split; [right; exact I | exact Dd].
Qed.

Lemma is_image_name_occurs (f : string) :
  is_image_name f = true <->
  occurs_in "jpeg" f \/ occurs_in "jpg" f \/ occurs_in "png" f.
Proof.
  unfold is_image_name. rewrite !orb_true_iff, !contains_occurs. tauto.
Qed.

(** C10. init_images keeps the entries whose name has "jpeg", "jpg" or
    "png" somewhere in it, wherever that is: when each of them has a digit,
    one at least is kept, the command runs and the files open, it returns
    these entries and no other; and whenever it returns, what it returns
    are these entries. The key of the sort is defined for the names that
    have a digit and raises ValueError for the others; and once one of the
    entries kept has no digit, init_images raises ValueError. *)
Theorem C10_selection_and_sort_key :
  (forall f,
      is_image_name f = true <->
      occurs_in "jpeg" f \/ occurs_in "jpg" f \/ occurs_in "png" f)
  /\
  (forall (Image : Type) (w : World Image) folder set_cmd tr names files,
      os_listdir w folder = Ok names ->
      (forall f, In f names -> is_image_name f = true -> has_digit f) ->
      filter is_image_name names <> [] ->
      (forall wallpaper_path,
          format_split_call w set_cmd wallpaper_path = Ok tt) ->
      mapM (fun f => Image_open w (os_path_join folder f))
           (sorted_by key_value (filter is_image_name names)) = Ok files ->
      exists tr' paths,
        init_images w folder set_cmd tr = (tr', Ok (paths, files)) /\
        forall f,
          In f paths <->
          In f names /\
          (occurs_in "jpeg" f \/ occurs_in "jpg" f \/ occurs_in "png" f))
  /\
  (forall (Image : Type) (w : World Image) folder set_cmd tr tr' paths files,
      init_images w folder set_cmd tr = (tr', Ok (paths, files)) ->
      exists names,
        os_listdir w folder = Ok names /\
        forall f, In f paths <-> In f names /\ is_image_name f = true)
  /\
  (forall f, (exists k, sort_key f = Ok k) <-> has_digit f)
  /\
  (forall f, ~ has_digit f -> sort_key f = Raise ValueError)
  /\
  (forall (Image : Type) (w : World Image) folder set_cmd tr names f,
      os_listdir w folder = Ok names ->
      In f names -> is_image_name f = true -> ~ has_digit f ->
      init_images w folder set_cmd tr = (tr, Raise ValueError)).
Proof.
  split; [|split; [|split; [|split; [|split]]]].
  - exact is_image_name_occurs.
  - intros Image w folder set_cmd tr names files L D NE C O.
    destruct (init_images_returns w folder set_cmd names files tr L D NE C O)
      as (tr' & E).
    exists tr', (sorted_by key_value (filter is_image_name names)).
    split; [exact E|].
    intro f. rewrite <- is_image_name_occurs, <- filter_In.
    split; apply Permutation_in.
    + apply Permutation_sym, sorted_by_permutation.
    + apply sorted_by_permutation.
  - intros Image w folder set_cmd tr tr' paths files H.
    destruct (init_images_returned w folder set_cmd tr tr' paths files H)
      as (names & L & S).
    exists names. split; [exact L|].
    apply list_sort_returned in S. destruct S as [-> _].
    intro f. rewrite <- filter_In. split; apply Permutation_in.
    + apply Permutation_sym, sorted_by_permutation.
    + apply sorted_by_permutation.
  - intro f. split.
    + intros [k E]. destruct (has_digit_decidable f) as [H|H]; [exact H|].
      rewrite (sort_key_undefined f H) in E. discriminate.
    + apply sort_key_defined.
  - apply sort_key_undefined.
  - intros Image w folder set_cmd tr names f L I S D.
    apply (init_images_key_error w folder set_cmd names ValueError tr L).
    apply list_sort_raises. exists f. split; [|exact D].
    apply filter_In. split; assumption.
Qed.

Lemma no_digit_in_notes : ~ has_digit "notes_on_jpg_files".
Proof.
  apply re_sub_non_digits_empty. reflexivity.
Defined.

Lemma digits_in_stray_listing (f : string) :
  In f stray_listing -> is_image_name f = true -> has_digit f.
Proof.
  intros [<-|[<-|[<-|[]]]] S.
  - exists "1"%char. split; [left; reflexivity | reflexivity].
  - exists "2"%char. split; [|reflexivity].
    do 13 right. left. reflexivity.
  - discriminate.
Defined.

Lemma C10_selection_and_sort_key_witness :
  (os_listdir (listing_world stray_listing) "wallpapers" = Ok stray_listing /\
   (forall f, In f stray_listing -> is_image_name f = true -> has_digit f) /\
   filter is_image_name stray_listing <> [] /\
   (forall wallpaper_path,
       format_split_call (listing_world stray_listing) "feh --bg-scale {}"
         wallpaper_path = Ok tt) /\
   mapM (fun f => Image_open (listing_world stray_listing)
                    (os_path_join "wallpapers" f))
        (sorted_by key_value (filter is_image_name stray_listing))
   = Ok [2; 10] /\
   exists tr' paths,
     init_images (listing_world stray_listing) "wallpapers"
       "feh --bg-scale {}" []
     = (tr', Ok (paths, [2; 10])) /\
     forall f,
       In f paths <->
       In f stray_listing /\
       (occurs_in "jpeg" f \/ occurs_in "jpg" f \/ occurs_in "png" f))
  /\
  (os_listdir (listing_world notes_listing) "wallpapers" = Ok notes_listing /\
   In "notes_on_jpg_files"%string notes_listing /\
   is_image_name "notes_on_jpg_files" = true /\
   ~ has_digit "notes_on_jpg_files" /\
   init_images (listing_world notes_listing) "wallpapers" "feh --bg-scale {}" []
   = ([], Raise ValueError)).
Proof.
  split.
  - assert (L : os_listdir (listing_world stray_listing) "wallpapers"
                = Ok stray_listing) by reflexivity.
    assert (NE : filter is_image_name stray_listing <> [])
      by (vm_compute; discriminate).
    assert (C : forall wallpaper_path,
               format_split_call (listing_world stray_listing)
                 "feh --bg-scale {}" wallpaper_path = Ok tt)
      by reflexivity.
    assert (O : mapM (fun f => Image_open (listing_world stray_listing)
                                 (os_path_join "wallpapers" f))
                     (sorted_by key_value (filter is_image_name stray_listing))
                = Ok [2; 10]) by reflexivity.
    split; [exact L|]. split; [exact digits_in_stray_listing|].
    split; [exact NE|]. split; [exact C|]. split; [exact O|].
    exact (proj1 (proj2 C10_selection_and_sort_key) Z
             (listing_world stray_listing) "wallpapers"%string
             "feh --bg-scale {}"%string [] stray_listing [2; 10]
             L digits_in_stray_listing NE C O).
  - assert (L : os_listdir (listing_world notes_listing) "wallpapers"
                = Ok notes_listing)
      by reflexivity.
    assert (I : In "notes_on_jpg_files"%string notes_listing)
      by (right; left; reflexivity).
    assert (S : is_image_name "notes_on_jpg_files" = true) by reflexivity.
    repeat (split; [assumption || exact no_digit_in_notes|]).
    exact (proj2 (proj2 (proj2 (proj2 (proj2 C10_selection_and_sort_key)))) Z
             (listing_world notes_listing) "wallpapers"%string
             "feh --bg-scale {}"%string [] notes_listing
             "notes_on_jpg_files"%string L I S no_digit_in_notes).
Defined.

(** ** The order init_images puts the files in *)

(** C7, as the spec states it, fails: two names with the same key are not
    flagged. init_images returns them, in the order of the listing, and
    their keys do not ascend strictly. *)
Lemma C7_counterexample :
  sort_key "a1.png" = Ok 1 /\ sort_key "b1.png" = Ok 1 /\
  init_images (listing_world twins_listing) "wallpapers" "feh --bg-scale {}" []
  = ([Called "feh --bg-scale {}" "wallpapers/b1.png"],
     Ok (["a1.png"%string; "b1.png"%string], [1; 1])) /\
  init_images (listing_world twins_listing_reversed) "wallpapers"
    "feh --bg-scale {}" []
  = ([Called "feh --bg-scale {}" "wallpapers/a1.png"],
     Ok (["b1.png"%string; "a1.png"%string], [1; 1])) /\
  ~ (1 < 1).
Proof.
  repeat split; try reflexivity. lia.
Qed.

Lemma sorted_paths_keys (l : list string) :
  mapM sort_key l = Ok (map key_value l) ->
  mapM sort_key (sorted_by key_value l)
  = Ok (map key_value (sorted_by key_value l)).
Proof.
  intro M. apply mapM_returned in M.
  apply mapM_returns. intros f I.
  apply (Permutation_in _ (Permutation_sym (sorted_by_permutation key_value l)))
    in I.
  clear - M I. remember (map key_value l) as ks eqn:E. revert E.
  induction M as [|x k l' ks' Ex M' IH]; intro E; [destruct I|].
  destruct I as [<-|I].
  - rewrite Ex. f_equal. symmetry. apply sort_key_value. exact Ex.
  - apply IH; [exact I|]. cbn [map] in E. congruence.
Qed.

(** C7 (amended). The names init_images returns are the names of the
    listing that it keeps, in ascending order of the integer made of the
    digits of the name (numeric, so that 9 comes before 10); names of equal
    key are not flagged, they stay in the order of the listing; when no two
    of the names share a key the order is strictly ascending and does not
    depend on the order of the listing. *)
Theorem C7_init_images_order {Image : Type} (w : World Image)
    (folder set_cmd : string) (tr tr' : list (event Image))
    (paths : list string) (files : list Image) :
  init_images w folder set_cmd tr = (tr', Ok (paths, files)) ->
  exists names,
    os_listdir w folder = Ok names /\
    Permutation (filter is_image_name names) paths /\
    mapM sort_key paths = Ok (map key_value paths) /\
    Sorted Z.le (map key_value paths) /\
    (forall k,
        filter (fun f => key_value f =? k) paths
        = filter (fun f => key_value f =? k) (filter is_image_name names)) /\
    (NoDup (map key_value paths) ->
     StronglySorted Z.lt (map key_value paths) /\
     forall (Image' : Type) (w' : World Image') folder' set_cmd' t t'
            names' paths' files',
       os_listdir w' folder' = Ok names' ->
       Permutation names names' ->
       init_images w' folder' set_cmd' t = (t', Ok (paths', files')) ->
       paths' = paths).
Proof.
  intro H.
  destruct (init_images_returned w folder set_cmd tr tr' paths files H)
    as (names & L & S).
  exists names. split; [exact L|].
  apply list_sort_returned in S. destruct S as [-> M].
  split; [apply sorted_by_permutation|].
  split; [apply sorted_paths_keys; exact M|].
  split; [apply sorted_by_sorted|].
  split; [intro k; apply sorted_by_stable|].
  intro N.
  assert (SS : StronglySorted Z.lt
                 (map key_value (sorted_by key_value (filter is_image_name names))))
    by (apply Sorted_le_NoDup_lt; [apply sorted_by_sorted | exact N]).
  split; [exact SS|].
  intros Image' w' folder' set_cmd' t t' names' paths' files' L' P H'.
  destruct (init_images_returned w' folder' set_cmd' t t' paths' files' H')
    as (names'' & L'' & S').
  rewrite L' in L''. injection L'' as <-.
  apply list_sort_returned in S'. destruct S' as [-> _].
  assert (PP : Permutation (sorted_by key_value (filter is_image_name names'))
                           (sorted_by key_value (filter is_image_name names))).
  { eapply perm_trans; [apply Permutation_sym, sorted_by_permutation|].
    eapply perm_trans; [|apply sorted_by_permutation].
    apply Permutation_filter, Permutation_sym. exact P. }
  apply (strictly_sorted_unique key_value); [|exact SS|exact PP].
  apply Sorted_le_NoDup_lt; [apply sorted_by_sorted|].
  eapply Permutation_NoDup; [|exact N].
  apply Permutation_map, Permutation_sym. exact PP.
Qed.

Lemma C7_init_images_order_witness :
  init_images (listing_world mixed_listing) "wallpapers" "feh --bg-scale {}" []
  = ([Called "feh --bg-scale {}" "wallpapers/9.jpg"],
     Ok (["1.jpg"%string; "02.jpeg"%string; "9.jpg"%string; "10.jpg"%string],
         [1; 2; 9; 10]))
  /\
  exists names,
    os_listdir (listing_world mixed_listing) "wallpapers" = Ok names /\
    Permutation (filter is_image_name names)
      ["1.jpg"%string; "02.jpeg"%string; "9.jpg"%string; "10.jpg"%string] /\
    Sorted Z.le
      (map key_value
         ["1.jpg"%string; "02.jpeg"%string; "9.jpg"%string; "10.jpg"%string]).
Proof.
  assert (H : init_images (listing_world mixed_listing) "wallpapers"
                "feh --bg-scale {}" []
              = ([Called "feh --bg-scale {}" "wallpapers/9.jpg"],
                 Ok (["1.jpg"%string; "02.jpeg"%string; "9.jpg"%string;
                      "10.jpg"%string], [1; 2; 9; 10])))
    by reflexivity.
  split; [exact H|].
  destruct (C7_init_images_order _ _ _ _ _ _ _ H)
    as (names & L & P & _ & S & _).
  exists names. repeat split; assumption.
Defined.

(** ** main before the loop *)

Lemma get_current_images_no_images {Image : Type} (now dawn_time : datetime)
    (day_length : Q) (dusk_id : Z) :
  exists e,
    get_current_images now dawn_time day_length (@nil Image) dusk_id = Raise e.
Proof.
  unfold get_current_images.
  destruct (truediv _ day_length) as [p|e]; cbn [bind].
  - exists IndexError.
    replace (Qlt_bool p 1 || Qlt_bool (inject_Z (len (@nil Image) - 1)) p)
      with true; [reflexivity|].
    symmetry. apply orb_true_iff.
    destruct (Qlt_le_dec p 1) as [H|H].
    + left. apply Qlt_bool_true. exact H.
    + right. apply Qlt_bool_true.
      eapply Qlt_le_trans; [|exact H]. reflexivity.
  - exists e. reflexivity.
Qed.

Lemma main_tick_no_images {Image : Type} (w : World Image) (args : Args)
    (tick : nat) (tr : list (event Image)) :
  exists tr' e, main_tick w args [] tick tr = (tr', Raise e).
Proof.
  unfold main_tick, pbind, lift.
  destruct (init_astral w tick (city args)) as [[[dawn dusk] day]|e].
  - cbn [emit].
    destruct (get_current_images_no_images (Image := Image)
                (datetime_now w tick) dawn day (dusk_id args)) as [e E].
    rewrite E. eauto.
  - eauto.
Qed.

Lemma main_unknown_city {Image : Type} (w : World Image) (args : Args)
    (fuel : nat) (tr : list (event Image)) (paths : list string)
    (images : list Image) (e : exn) :
  init_images w (os_path_expanduser w (folder args)) (command args) []
  = (tr, Ok (paths, images)) ->
  astral_sun w 0%nat (city args) = Raise e ->
  main w (S fuel) args = (tr, Raised_in_loop 0 e).
Proof.
  intros I C. unfold main. rewrite I. cbn [main_loop].
  unfold main_tick, pbind, lift, init_astral. rewrite C. reflexivity.
Qed.

(** C9, as the spec states it, fails: with an empty folder and an empty
    command (option -c with an empty string) init_images returns two empty
    lists, main goes into the loop, and the exception comes from the first
    iteration, after the dawn and the dusk were written out. A city that
    is not known is found in the first iteration too, not before the
    loop. *)
Lemma C9_counterexample :
  os_listdir (listing_world []) "wallpapers" = Ok [] /\
  init_images (listing_world []) "wallpapers" "" [] = ([], Ok ([], [])) /\
  main (listing_world []) 1 (default_args "wallpapers" "")
  = ([Stdout_time "Dawn:" (hms 8 0 0); Stdout_time "Dusk:" (hms 18 0 0);
      Stdout_number "Day length (seconds):" (total_seconds (hms 10 0 0))],
     Raised_in_loop 0 IndexError) /\
  main (unknown_city_world mixed_listing) 1
    (default_args "wallpapers" "feh --bg-scale {}")
  = ([Called "feh --bg-scale {}" "wallpapers/9.jpg"],
     Raised_in_loop 0 KeyError).
Proof.
  repeat split.
Qed.

(** C9 (amended). When the folder is missing (its listing raises), main
    raises before the loop. When the folder is there and no name of its
    listing is kept as an image (an empty folder is one such), main raises
    IndexError before the loop if the command is not the empty string (by
    default it is not); with the empty string as command init_images
    returns, and the exception comes from the first iteration of the
    loop. So does the exception of a city that is not known, when
    init_images has returned. *)
Theorem C9_startup_failures {Image : Type} (w : World Image) (args : Args)
    (fuel : nat) :
  (forall e,
      os_listdir w (os_path_expanduser w (folder args)) = Raise e ->
      main w fuel args = ([], Raised_at_startup e))
  /\
  (forall names,
      os_listdir w (os_path_expanduser w (folder args)) = Ok names ->
      filter is_image_name names = [] ->
      (truthy (command args) = true ->
       main w fuel args = ([], Raised_at_startup IndexError)) /\
      (truthy (command args) = false ->
       exists tr e, main w (S fuel) args = (tr, Raised_in_loop 0 e)))
  /\
  (forall tr paths images e,
      init_images w (os_path_expanduser w (folder args)) (command args) []
      = (tr, Ok (paths, images)) ->
      astral_sun w 0%nat (city args) = Raise e ->
      main w (S fuel) args = (tr, Raised_in_loop 0 e)).
Proof.
  split; [|split].
  - intros e L. unfold main.
    rewrite (init_images_missing_folder w _ _ e [] L). reflexivity.
  - intros names L F. split; intro T; unfold main;
      rewrite (init_images_nothing_selected w _ _ names [] L F), T.
    + reflexivity.
    + cbn [main_loop].
      destruct (main_tick_no_images w args 0%nat []) as (tr & e & E).
      rewrite E. eauto.
  - intros tr paths images e I C.
    exact (main_unknown_city w args fuel tr paths images e I C).
Qed.

Lemma C9_startup_failures_witness :
  os_listdir (listing_world no_image_listing)
    (os_path_expanduser (listing_world no_image_listing)
       (folder (default_args "wallpapers" "feh --bg-scale {}")))
  = Ok no_image_listing /\
  filter is_image_name no_image_listing = [] /\
  truthy (command (default_args "wallpapers" "feh --bg-scale {}")) = true /\
  main (listing_world no_image_listing) 3
    (default_args "wallpapers" "feh --bg-scale {}")
  = ([], Raised_at_startup IndexError).
Proof.
  assert (L : os_listdir (listing_world no_image_listing)
                (os_path_expanduser (listing_world no_image_listing)
                   (folder (default_args "wallpapers" "feh --bg-scale {}")))
              = Ok no_image_listing) by reflexivity.
  assert (F : filter is_image_name no_image_listing = []) by reflexivity.
  assert (T : truthy (command (default_args "wallpapers" "feh --bg-scale {}"))
              = true) by reflexivity.
  repeat (split; [assumption|]).
  exact (proj1 (proj1 (proj2 (C9_startup_failures
                                (listing_world no_image_listing)
                                (default_args "wallpapers" "feh --bg-scale {}")
                                3))
                  no_image_listing L F) T).
Defined.

(** ** The blend *)

Lemma linear_blend_pixel (imageA imageB : list Q) (fraction : Q) (n : nat)
    (a b : Q) :
  nth_error imageA n = Some a -> nth_error imageB n = Some b ->
  nth_error (linear_blend imageA imageB fraction) n
  = Some (a * (1 - fraction) + b * fraction)%Q.
Proof.
  revert imageB n. induction imageA as [|x A IH]; intros [|y B] [|n];
    simpl; try discriminate.
  - intros [= <-] [= <-]. reflexivity.
  - apply IH.
Qed.

Lemma linear_blend_same (image : list Q) (fraction : Q) :
  Forall2 Qeq (linear_blend image image fraction) image.
Proof.
  induction image as [|x A IH]; [constructor|].
  unfold linear_blend. cbn [combine map fst snd]. constructor; [ring | exact IH].
Qed.

Lemma linear_blend_zero (imageA imageB : list Q) :
  List.length imageA = List.length imageB ->
  Forall2 Qeq (linear_blend imageA imageB 0) imageA.
Proof.
  revert imageB. induction imageA as [|x A IH]; intros [|y B] L;
    try discriminate; [constructor|].
  unfold linear_blend. cbn [combine map fst snd]. constructor.
  - ring.
  - apply IH. simpl in L. congruence.
Qed.

Lemma linear_blend_one (imageA imageB : list Q) :
  List.length imageA = List.length imageB ->
  Forall2 Qeq (linear_blend imageA imageB 1) imageB.
Proof.
  revert imageB. induction imageA as [|x A IH]; intros [|y B] L;
    try discriminate; [constructor|].
  unfold linear_blend. cbn [combine map fst snd]. constructor.
  - ring.
  - apply IH. simpl in L. congruence.
Qed.

Lemma blend_images_saves (w : World (list Q)) (img1 img2 : list Q)
    (amount : Q) (tmp_path : string) (tr : list (event (list Q))) :
  (forall a b f, Image_blend w a b f = Ok (linear_blend a b f)) ->
  (forall img p, Image_save w img p = Ok tt) ->
  blend_images w img1 img2 amount tmp_path tr
  = (tr ++ [Saved tmp_path (linear_blend img1 img2 amount)], Ok tt).
Proof.
  intros B S. unfold blend_images, pbind, lift, emit.
  rewrite B, S. reflexivity.
Qed.

Lemma linear_blend_length (imageA imageB : list Q) (fraction : Q) :
  List.length imageA = List.length imageB ->
  List.length (linear_blend imageA imageB fraction) = List.length imageA.
Proof.
  intro L. unfold linear_blend. rewrite length_map, length_combine. lia.
Qed.

(** C8. With the blend of the image library being the per-pixel linear
    blend output = imageA * (1 - fraction) + imageB * fraction, the image
    blend_images saves at tmp_path for two images A and B of the same size
    has their size and, at every pixel, the value a * (1 - fraction) +
    b * fraction for the values a and b of A and B there. It is image A
    itself when A is blended with A, at any fraction; image A when A and B
    are blended at fraction 0; image B when they are blended at
    fraction 1. *)
Theorem C8_blend_identities (w : World (list Q)) (imageA imageB : list Q)
    (fraction : Q) (tmp_path : string) (tr : list (event (list Q))) :
  (forall a b f, Image_blend w a b f = Ok (linear_blend a b f)) ->
  (forall img p, Image_save w img p = Ok tt) ->
  List.length imageA = List.length imageB ->
  (exists out,
      blend_images w imageA imageB fraction tmp_path tr
      = (tr ++ [Saved tmp_path out], Ok tt) /\
      List.length out = List.length imageA /\
      forall n a b,
        nth_error imageA n = Some a -> nth_error imageB n = Some b ->
        nth_error out n = Some (a * (1 - fraction) + b * fraction)%Q)
  /\
  (exists out,
      blend_images w imageA imageA fraction tmp_path tr
      = (tr ++ [Saved tmp_path out], Ok tt) /\ Forall2 Qeq out imageA)
  /\
  (exists out,
      blend_images w imageA imageB 0 tmp_path tr
      = (tr ++ [Saved tmp_path out], Ok tt) /\ Forall2 Qeq out imageA)
  /\
  (exists out,
      blend_images w imageA imageB 1 tmp_path tr
      = (tr ++ [Saved tmp_path out], Ok tt) /\ Forall2 Qeq out imageB).
Proof.
  intros B S L.
  split; [|split; [|split]]; eexists;
    (split; [apply blend_images_saves; assumption|]).
  - split; [apply linear_blend_length; exact L|].
    intros n a b. apply linear_blend_pixel.
  - apply linear_blend_same.
  - apply linear_blend_zero. exact L.
  - apply linear_blend_one. exact L.
Qed.

Lemma C8_blend_identities_witness :
  (forall a b f, Image_blend blend_world a b f = Ok (linear_blend a b f)) /\
  (forall img p, Image_save blend_world img p = Ok tt) /\
  List.length grey_ramp = List.length grey_ramp_reversed /\
  (exists out,
      blend_images blend_world grey_ramp grey_ramp_reversed (1 # 3)
        "/tmp/wallpaper.png" []
      = ([Saved "/tmp/wallpaper.png" out], Ok tt) /\
      List.length out = List.length grey_ramp /\
      forall n a b,
        nth_error grey_ramp n = Some a ->
        nth_error grey_ramp_reversed n = Some b ->
        nth_error out n = Some (a * (1 - (1 # 3)) + b * (1 # 3))%Q) /\
  (exists out,
      blend_images blend_world grey_ramp grey_ramp (1 # 3) "/tmp/wallpaper.png" []
      = ([Saved "/tmp/wallpaper.png" out], Ok tt) /\
      Forall2 Qeq out grey_ramp) /\
  (exists out,
      blend_images blend_world grey_ramp grey_ramp_reversed 0
        "/tmp/wallpaper.png" []
      = ([Saved "/tmp/wallpaper.png" out], Ok tt) /\
      Forall2 Qeq out grey_ramp) /\
  (exists out,
      blend_images blend_world grey_ramp grey_ramp_reversed 1
        "/tmp/wallpaper.png" []
      = ([Saved "/tmp/wallpaper.png" out], Ok tt) /\
      Forall2 Qeq out grey_ramp_reversed).
Proof.
  assert (B : forall a b f,
             Image_blend blend_world a b f = Ok (linear_blend a b f))
    by reflexivity.
  assert (S : forall img p, Image_save blend_world img p = Ok tt)
    by reflexivity.
  assert (L : List.length grey_ramp = List.length grey_ramp_reversed)
    by reflexivity.
  repeat (split; [assumption|]).
  destruct (C8_blend_identities blend_world grey_ramp grey_ramp_reversed
              (1 # 3) "/tmp/wallpaper.png" [] B S L) as (Blend & Same & _ & _).
  destruct (C8_blend_identities blend_world grey_ramp grey_ramp_reversed
              0 "/tmp/wallpaper.png" [] B S L) as (_ & _ & Zero & _).
  destruct (C8_blend_identities blend_world grey_ramp grey_ramp_reversed
              1 "/tmp/wallpaper.png" [] B S L) as (_ & _ & _ & One).
  split; [exact Blend|]. split; [exact Same|]. split; [exact Zero | exact One].
Defined.

(** * get_current_images on binary64 *)

(** The floor, stated on [Qfloor] itself. *)
Lemma Qfloor_unique (x : Q) (n : Z) :
  (inject_Z n <= x)%Q -> (x < inject_Z (n + 1))%Q -> Qfloor x = n.
Proof. exact (math_floor_unique x n). Qed.

Lemma Qfloor_bounds (x : Q) :
  (inject_Z (Qfloor x) <= x)%Q /\ (x < inject_Z (Qfloor x + 1))%Q.
Proof. exact (math_floor_bounds x). Qed.

Lemma Qfloor_between (x : Q) (lo hi : Z) :
  (inject_Z lo <= x)%Q -> (x < inject_Z hi)%Q -> lo <= Qfloor x < hi.
Proof. exact (math_floor_between x lo hi). Qed.

Module Binary64Facts.

Import PrimFloat FloatOps SpecFloat FloatAxioms.
Import Binary64.
Local Set Warnings "-inexact-float".

(** ** Digits and shifts *)

(** The number of binary digits of a mantissa. *)
Lemma digits2_pos_size (m : positive) : digits2_pos m = Pos.size m.
Proof. induction m; simpl; congruence. Qed.

Lemma digits2_pos_bounds (m : positive) :
  2 ^ (Zpos (digits2_pos m) - 1) <= Zpos m < 2 ^ Zpos (digits2_pos m).
Proof.
  induction m as [m IH|m IH|]; cbn [digits2_pos].
  - rewrite Pos2Z.inj_succ.
    replace (Z.succ (Zpos (digits2_pos m)) - 1) with (Zpos (digits2_pos m) - 1 + 1) by lia.
    rewrite Z.pow_succ_r by lia. 
    destruct (Z.eq_dec (Zpos (digits2_pos m)) 1) as [E|E].
    + rewrite E in *. simpl in *. lia.
    + rewrite Z.pow_add_r by lia. change (2 ^ 1) with 2. lia.
  - rewrite Pos2Z.inj_succ.
    replace (Z.succ (Zpos (digits2_pos m)) - 1) with (Zpos (digits2_pos m) - 1 + 1) by lia.
    rewrite Z.pow_succ_r by lia. 
    destruct (Z.eq_dec (Zpos (digits2_pos m)) 1) as [E|E].
    + rewrite E in *. simpl in *. lia.
    + rewrite Z.pow_add_r by lia. change (2 ^ 1) with 2. lia.
  - simpl. lia.
Qed.

Lemma digits2_pos_unique (m : positive) (d : Z) :
  2 ^ (d - 1) <= Zpos m < 2 ^ d -> Zpos (digits2_pos m) = d.
Proof.
  intros [Hlo Hhi]. pose proof (digits2_pos_bounds m) as [Blo Bhi].
  assert (0 < d).
  { destruct (Z_lt_le_dec 0 d); [assumption|].
    assert (2 ^ d <= 2 ^ 0) by (destruct (Z.eq_dec d 0); [subst; lia|rewrite Z.pow_neg_r by lia; simpl; lia]).
    simpl in *. lia. }
  destruct (Z_lt_le_dec (Zpos (digits2_pos m)) d) as [L|L].
  - assert (2 ^ Zpos (digits2_pos m) <= 2 ^ (d - 1)) by (apply Z.pow_le_mono_r; lia). lia.
  - destruct (Z_lt_le_dec d (Zpos (digits2_pos m))) as [G|G]; [|lia].
    assert (2 ^ d <= 2 ^ (Zpos (digits2_pos m) - 1)) by (apply Z.pow_le_mono_r; lia). lia.
Qed.

Lemma iter_xO_value (m k : positive) :
  Zpos (Pos.iter xO m k) = Zpos m * 2 ^ Zpos k.
Proof.
  induction k as [|k IH] using Pos.peano_ind.
  - simpl. lia.
  - rewrite Pos.iter_succ, Pos2Z.inj_succ, Z.pow_succ_r by lia.
    rewrite Pos2Z.inj_xO, IH. lia.
Qed.

Lemma iter_pos_iter {A : Type} (f : A -> A) (k : positive) (x : A) :
  iter_pos f k x = Pos.iter f x k.
Proof.
  revert x. induction k as [k IH|k IH|]; intro x; simpl.
  - rewrite !IH. rewrite !Pos.iter_swap. reflexivity.
  - rewrite !IH. reflexivity.
  - reflexivity.
Qed.

(** Shifting zeros out loses nothing. *)
Lemma shr_zeros (m k : positive) :
  iter_pos shr_1 k (Build_shr_record (Zpos (Pos.iter xO m k)) false false)
  = Build_shr_record (Zpos m) false false.
Proof.
  rewrite iter_pos_iter.
  induction k as [|k IH] using Pos.peano_ind.
  - reflexivity.
  - rewrite Pos.iter_succ_r. rewrite Pos.iter_succ.
    cbn [shr_1 orb]. exact IH.
Qed.

Lemma canonical_iff (m : positive) (e : Z) :
  canonical_mantissa prec emax m e = true <->
  fexp prec emax (Zpos (digits2_pos m) + e) = e.
Proof. unfold canonical_mantissa. apply Z.eqb_eq. Qed.

(** A canonical mantissa is left as it is. *)
Lemma binary_round_aux_canonical (s : bool) (m : positive) (e : Z) :
  canonical_mantissa prec emax m e = true -> e <= emax - prec ->
  binary_round_aux prec emax s (Zpos m) e loc_Exact = S754_finite s m e.
Proof.
  intros C B. apply canonical_iff in C.
  unfold binary_round_aux, shr_fexp. cbn [Zdigits2 shr_record_of_loc].
  rewrite C, Z.sub_diag. cbn [shr shr_m loc_of_shr_record round_nearest_even Zdigits2].
  rewrite C, Z.sub_diag. cbn [shr shr_m].
  apply Z.leb_le in B. rewrite B. reflexivity.
Qed.

(** A canonical mantissa followed by zeros is found again. *)
Lemma binary_round_aux_zeros (s : bool) (m k : positive) (e : Z) :
  canonical_mantissa prec emax m (e + Zpos k) = true -> e + Zpos k <= emax - prec ->
  binary_round_aux prec emax s (Zpos (Pos.iter xO m k)) e loc_Exact
  = S754_finite s m (e + Zpos k).
Proof.
  intros C B. pose proof C as C'. apply canonical_iff in C.
  assert (D : Zpos (digits2_pos (Pos.iter xO m k)) = Zpos (digits2_pos m) + Zpos k).
  { apply digits2_pos_unique. rewrite iter_xO_value.
    pose proof (digits2_pos_bounds m) as [Blo Bhi].
    replace (Zpos (digits2_pos m) + Zpos k - 1) with (Zpos (digits2_pos m) - 1 + Zpos k) by lia.
    rewrite !Z.pow_add_r by lia.
    assert (0 < 2 ^ Zpos k) by (apply Z.pow_pos_nonneg; lia). nia. }
  unfold binary_round_aux, shr_fexp. cbn [Zdigits2 shr_record_of_loc].
  rewrite D. replace (Zpos (digits2_pos m) + Zpos k + e) with (Zpos (digits2_pos m) + (e + Zpos k)) by lia.
  rewrite C. replace (e + Zpos k - e) with (Zpos k) by lia.
  cbn [shr]. rewrite shr_zeros.
  cbn [shr_m loc_of_shr_record round_nearest_even Zdigits2].
  rewrite C, Z.sub_diag. cbn [shr shr_m].
  apply Z.leb_le in B. rewrite B. reflexivity.
Qed.

Lemma fexp_eq (x : Z) : fexp prec emax x = Z.max (x - 53) (-1074).
Proof. reflexivity. Qed.

Lemma shl_align_same (m : positive) (e : Z) : shl_align m e e = (m, e).
Proof. unfold shl_align. rewrite Z.sub_diag. reflexivity. Qed.

(** Short mantissas are filled up with zeros. *)
Lemma binary_round_left (s : bool) (M : positive) (E : Z) :
  fexp prec emax (Zpos (digits2_pos M) + E) < E ->
  fexp prec emax (Zpos (digits2_pos M) + E) <= emax - prec ->
  exists m,
    binary_round prec emax s M E
    = S754_finite s m (fexp prec emax (Zpos (digits2_pos M) + E)) /\
    Zpos m = Zpos M * 2 ^ (E - fexp prec emax (Zpos (digits2_pos M) + E)) /\
    valid_binary (S754_finite s m (fexp prec emax (Zpos (digits2_pos M) + E))) = true.
Proof.
  intros L B. set (e' := fexp prec emax (Zpos (digits2_pos M) + E)) in *.
  unfold binary_round. fold e'. unfold shl_align.
  destruct (e' - E) as [|d|d] eqn:D; try lia.
  assert (Hd : Zpos d = E - e') by lia.
  exists (Pos.iter xO M d).
  assert (V : Zpos (Pos.iter xO M d) = Zpos M * 2 ^ (E - e'))
    by (rewrite iter_xO_value, Hd; reflexivity).
  assert (Dg : Zpos (digits2_pos (Pos.iter xO M d)) = Zpos (digits2_pos M) + Zpos d).
  { apply digits2_pos_unique. rewrite iter_xO_value.
    pose proof (digits2_pos_bounds M) as [Blo Bhi].
    replace (Zpos (digits2_pos M) + Zpos d - 1) with (Zpos (digits2_pos M) - 1 + Zpos d) by lia.
    rewrite !Z.pow_add_r by lia.
    assert (0 < 2 ^ Zpos d) by (apply Z.pow_pos_nonneg; lia). nia. }
  assert (C : canonical_mantissa prec emax (Pos.iter xO M d) e' = true).
  { apply canonical_iff. rewrite Dg.
    replace (Zpos (digits2_pos M) + Zpos d + e') with (Zpos (digits2_pos M) + E) by lia.
    reflexivity. }
  split; [apply binary_round_aux_canonical; assumption|].
  split; [exact V|].
  cbn [SpecFloat.valid_binary]. unfold bounded. rewrite C. apply Z.leb_le in B. rewrite B. reflexivity.
Qed.

Lemma binary_round_right (s : bool) (m k : positive) (E : Z) :
  canonical_mantissa prec emax m (E + Zpos k) = true -> E + Zpos k <= emax - prec ->
  binary_round prec emax s (Pos.iter xO m k) E = S754_finite s m (E + Zpos k).
Proof.
  intros C B. pose proof C as C'. apply canonical_iff in C.
  assert (D : Zpos (digits2_pos (Pos.iter xO m k)) = Zpos (digits2_pos m) + Zpos k).
  { apply digits2_pos_unique. rewrite iter_xO_value.
    pose proof (digits2_pos_bounds m) as [Blo Bhi].
    replace (Zpos (digits2_pos m) + Zpos k - 1) with (Zpos (digits2_pos m) - 1 + Zpos k) by lia.
    rewrite !Z.pow_add_r by lia.
    assert (0 < 2 ^ Zpos k) by (apply Z.pow_pos_nonneg; lia). nia. }
  unfold binary_round. rewrite D.
  replace (Zpos (digits2_pos m) + Zpos k + E) with (Zpos (digits2_pos m) + (E + Zpos k)) by lia.
  rewrite C. unfold shl_align. replace (E + Zpos k - E) with (Zpos k) by lia.
  apply binary_round_aux_zeros; assumption.
Qed.

Lemma binary_round_same (s : bool) (m : positive) (e : Z) :
  canonical_mantissa prec emax m e = true -> e <= emax - prec ->
  binary_round prec emax s m e = S754_finite s m e.
Proof.
  intros C B. pose proof C as C'. apply canonical_iff in C.
  unfold binary_round. rewrite C, shl_align_same.
  apply binary_round_aux_canonical; assumption.
Qed.

Lemma two_nonzero : ~ (2 == 0)%Q.
Proof. discriminate. Qed.

Lemma Qpow2_pos (e : Z) : (0 < 2 ^ e)%Q.
Proof. apply Qpower_0_lt. reflexivity. Qed.

Lemma Qpow2_inject (n : Z) : 0 <= n -> (inject_Z (2 ^ n) == 2 ^ n)%Q.
Proof. intro H. rewrite Zpower_Qpower by exact H. reflexivity. Qed.

Lemma Qpow2_plus (a b : Z) : (2 ^ (a + b) == 2 ^ a * 2 ^ b)%Q.
Proof. apply Qpower_plus. exact two_nonzero. Qed.

(** The same value with the mantissa shifted. *)
Lemma shift_value (n : Z) (e e' : Z) :
  e' <= e ->
  (inject_Z (n * 2 ^ (e - e')) * 2 ^ e' == inject_Z n * 2 ^ e)%Q.
Proof.
  intro H. rewrite inject_Z_mult, Qpow2_inject by lia.
  replace e with ((e - e') + e') at 2 by lia.
  rewrite Qpow2_plus. ring.
Qed.

Lemma floor_scaled_down (n : Z) (e : Z) :
  e < 0 -> Qfloor (inject_Z n * 2 ^ e) = n / 2 ^ (- e).
Proof.
  intro H.
  assert (P : 0 < 2 ^ (- e)) by (apply Z.pow_pos_nonneg; lia).
  assert (E : (inject_Z n == inject_Z n * 2 ^ e * inject_Z (2 ^ (- e)))%Q).
  { rewrite Qpow2_inject by lia.
    rewrite <- Qmult_assoc, <- Qpow2_plus.
    replace (e + - e) with 0 by lia. change (2 ^ 0)%Q with 1%Q. ring. }
  apply (Qfloor_unique (inject_Z n * 2 ^ e)%Q).
  - apply (Qmult_le_r _ _ (inject_Z (2 ^ (- e)))).
    + change 0%Q with (inject_Z 0). rewrite <- Zlt_Qlt. exact P.
    + rewrite <- E, <- inject_Z_mult, <- Zle_Qle.
      pose proof (Z.mul_div_le n (2 ^ (- e)) P). lia.
  - apply (Qmult_lt_r _ _ (inject_Z (2 ^ (- e)))).
    + change 0%Q with (inject_Z 0). rewrite <- Zlt_Qlt. exact P.
    + rewrite <- E, <- inject_Z_mult, <- Zlt_Qlt.
      pose proof (Z.mul_succ_div_gt n (2 ^ (- e)) P). lia.
Qed.

Lemma floor_scaled_up (n : Z) (e : Z) :
  0 <= e -> Qfloor (inject_Z n * 2 ^ e) = n * 2 ^ e.
Proof.
  intro H.
  assert (E : (inject_Z n * 2 ^ e == inject_Z (n * 2 ^ e))%Q)
    by (rewrite inject_Z_mult, Qpow2_inject by lia; reflexivity).
  rewrite (Qfloor_comp _ _ E). apply Qfloor_Z.
Qed.

(** A valid float that is 1 or more: positive, 53 digits, exponent -52 or more. *)
Lemma valid_at_least_one (s : bool) (m : positive) (e : Z) :
  valid_binary (S754_finite s m e) = true ->
  (1 <= inject_Z (cond_Zopp s (Zpos m)) * 2 ^ e)%Q ->
  s = false /\ Zpos (digits2_pos m) = 53 /\ -52 <= e <= 971.
Proof.
  intros V H. cbn [SpecFloat.valid_binary] in V. unfold bounded in V.
  apply andb_true_iff in V. destruct V as [C B].
  apply canonical_iff in C. apply Z.leb_le in B. change (emax - prec) with 971 in B.
  rewrite fexp_eq in C.
  pose proof (Qpow2_pos e) as P.
  assert (S : s = false).
  { destruct s; [|reflexivity]. exfalso. cbn [cond_Zopp] in H.
    assert (N : (inject_Z (- Zpos m) * 2 ^ e < 0)%Q).
    { setoid_replace (inject_Z (- Zpos m) * 2 ^ e)%Q with (- (inject_Z (Zpos m) * 2 ^ e))%Q
        by (rewrite inject_Z_opp; ring).
      assert (0 < inject_Z (Zpos m) * 2 ^ e)%Q.
      { apply Qmult_lt_0_compat; [|exact P]. change 0%Q with (inject_Z 0). rewrite <- Zlt_Qlt. lia. }
      lra. }
    lra. }
  subst s. cbn [cond_Zopp] in H. split; [reflexivity|].
  pose proof (digits2_pos_bounds m) as [Dlo Dhi].
  assert (Elow : -52 <= e).
  { destruct (Z_lt_le_dec e (-52)) as [L|L]; [|exact L]. exfalso.
    (* the value is below 2^(digits + e) <= 2^(53 + e) or tiny *)
    assert (Hd : Zpos (digits2_pos m) + e <= 0) by lia.
    assert (F : Qfloor (inject_Z (Zpos m) * 2 ^ e) = Zpos m / 2 ^ (- e))
      by (apply floor_scaled_down; lia).
    assert (G : 1 <= Qfloor (inject_Z (Zpos m) * 2 ^ e)).
    { change 1 with (Qfloor 1). apply Qfloor_resp_le. exact H. }
    rewrite F in G.
    assert (Zpos m < 2 ^ (- e)).
    { eapply Z.lt_le_trans; [exact Dhi|]. apply Z.pow_le_mono_r; lia. }
    rewrite Z.div_small in G by lia. lia. }
  split; [lia | split; [exact Elow | exact B]].
Qed.

(** An integer of 53 bits at most, at an exponent of the format, is a float. *)
Lemma binary_normalize_exact (R E : Z) :
  0 < R < 2 ^ 53 -> -1074 <= E <= 971 ->
  exists m e,
    binary_normalize prec emax R E false = S754_finite false m e /\
    valid_binary (S754_finite false m e) = true /\
    (inject_Z (Zpos m) * 2 ^ e == inject_Z R * 2 ^ E)%Q.
Proof.
  intros [Rlo Rhi] [Elo Ehi].
  destruct R as [|M|M]; try lia. cbn [binary_normalize].
  pose proof (digits2_pos_bounds M) as [Dlo Dhi].
  assert (D : Zpos (digits2_pos M) <= 53).
  { destruct (Z_lt_le_dec 53 (Zpos (digits2_pos M))) as [G|G]; [|exact G].
    assert (2 ^ 53 <= 2 ^ (Zpos (digits2_pos M) - 1)) by (apply Z.pow_le_mono_r; lia).
    lia. }
  assert (F : fexp prec emax (Zpos (digits2_pos M) + E) <= E)
    by (rewrite fexp_eq; lia).
  destruct (Z.eq_dec (fexp prec emax (Zpos (digits2_pos M) + E)) E) as [Q|Q].
  - exists M, E.
    assert (C : canonical_mantissa prec emax M E = true) by (apply canonical_iff; exact Q).
    split; [apply binary_round_same; [exact C | exact Ehi]|].
    split; [|reflexivity].
    cbn [SpecFloat.valid_binary]. unfold bounded. rewrite C.
    apply Z.leb_le in Ehi. exact Ehi.
  - destruct (binary_round_left false M E) as (m & B & V & W); [lia | change (emax - prec) with 971; lia |].
    exists m, (fexp prec emax (Zpos (digits2_pos M) + E)).
    split; [exact B|]. split; [exact W|].
    rewrite V. apply shift_value. exact F.
Qed.

Lemma shl_align_value (m : positive) (e ez : Z) :
  ez <= e -> Zpos (fst (shl_align m e ez)) = Zpos m * 2 ^ (e - ez).
Proof.
  intro H. unfold shl_align.
  destruct (ez - e) as [|d|d] eqn:D; try lia.
  - replace (e - ez) with 0 by lia. cbn [fst]. lia.
  - cbn [fst]. rewrite iter_xO_value. f_equal. f_equal. lia.
Qed.

(** The floor of a float that is 1 or more converts to a float of the
    same value. *)
Lemma float_of_floor (m : positive) (e : Z) :
  valid_binary (S754_finite false m e) = true ->
  (1 <= inject_Z (Zpos m) * 2 ^ e)%Q ->
  exists fi my ey,
    float_of_int (Qfloor (inject_Z (Zpos m) * 2 ^ e)) = Ok fi /\
    Prim2SF fi = S754_finite false my ey /\
    -52 <= ey /\
    (inject_Z (Zpos my) * 2 ^ ey
     == inject_Z (Qfloor (inject_Z (Zpos m) * 2 ^ e)))%Q.
Proof.
  intros V H.
  destruct (valid_at_least_one false m e V H) as (_ & D & Elo & Ehi).
  pose proof (digits2_pos_bounds m) as [Dlo Dhi]. rewrite D in Dlo, Dhi.
  assert (G : 1 <= Qfloor (inject_Z (Zpos m) * 2 ^ e)).
  { change 1 with (Qfloor 1). apply Qfloor_resp_le. exact H. }
  unfold float_of_int.
  destruct (Z_lt_le_dec e 0) as [Neg|Pos].
  - rewrite floor_scaled_down in * by exact Neg.
    set (i := Zpos m / 2 ^ (- e)) in *.
    assert (P : 0 < 2 ^ (- e)) by (apply Z.pow_pos_nonneg; lia).
    assert (I : i < 2 ^ 53).
    { apply Z.div_lt_upper_bound; [exact P|]. nia. }
    destruct (binary_normalize_exact i 0) as (my & ey & B & W & Q); [lia | lia |].
    rewrite B. exists (SF2Prim (S754_finite false my ey)), my, ey.
    split; [reflexivity|].
    split; [apply Prim2SF_SF2Prim; exact W|].
    split.
    + assert (Hv : (1 <= inject_Z (cond_Zopp false (Zpos my)) * 2 ^ ey)%Q).
      { cbn [cond_Zopp]. rewrite Q. change (2 ^ 0)%Q with 1%Q. rewrite Qmult_1_r.
        change 1%Q with (inject_Z 1). rewrite <- Zle_Qle. exact G. }
      destruct (valid_at_least_one false my ey W Hv) as (_ & _ & L & _). exact L.
    + rewrite Q. change (2 ^ 0)%Q with 1%Q. ring.
  - rewrite floor_scaled_up in * by exact Pos.
    assert (C : canonical_mantissa prec emax m e = true).
    { cbn [SpecFloat.valid_binary] in V. unfold bounded in V.
      apply andb_true_iff in V. apply V. }
    assert (B : binary_normalize prec emax (Zpos m * 2 ^ e) 0 false
                = S754_finite false m e).
    { destruct (Z.eq_dec e 0) as [->|Ne].
      - replace (Zpos m * 2 ^ 0) with (Zpos m) by lia. cbn [binary_normalize].
        apply binary_round_same; [exact C | change (emax - prec) with 971; lia].
      - destruct e as [|k|k]; try lia.
        rewrite <- iter_xO_value. cbn [binary_normalize].
        apply (binary_round_right false m k 0); [exact C | change (emax - prec) with 971; lia]. }
    rewrite B. exists (SF2Prim (S754_finite false m e)), m, e.
    split; [reflexivity|].
    split; [apply Prim2SF_SF2Prim; exact V|].
    split; [lia|].
    rewrite inject_Z_mult, Qpow2_inject by lia. reflexivity.
Qed.

Lemma SFsub_finite (mx my : positive) (ex ey : Z) :
  SFsub prec emax (S754_finite false mx ex) (S754_finite false my ey)
  = binary_normalize prec emax
      (Zpos mx * 2 ^ (ex - Z.min ex ey) - Zpos my * 2 ^ (ey - Z.min ex ey))
      (Z.min ex ey) false.
Proof.
  cbn [SFsub cond_Zopp].
  rewrite !shl_align_value by lia. reflexivity.
Qed.

(** The difference of a float that is 1 or more and its floor is exact. *)
Lemma float_minus_floor (p : float) (m : positive) (e : Z) :
  Prim2SF p = S754_finite false m e ->
  (1 <= inject_Z (Zpos m) * 2 ^ e)%Q ->
  exists fi q,
    float_of_int (Qfloor (inject_Z (Zpos m) * 2 ^ e)) = Ok fi /\
    float_value (p - fi)%float = Some q /\
    (q == inject_Z (Zpos m) * 2 ^ e
          - inject_Z (Qfloor (inject_Z (Zpos m) * 2 ^ e)))%Q.
Proof.
  intros Hp H.
  assert (V : valid_binary (S754_finite false m e) = true)
    by (rewrite <- Hp; apply Prim2SF_valid).
  destruct (valid_at_least_one false m e V H) as (_ & D & Elo & Ehi).
  destruct (float_of_floor m e V H) as (fi & my & ey & F & Hf & Eylo & Q).
  exists fi.
  set (v := (inject_Z (Zpos m) * 2 ^ e)%Q) in *.
  set (i := Qfloor v) in *.
  assert (Vy : valid_binary (S754_finite false my ey) = true)
    by (rewrite <- Hf; apply Prim2SF_valid).
  assert (Eyhi : ey <= 971).
  { cbn [SpecFloat.valid_binary] in Vy. unfold bounded in Vy.
    apply andb_true_iff in Vy. destruct Vy as [_ B]. apply Z.leb_le in B. exact B. }
  unfold float_value. rewrite sub_spec, Hp, Hf. unfold SF64sub.
  rewrite SFsub_finite.
  set (ez := Z.min e ey).
  set (R := Zpos m * 2 ^ (e - ez) - Zpos my * 2 ^ (ey - ez)).
  assert (RV : (inject_Z R * 2 ^ ez == v - inject_Z i)%Q).
  { unfold R. unfold Z.sub at 1. rewrite inject_Z_plus, inject_Z_opp.
    setoid_replace ((inject_Z (Zpos m * 2 ^ (e - ez)) + - inject_Z (Zpos my * 2 ^ (ey - ez))) * 2 ^ ez)%Q
      with (inject_Z (Zpos m * 2 ^ (e - ez)) * 2 ^ ez - inject_Z (Zpos my * 2 ^ (ey - ez)) * 2 ^ ez)%Q
      by ring.
    rewrite !shift_value by (unfold ez; lia). rewrite Q. reflexivity. }
  assert (Fl : (0 <= v - inject_Z i)%Q /\ (v - inject_Z i < 1)%Q).
  { pose proof (Qfloor_le v). pose proof (Qlt_floor v).
    fold i in H0, H1. rewrite inject_Z_plus in H1. change (inject_Z 1) with 1%Q in H1.
    split; lra. }
  destruct Fl as [F0 F1].
  pose proof (Qpow2_pos ez) as Pz.
  assert (Rbounds : 0 <= R < 2 ^ 53).
  { assert (Ez : -52 <= ez <= 971) by (unfold ez; lia).
    assert (Pn : (0 < 2 ^ (- ez))%Q) by apply Qpow2_pos.
    assert (RQ : (inject_Z R == (v - inject_Z i) * 2 ^ (- ez))%Q).
    { rewrite <- RV, <- Qmult_assoc, <- Qpow2_plus.
      replace (ez + - ez) with 0 by lia. change (2 ^ 0)%Q with 1%Q. ring. }
    split.
    - rewrite Zle_Qle. rewrite RQ. apply Qmult_le_0_compat; [exact F0|].
      apply Qlt_le_weak. exact Pn.
    - rewrite Zlt_Qlt. rewrite RQ.
      apply (Qlt_le_trans _ (1 * 2 ^ (- ez))).
      + apply Qmult_lt_r; assumption.
      + rewrite Qmult_1_l.
        destruct (Z_lt_le_dec 0 ez) as [Gz|Lz].
        * apply (Qle_trans _ 1).
          -- setoid_replace (2 ^ (- ez))%Q with (/ 2 ^ ez)%Q by (apply Qpower_opp).
             apply Qle_shift_inv_r; [exact Pz|]. rewrite Qmult_1_l.
             rewrite <- Qpow2_inject by lia. change 1%Q with (inject_Z 1).
             rewrite <- Zle_Qle. assert (0 < 2 ^ ez) by (apply Z.pow_pos_nonneg; lia). lia.
          -- change 1%Q with (inject_Z 1).
             rewrite <- Zle_Qle. lia.
        * rewrite <- !Qpow2_inject by lia. rewrite <- Zle_Qle.
          apply Z.pow_le_mono_r; lia. }
  destruct (Z.eq_dec R 0) as [R0|Rn].
  - rewrite R0. cbn [binary_normalize sf_value]. eexists. split; [exact F|].
    split; [reflexivity|].
    rewrite <- RV, R0. ring.
  - destruct (binary_normalize_exact R ez) as (mr & er & B & W & Qr);
      [lia | unfold ez; lia |].
    rewrite B. cbn [sf_value cond_Zopp]. eexists. split; [exact F|].
    split; [reflexivity|].
    rewrite Qr. exact RV.
Qed.

(** ** Shifting right and rounding *)

Lemma shr_1_nonneg (m : Z) (r s : bool) :
  0 <= m ->
  shr_1 (Build_shr_record m r s) = Build_shr_record (m / 2) (Z.odd m) (r || s).
Proof.
  intro H. destruct m as [|p|p]; [reflexivity| |lia].
  rewrite <- Z.div2_div.
  destruct p as [p|p|]; reflexivity.
Qed.

Lemma loc_ok_step (m num den : Z) (r s : bool) :
  loc_ok num den r s ->
  loc_ok (Z.b2z (Z.odd m) * den + num) (2 * den) (Z.odd m) (r || s).
Proof.
  intros ((H1 & H2) & Hr & Hs). subst r s.
  unfold loc_ok. destruct (Z.odd m); cbn [Z.b2z].
  - split; [lia|]. split; bool_cases.
  - split; [lia|]. split; bool_cases.
Qed.

Lemma shr_iter_nat (n : nat) (m num den : Z) (r s : bool) :
  0 <= m -> loc_ok num den r s ->
  exists r' s',
    Nat.iter n shr_1 (Build_shr_record m r s)
    = Build_shr_record (m / 2 ^ Z.of_nat n) r' s' /\
    loc_ok ((m mod 2 ^ Z.of_nat n) * den + num) (2 ^ Z.of_nat n * den) r' s'.
Proof.
  intros Hm Hl. induction n as [|n IH].
  - exists r, s. cbn [Nat.iter Z.of_nat]. rewrite Z.pow_0_r, Z.div_1_r, Z.mod_1_r.
    split; [reflexivity|]. replace (0 * den + num) with num by lia.
    replace (1 * den) with den by lia. exact Hl.
  - destruct IH as (r' & s' & E & L).
    rewrite Nat.iter_succ, E.
    assert (P : 0 < 2 ^ Z.of_nat n) by (apply Z.pow_pos_nonneg; lia).
    rewrite shr_1_nonneg by (apply Z.div_pos; lia).
    exists (Z.odd (m / 2 ^ Z.of_nat n)), (r' || s').
    rewrite Nat2Z.inj_succ, Z.pow_succ_r by lia.
    split.
    + rewrite Z.div_div by lia. f_equal. f_equal. lia.
    + apply (loc_ok_step (m / 2 ^ Z.of_nat n)) in L.
      rewrite Z.mul_comm with (n := 2) (m := 2 ^ Z.of_nat n).
      rewrite Z.rem_mul_r by lia.
      rewrite <- Z.bit0_mod, Z.bit0_odd.
      replace ((m mod 2 ^ Z.of_nat n
                + 2 ^ Z.of_nat n * Z.b2z (Z.odd (m / 2 ^ Z.of_nat n))) * den + num)
        with (Z.b2z (Z.odd (m / 2 ^ Z.of_nat n)) * (2 ^ Z.of_nat n * den)
              + (m mod 2 ^ Z.of_nat n * den + num)) by ring.
      replace (2 ^ Z.of_nat n * 2 * den) with (2 * (2 ^ Z.of_nat n * den)) by ring.
      exact L.
Qed.

Lemma shr_general (m num den : Z) (r s : bool) (e k : Z) :
  0 <= m -> loc_ok num den r s -> 0 <= k ->
  exists r' s',
    shr (Build_shr_record m r s) e k
    = (Build_shr_record (m / 2 ^ k) r' s', e + k) /\
    loc_ok ((m mod 2 ^ k) * den + num) (2 ^ k * den) r' s'.
Proof.
  intros Hm Hl Hk. destruct k as [|p|p]; [| |lia].
  - exists r, s. cbn [shr]. rewrite Z.pow_0_r, Z.div_1_r, Z.mod_1_r, Z.add_0_r.
    split; [reflexivity|]. replace (0 * den + num) with num by lia.
    replace (1 * den) with den by lia. exact Hl.
  - destruct (shr_iter_nat (Pos.to_nat p) m num den r s Hm Hl) as (r' & s' & E & L).
    rewrite positive_nat_Z in E, L.
    exists r', s'. cbn [shr]. rewrite iter_pos_iter, Pos2Nat.inj_iter.
    split; [|exact L].
    f_equal. exact E.
Qed.

Lemma round_nearest_even_loc (m num den : Z) (r s : bool) :
  loc_ok num den r s ->
  round_nearest_even m (loc_of_shr_record (Build_shr_record m r s))
  = rne m num den.
Proof.
  intros ((H1 & H2) & Hr & Hs). unfold rne, round_up.
  destruct r, s; cbn [loc_of_shr_record round_nearest_even];
    try rewrite <- Z.negb_odd;
    revert Hr Hs; bool_cases; cbn; try discriminate; intros _ _;
    destruct (Z.odd m); reflexivity.
Qed.

Lemma rne_bounds (m num den : Z) : m <= rne m num den <= m + 1.
Proof. unfold rne. destruct (round_up m num den); lia. Qed.

Lemma Zdigits2_bounds (m : Z) :
  0 < m -> 2 ^ (Zdigits2 m - 1) <= m < 2 ^ Zdigits2 m.
Proof.
  intro H. destruct m as [|p|p]; try lia. cbn [Zdigits2]. apply digits2_pos_bounds.
Qed.

Lemma Zdigits2_unique (m d : Z) :
  2 ^ (d - 1) <= m < 2 ^ d -> 0 < m -> Zdigits2 m = d.
Proof.
  intros B H. destruct m as [|p|p]; try lia. cbn [Zdigits2].
  apply digits2_pos_unique. exact B.
Qed.

Lemma shr_fexp_rounded (s : bool) (n e : Z) :
  canonical_pair n e ->
  (let '(mrs, e') := shr_fexp prec emax n e loc_Exact in
   match shr_m mrs with
   | Z0 => S754_zero s
   | Zpos m => if e' <=? emax - prec then S754_finite s m e' else S754_infinity s
   | Zneg _ => S754_nan
   end) = rounded s n e.
Proof.
  intros ((N0 & N1) & E & C).
  unfold shr_fexp. cbn [shr_record_of_loc]. rewrite fexp_eq.
  destruct (Z.eq_dec n 0) as [->|Nz].
  - cbn [Zdigits2]. replace (Z.max (0 + e - 53) (-1074) - e) with 0 by lia.
    reflexivity.
  - destruct (Z.eq_dec n (2 ^ 53)) as [->|Nm].
    + change (Zdigits2 (2 ^ 53)) with 54.
      replace (Z.max (54 + e - 53) (-1074) - e) with 1 by lia.
      cbn [shr iter_pos]. reflexivity.
    + pose proof (Zdigits2_bounds n ltac:(lia)) as [Dlo Dhi].
      assert (Dle : Zdigits2 n <= 53).
      { destruct (Z_lt_le_dec 53 (Zdigits2 n)) as [G|G]; [|exact G].
        assert (2 ^ 53 <= 2 ^ (Zdigits2 n - 1)) by (apply Z.pow_le_mono_r; lia). lia. }
      assert (Sh : Z.max (Zdigits2 n + e - 53) (-1074) - e = 0).
      { destruct (Z_lt_le_dec n (2 ^ 52)) as [L|G]; [specialize (C L); lia|].
        assert (53 <= Zdigits2 n).
        { destruct (Z_lt_le_dec (Zdigits2 n) 53) as [G'|G']; [|exact G'].
          assert (2 ^ Zdigits2 n <= 2 ^ 52) by (apply Z.pow_le_mono_r; lia). lia. }
        lia. }
      rewrite Sh. cbn [shr shr_m]. destruct n as [|p|p]; try lia.
      unfold rounded. destruct (Z.eqb_spec (Zpos p) (2 ^ 53)); [lia|reflexivity].
Qed.

Lemma binary_round_aux_general (s : bool) (m0 e0 : Z) (l : location)
    (num den : Z) (r0 s0 : bool) :
  0 <= m0 ->
  shr_record_of_loc m0 l = Build_shr_record m0 r0 s0 ->
  loc_ok num den r0 s0 ->
  e0 <= fexp prec emax (Zdigits2 m0 + e0) ->
  canonical_pair
    (rne (m0 / 2 ^ (fexp prec emax (Zdigits2 m0 + e0) - e0))
         ((m0 mod 2 ^ (fexp prec emax (Zdigits2 m0 + e0) - e0)) * den + num)
         (2 ^ (fexp prec emax (Zdigits2 m0 + e0) - e0) * den))
    (fexp prec emax (Zdigits2 m0 + e0)) /\
  binary_round_aux prec emax s m0 e0 l
  = rounded s
      (rne (m0 / 2 ^ (fexp prec emax (Zdigits2 m0 + e0) - e0))
           ((m0 mod 2 ^ (fexp prec emax (Zdigits2 m0 + e0) - e0)) * den + num)
           (2 ^ (fexp prec emax (Zdigits2 m0 + e0) - e0) * den))
      (fexp prec emax (Zdigits2 m0 + e0)).
Proof.
  intros Hm Hrec Hl He.
  set (e1 := fexp prec emax (Zdigits2 m0 + e0)) in *.
  destruct (shr_general m0 num den r0 s0 e0 (e1 - e0) Hm Hl ltac:(lia))
    as (r' & s' & Sh & L').
  set (k := e1 - e0) in *.
  set (n := rne (m0 / 2 ^ k) (m0 mod 2 ^ k * den + num) (2 ^ k * den)).
  assert (P : 0 < 2 ^ k) by (apply Z.pow_pos_nonneg; lia).
  assert (Q0 : 0 <= m0 / 2 ^ k) by (apply Z.div_pos; lia).
  pose proof (rne_bounds (m0 / 2 ^ k) (m0 mod 2 ^ k * den + num) (2 ^ k * den)) as NB.
  fold n in NB.
  assert (E1 : e1 = Z.max (Zdigits2 m0 + e0 - 53) (-1074)) by reflexivity.
  assert (K : k = e1 - e0) by reflexivity.
  assert (CP : canonical_pair n e1).
  { unfold canonical_pair.
    destruct (Z.eq_dec m0 0) as [Z0|Nz].
    - rewrite Z0 in *. cbn [Zdigits2] in *. rewrite Z.div_0_l in * by lia.
      assert (2 ^ 52 > 1) by (vm_compute; reflexivity).
      assert (2 ^ 53 > 1) by (vm_compute; reflexivity). lia.
    - pose proof (Zdigits2_bounds m0 ltac:(lia)) as [Dlo Dhi].
      assert (D0 : 0 < Zdigits2 m0) by (destruct m0; cbn; lia).
      assert (Qhi : m0 / 2 ^ k < 2 ^ 53).
      { apply Z.div_lt_upper_bound; [lia|]. rewrite <- Z.pow_add_r by lia.
        assert (2 ^ Zdigits2 m0 <= 2 ^ (k + 53)) by (apply Z.pow_le_mono_r; lia). lia. }
      split; [lia|]. split; [lia|].
      intro Small.
      destruct (Z_lt_le_dec (-1074) (Zdigits2 m0 + e0 - 53)) as [G|G]; [|lia].
      assert (2 ^ 52 <= m0 / 2 ^ k); [|lia].
      apply Z.div_le_lower_bound; [lia|]. rewrite <- Z.pow_add_r by lia.
      replace (k + 52) with (Zdigits2 m0 - 1) by lia. exact Dlo. }
  split; [exact CP|].
  assert (F1 : shr_fexp prec emax m0 e0 l
               = (Build_shr_record (m0 / 2 ^ k) r' s', e0 + k))
    by (unfold shr_fexp; rewrite Hrec; exact Sh).
  unfold binary_round_aux. rewrite F1. cbn [shr_m].
  rewrite (round_nearest_even_loc _ _ _ _ _ L'). fold n.
  replace (e0 + k) with e1 by lia.
  apply shr_fexp_rounded. exact CP.
Qed.

(** ** Rounding to nearest, ties to even, on the rationals *)

Lemma rne_frac_mono (q n1 d1 n2 d2 : Z) :
  0 < d1 -> 0 < d2 -> n1 * d2 <= n2 * d1 ->
  rne q n1 d1 <= rne q n2 d2.
Proof.
  intros D1 D2 H. unfold rne, round_up.
  destruct (Z.odd q); cbn [andb orb]; rewrite ?andb_true_r, ?andb_false_r, ?orb_false_r;
    repeat match goal with
    | |- context [?a <? ?b] => destruct (Z.ltb_spec a b)
    | |- context [?a =? ?b] => destruct (Z.eqb_spec a b)
    end; cbn [orb]; try lia; nia.
Qed.

Lemma rne_frac_eq (q n1 d1 n2 d2 : Z) :
  0 < d1 -> 0 < d2 -> n1 * d2 = n2 * d1 ->
  rne q n1 d1 = rne q n2 d2.
Proof.
  intros D1 D2 H. apply Z.le_antisymm; apply rne_frac_mono; lia.
Qed.

Lemma rint_bounds (y : Q) : Qfloor y <= rint y <= Qfloor y + 1.
Proof. apply rne_bounds. Qed.

Lemma rint_mono (y1 y2 : Q) : (y1 <= y2)%Q -> rint y1 <= rint y2.
Proof.
  intro H. pose proof (Qfloor_resp_le _ _ H) as F.
  pose proof (rint_bounds y1). pose proof (rint_bounds y2).
  destruct (Z.eq_dec (Qfloor y1) (Qfloor y2)) as [E|N]; [|lia].
  unfold rint. rewrite E. apply rne_frac_mono; [reflexivity | reflexivity |].
  assert (L : (y1 - inject_Z (Qfloor y2) <= y2 - inject_Z (Qfloor y2))%Q) by lra.
  exact L.
Qed.

Lemma rint_comp (y1 y2 : Q) : (y1 == y2)%Q -> rint y1 = rint y2.
Proof.
  intro H. apply Z.le_antisymm; apply rint_mono; rewrite H; apply Qle_refl.
Qed.

Lemma rint_int (z : Z) : rint (inject_Z z) = z.
Proof.
  unfold rint. rewrite Qfloor_Z.
  assert (E : (inject_Z z - inject_Z z == 0)%Q) by ring.
  rewrite (rne_frac_eq z _ _ 0 1).
  - unfold rne, round_up. reflexivity.
  - reflexivity.
  - reflexivity.
  - unfold Qeq in E. simpl in E. simpl. lia.
Qed.

Lemma rint_frac (A B : Z) :
  0 < B -> rint (inject_Z A / inject_Z B) = rne (A / B) (A mod B) B.
Proof.
  intro HB. destruct B as [|b|b]; try lia.
  assert (Y : (inject_Z A / inject_Z (Zpos b) == A # b)%Q).
  { unfold Qeq, Qdiv, Qmult, Qinv. simpl. lia. }
  rewrite (rint_comp _ _ Y). unfold rint.
  change (Qfloor (A # b)) with (A / Zpos b).
  apply rne_frac_eq; [reflexivity | reflexivity |].
  assert (E : ((A # b) - inject_Z (A / Zpos b) == (A mod Zpos b) # b)%Q).
  { pose proof (Z.div_mod A (Zpos b) ltac:(lia)) as DM.
    unfold Qeq, Qminus, Qplus, Qopp, inject_Z. simpl. nia. }
  unfold Qeq in E. simpl in E. exact E.
Qed.

Lemma Qpow2_le (a b : Z) : a <= b -> (2 ^ a <= 2 ^ b)%Q.
Proof.
  intro H. replace b with (a + (b - a)) by lia. rewrite Qpow2_plus.
  rewrite <- (Qmult_1_r (2 ^ a)) at 1.
  apply Qmult_le_l; [apply Qpow2_pos|].
  rewrite <- Qpow2_inject by lia. change 1%Q with (inject_Z 1).
  rewrite <- Zle_Qle. assert (0 < 2 ^ (b - a)) by (apply Z.pow_pos_nonneg; lia). lia.
Qed.

Lemma Qpow2_lt (a b : Z) : a < b -> (2 ^ a < 2 ^ b)%Q.
Proof.
  intro H. replace b with (a + (b - a)) by lia. rewrite Qpow2_plus.
  rewrite <- (Qmult_1_r (2 ^ a)) at 1.
  apply Qmult_lt_l; [apply Qpow2_pos|].
  rewrite <- Qpow2_inject by lia. change 1%Q with (inject_Z 1).
  rewrite <- Zlt_Qlt. apply Z.pow_gt_1; lia.
Qed.

Lemma Qpow2_opp (a : Z) : (2 ^ a * 2 ^ (- a) == 1)%Q.
Proof. rewrite <- Qpow2_plus. replace (a + - a) with 0 by lia. reflexivity. Qed.

Lemma frac_bounds (num den : Z) :
  0 <= num < den ->
  (0 <= inject_Z num / inject_Z den)%Q /\ (inject_Z num / inject_Z den < 1)%Q.
Proof.
  intros [H1 H2]. destruct den as [|d|d]; try lia.
  unfold Qle, Qlt, Qdiv, Qmult, Qinv. simpl. lia.
Qed.

Lemma cexp_rel_digits (m0 e0 num den : Z) (x : Q) :
  0 <= m0 -> 0 <= num < den ->
  e0 <= fexp prec emax (Zdigits2 m0 + e0) ->
  (x == (inject_Z m0 + inject_Z num / inject_Z den) * 2 ^ e0)%Q ->
  cexp_rel x (fexp prec emax (Zdigits2 m0 + e0)).
Proof.
  intros Hm Hf He Hx. rewrite fexp_eq in *.
  destruct (frac_bounds num den Hf) as [F0 F1].
  pose proof (Qpow2_pos e0) as P0.
  assert (Up : forall d, 0 <= d -> m0 < 2 ^ d -> (x < 2 ^ (d + e0))%Q).
  { intros d Hd Hlt. rewrite Hx, Qpow2_plus.
    apply Qmult_lt_r; [exact P0|].
    apply (Qlt_le_trans _ (inject_Z m0 + 1)); [lra|].
    rewrite <- Qpow2_inject by lia. change 1%Q with (inject_Z 1).
    rewrite <- inject_Z_plus, <- Zle_Qle. lia. }
  destruct (Z.eq_dec m0 0) as [Z0|Nz].
  - rewrite Z0 in *. cbn [Zdigits2] in *. left. split; [lia|].
    apply (Qlt_le_trans _ (2 ^ (0 + e0))).
    + apply Up; [lia|]. reflexivity.
    + apply Qpow2_le. lia.
  - pose proof (Zdigits2_bounds m0 ltac:(lia)) as [Dlo Dhi].
    assert (D0 : 0 < Zdigits2 m0) by (destruct m0; cbn; lia).
    destruct (Z_lt_le_dec (-1074) (Zdigits2 m0 + e0 - 53)) as [G|G].
    + right. replace (Z.max (Zdigits2 m0 + e0 - 53) (-1074)) with (Zdigits2 m0 + e0 - 53) by lia.
      split; [lia|]. split.
      * replace (Zdigits2 m0 + e0 - 53 + 52) with ((Zdigits2 m0 - 1) + e0) by lia.
        rewrite Hx, Qpow2_plus. apply Qmult_le_r; [exact P0|].
        apply (Qle_trans _ (inject_Z m0)); [|lra].
        rewrite <- Qpow2_inject by lia. rewrite <- Zle_Qle. exact Dlo.
      * replace (Zdigits2 m0 + e0 - 53 + 53) with (Zdigits2 m0 + e0) by lia.
        apply Up; [lia | exact Dhi].
    + left. split; [lia|].
      apply (Qlt_le_trans _ (2 ^ (Zdigits2 m0 + e0))).
      * apply Up; [lia | exact Dhi].
      * apply Qpow2_le. lia.
Qed.

Lemma shifted_fraction (m0 num den k : Z) :
  0 <= m0 -> 0 <= num < den -> 0 <= k ->
  (m0 * den + num) / (2 ^ k * den) = m0 / 2 ^ k /\
  (m0 * den + num) mod (2 ^ k * den) = (m0 mod 2 ^ k) * den + num.
Proof.
  intros Hm Hf Hk.
  assert (P : 0 < 2 ^ k) by (apply Z.pow_pos_nonneg; lia).
  pose proof (Z.div_mod m0 (2 ^ k) ltac:(lia)) as DM.
  pose proof (Z.mod_pos_bound m0 (2 ^ k) P) as MB.
  assert (E : m0 * den + num
              = 2 ^ k * den * (m0 / 2 ^ k) + ((m0 mod 2 ^ k) * den + num)).
  { rewrite DM at 1. ring. }
  assert (R : 0 <= (m0 mod 2 ^ k) * den + num < 2 ^ k * den) by nia.
  split.
  - symmetry. apply (Z.div_unique_pos _ _ _ _ R E).
  - symmetry. apply (Z.mod_unique_pos _ _ _ _ R E).
Qed.

(** What [binary_round_aux] returns: the nearest mantissa at the exponent of
    the format, ties to even. *)
Lemma round_correct (s : bool) (m0 e0 : Z) (l : location) (num den : Z)
    (r0 s0 : bool) (x : Q) :
  0 <= m0 ->
  shr_record_of_loc m0 l = Build_shr_record m0 r0 s0 ->
  loc_ok num den r0 s0 ->
  e0 <= fexp prec emax (Zdigits2 m0 + e0) ->
  (x == (inject_Z m0 + inject_Z num / inject_Z den) * 2 ^ e0)%Q ->
  exists n e,
    rounds_to x n e /\ binary_round_aux prec emax s m0 e0 l = rounded s n e.
Proof.
  intros Hm Hrec Hl He Hx.
  destruct (binary_round_aux_general s m0 e0 l num den r0 s0 Hm Hrec Hl He)
    as [CP EQ].
  set (e1 := fexp prec emax (Zdigits2 m0 + e0)) in *.
  set (k := e1 - e0) in *.
  assert (K : 0 <= k) by (unfold k; lia).
  assert (Hf : 0 <= num < den) by apply Hl.
  eexists _, e1. split; [|exact EQ].
  split; [exact (cexp_rel_digits m0 e0 num den x Hm Hf He Hx)|].
  split; [|exact CP].
  destruct (shifted_fraction m0 num den k Hm Hf K) as [Dv Md].
  rewrite <- Dv, <- Md, <- rint_frac.
  2:{ assert (0 < 2 ^ k) by (apply Z.pow_pos_nonneg; lia). nia. }
  apply rint_comp.
  assert (P : 0 < 2 ^ k) by (apply Z.pow_pos_nonneg; lia).
  rewrite Hx, <- Qmult_assoc, <- Qpow2_plus.
  replace (e0 + - e1) with (- k) by (unfold k; lia).
  rewrite Qpower_opp, <- Qpow2_inject by lia.
  rewrite inject_Z_plus, !inject_Z_mult.
  field. split.
  - intro Z. change 0%Q with (inject_Z 0) in Z. rewrite inject_Z_injective in Z. lia.
  - intro Z. change 0%Q with (inject_Z 0) in Z. rewrite inject_Z_injective in Z. lia.
Qed.

Lemma cexp_rel_unique (x : Q) (e e' : Z) :
  cexp_rel x e -> cexp_rel x e' -> e = e'.
Proof.
  assert (A : forall a b, -1074 < a -> (2 ^ (a + 52) <= x)%Q ->
                          (x < 2 ^ (b + 53))%Q -> a <= b).
  { intros a b Ha Hlo Hhi. destruct (Z_lt_le_dec b a) as [L|L]; [|lia].
    pose proof (Qpow2_le (b + 53) (a + 52) ltac:(lia)). lra. }
  intros [[-> H1]|(G1 & L1 & U1)] [[-> H2]|(G2 & L2 & U2)]; try reflexivity.
  - specialize (A e' (-1074) G2 L2 H1). lia.
  - specialize (A e (-1074) G1 L1 H2). lia.
  - pose proof (A e e' G1 L1 U2). pose proof (A e' e G2 L2 U1). lia.
Qed.

Lemma cexp_rel_upper (x : Q) (e : Z) : cexp_rel x e -> (x < 2 ^ (e + 53))%Q.
Proof. intros [[-> H]|(_ & _ & H)]; exact H. Qed.

Lemma scaled_le (a b : Q) (e : Z) : (a <= b)%Q -> (a * 2 ^ e <= b * 2 ^ e)%Q.
Proof. intro H. apply Qmult_le_r; [apply Qpow2_pos | exact H]. Qed.

Lemma unscale (x : Q) (e : Z) : (x * 2 ^ (- e) * 2 ^ e == x)%Q.
Proof.
  rewrite <- Qmult_assoc, (Qmult_comm (2 ^ (- e))), Qpow2_opp. ring.
Qed.

(** Rounding is monotone. *)
Lemma rounds_to_mono (x1 x2 : Q) (n1 e1 n2 e2 : Z) :
  rounds_to x1 n1 e1 -> rounds_to x2 n2 e2 -> (x1 <= x2)%Q ->
  (inject_Z n1 * 2 ^ e1 <= inject_Z n2 * 2 ^ e2)%Q.
Proof.
  intros (C1 & N1 & _) (C2 & N2 & _) H.
  destruct (Z.lt_trichotomy e1 e2) as [L|[E|G]].
  - assert (G2 : -1074 < e2) by (destruct C1 as [[-> _]|(? & _)]; lia).
    destruct C2 as [[-> _]|(_ & Lo2 & _)]; [lia|].
    pose proof (cexp_rel_upper x1 e1 C1) as Up1.
    apply (Qle_trans _ (2 ^ (e2 + 52))).
    + apply (Qle_trans _ (2 ^ (e1 + 53))); [|apply Qpow2_le; lia].
      rewrite Qpow2_plus, (Qmult_comm (2 ^ e1)).
      apply scaled_le. rewrite <- Qpow2_inject by lia. rewrite <- Zle_Qle.
      rewrite N1, <- (rint_int (2 ^ 53)). apply rint_mono.
      rewrite Qpow2_inject by lia.
      apply Qlt_le_weak.
      apply (Qmult_lt_r _ _ (2 ^ e1)); [apply Qpow2_pos|].
      rewrite unscale, <- Qpow2_plus. replace (53 + e1) with (e1 + 53) by lia. exact Up1.
    + rewrite Qpow2_plus, (Qmult_comm (2 ^ e2)).
      apply scaled_le. rewrite <- Qpow2_inject by lia. rewrite <- Zle_Qle.
      rewrite N2, <- (rint_int (2 ^ 52)). apply rint_mono.
      rewrite Qpow2_inject by lia.
      apply (Qmult_le_r _ _ (2 ^ e2)); [apply Qpow2_pos|].
      rewrite unscale, <- Qpow2_plus. replace (52 + e2) with (e2 + 52) by lia. exact Lo2.
  - subst e2. apply scaled_le. rewrite <- Zle_Qle, N1, N2.
    apply rint_mono. apply scaled_le. exact H.
  - exfalso.
    assert (G1 : -1074 < e1) by (destruct C2 as [[-> _]|(? & _)]; lia).
    destruct C1 as [[-> _]|(_ & Lo1 & _)]; [lia|].
    pose proof (cexp_rel_upper x2 e2 C2) as Up2.
    pose proof (Qpow2_le (e2 + 53) (e1 + 52) ltac:(lia)). lra.
Qed.

Lemma rounds_to_comp (x x' : Q) (n e : Z) :
  (x == x')%Q -> rounds_to x n e -> rounds_to x' n e.
Proof.
  intros E (C & N & P). split; [|split; [|exact P]].
  - destruct C as [[-> H]|(G & L & U)]; [left|right]; rewrite <- E; auto.
  - rewrite N. apply rint_comp. rewrite E. reflexivity.
Qed.

Lemma rounds_to_unique (x : Q) (n e n' e' : Z) :
  rounds_to x n e -> rounds_to x n' e' -> n = n' /\ e = e'.
Proof.
  intros (C & N & _) (C' & N' & _).
  pose proof (cexp_rel_unique x e e' C C') as <-. split; [congruence|reflexivity].
Qed.

(** A multiple of the unit in the last place is left as it is. *)
Lemma rounds_to_exact (x : Q) (n e a b : Z) :
  rounds_to x n e -> (x == inject_Z a * 2 ^ b)%Q -> e <= b ->
  (inject_Z n * 2 ^ e == x)%Q.
Proof.
  intros (C & N & _) Hx Hb.
  assert (Y : (x * 2 ^ (- e) == inject_Z (a * 2 ^ (b - e)))%Q).
  { rewrite Hx, inject_Z_mult, Qpow2_inject by lia.
    rewrite <- Qmult_assoc, <- Qpow2_plus.
    replace (b + - e) with (b - e) by lia. reflexivity. }
  rewrite N, (rint_comp _ _ Y), rint_int, <- Y. apply unscale.
Qed.

Lemma rounded_valid (s : bool) (n e : Z) :
  canonical_pair n e -> valid_binary (rounded s n e) = true.
Proof.
  intros ((N0 & N1) & E & C). unfold rounded.
  destruct n as [|p|p]; [reflexivity| |reflexivity].
  destruct (Z.eqb_spec (Zpos p) (2 ^ 53)) as [Q|Q].
  - destruct (Z.leb_spec (e + 1) (emax - prec)) as [L|L]; [|reflexivity].
    cbn [SpecFloat.valid_binary]. unfold bounded, canonical_mantissa.
    rewrite fexp_eq. change (Zpos (digits2_pos 4503599627370496)) with 53.
    apply andb_true_iff. split; [apply Z.eqb_eq; lia | apply Z.leb_le; exact L].
  - destruct (Z.leb_spec e (emax - prec)) as [L|L]; [|reflexivity].
    cbn [SpecFloat.valid_binary]. unfold bounded, canonical_mantissa.
    rewrite fexp_eq.
    apply andb_true_iff. split; [|apply Z.leb_le; exact L]. apply Z.eqb_eq.
    pose proof (digits2_pos_bounds p) as [Dlo Dhi].
    assert (Dle : Zpos (digits2_pos p) <= 53).
    { destruct (Z_lt_le_dec 53 (Zpos (digits2_pos p))) as [G|G]; [|exact G].
      assert (2 ^ 53 <= 2 ^ (Zpos (digits2_pos p) - 1)) by (apply Z.pow_le_mono_r; lia). lia. }
    destruct (Z_lt_le_dec (Zpos p) (2 ^ 52)) as [Sm|Bg]; [specialize (C Sm); lia|].
    assert (53 <= Zpos (digits2_pos p)); [|lia].
    destruct (Z_lt_le_dec (Zpos (digits2_pos p)) 53) as [G'|G']; [|exact G'].
    assert (2 ^ Zpos (digits2_pos p) <= 2 ^ 52) by (apply Z.pow_le_mono_r; lia). lia.
Qed.

(** The value of the rounded float, or infinity beyond the largest float. *)
Lemma rounded_spec (s : bool) (n e : Z) :
  canonical_pair n e ->
  ((inject_Z n * 2 ^ e < 2 ^ 1024)%Q /\
   exists q, sf_value (rounded s n e) = Some q /\
             (q == inject_Z (cond_Zopp s n) * 2 ^ e)%Q) \/
  ((2 ^ 1024 <= inject_Z n * 2 ^ e)%Q /\ rounded s n e = S754_infinity s).
Proof.
  intros ((N0 & N1) & E & C). unfold rounded.
  assert (Lt : forall a, a <= 1024 -> (inject_Z n * 2 ^ e < 2 ^ a * 2 ^ e)%Q -> 
                         (inject_Z n * 2 ^ e < 2 ^ 1024)%Q -> True) by (intros; exact I).
  clear Lt.
  destruct n as [|p|p]; [| |lia].
  - left. split.
    + rewrite Qmult_0_l. apply Qpow2_pos.
    + exists 0%Q. split; [reflexivity|]. destruct s; cbn [cond_Zopp Z.opp]; ring.
  - destruct (Z.eqb_spec (Zpos p) (2 ^ 53)) as [Q|Q].
    + destruct (Z.leb_spec (e + 1) (emax - prec)) as [L|L].
      * left. change (emax - prec) with 971 in L. split.
        -- rewrite Q, Qpow2_inject by lia. rewrite <- Qpow2_plus. apply Qpow2_lt. lia.
        -- eexists. split; [reflexivity|]. rewrite Q.
           assert (V : (inject_Z 4503599627370496 * 2 ^ (e + 1)
                        == inject_Z (2 ^ 53) * 2 ^ e)%Q).
           { rewrite Qpow2_plus. change (2 ^ 1)%Q with 2%Q.
             replace (2 ^ 53) with (2 * 4503599627370496) by reflexivity.
             rewrite inject_Z_mult. change (inject_Z 2) with 2%Q. ring. }
           destruct s; cbn [cond_Zopp]; rewrite ?inject_Z_opp; lra.
      * right. change (emax - prec) with 971 in L. split; [|reflexivity].
        rewrite Q, Qpow2_inject by lia.
        rewrite <- Qpow2_plus. apply Qpow2_le. lia.
    + destruct (Z.leb_spec e (emax - prec)) as [L|L].
      * left. change (emax - prec) with 971 in L. split.
        -- apply (Qlt_le_trans _ (2 ^ 53 * 2 ^ e)).
           ++ apply Qmult_lt_r; [apply Qpow2_pos|].
              rewrite <- Qpow2_inject by lia. rewrite <- Zlt_Qlt. lia.
           ++ rewrite <- Qpow2_plus. apply Qpow2_le. lia.
        -- eexists. split; [reflexivity|]. reflexivity.
      * right. change (emax - prec) with 971 in L. split; [|reflexivity].
        destruct (Z_lt_le_dec (Zpos p) (2 ^ 52)) as [Sm|Bg]; [specialize (C Sm); lia|].
        apply (Qle_trans _ (2 ^ 52 * 2 ^ e)).
        -- rewrite <- Qpow2_plus. apply Qpow2_le. lia.
        -- apply Qmult_le_r; [apply Qpow2_pos|].
           rewrite <- Qpow2_inject by lia. rewrite <- Zle_Qle. exact Bg.
Qed.

Lemma loc_ok_exact : loc_ok 0 1 false false.
Proof. repeat split; lia. Qed.

Lemma digits2_pos_shift (M d : positive) :
  Zpos (digits2_pos (Pos.iter xO M d)) = Zpos (digits2_pos M) + Zpos d.
Proof.
  apply digits2_pos_unique. rewrite iter_xO_value.
  pose proof (digits2_pos_bounds M) as [Blo Bhi].
  replace (Zpos (digits2_pos M) + Zpos d - 1) with (Zpos (digits2_pos M) - 1 + Zpos d) by lia.
  rewrite !Z.pow_add_r by lia.
  assert (0 < 2 ^ Zpos d) by (apply Z.pow_pos_nonneg; lia). nia.
Qed.

(** [binary_round] rounds the number [M * 2 ^ E] correctly. *)
Lemma binary_round_correct (s : bool) (M : positive) (E : Z) :
  exists n e,
    rounds_to (inject_Z (Zpos M) * 2 ^ E) n e /\
    binary_round prec emax s M E = rounded s n e.
Proof.
  unfold binary_round, shl_align.
  set (e1 := fexp prec emax (Zpos (digits2_pos M) + E)).
  destruct (e1 - E) as [|d|d] eqn:D.
  - apply (round_correct s (Zpos M) E loc_Exact 0 1 false false);
      [lia | reflexivity | exact loc_ok_exact | cbn [Zdigits2]; fold e1; lia |].
    unfold Qdiv. rewrite Qmult_0_l, Qplus_0_r. reflexivity.
  - apply (round_correct s (Zpos M) E loc_Exact 0 1 false false);
      [lia | reflexivity | exact loc_ok_exact | cbn [Zdigits2]; fold e1; lia |].
    unfold Qdiv. rewrite Qmult_0_l, Qplus_0_r. reflexivity.
  - apply (round_correct s (Zpos (Pos.iter xO M d)) e1 loc_Exact 0 1 false false);
      [lia | reflexivity | exact loc_ok_exact | |].
    + cbn [Zdigits2]. rewrite digits2_pos_shift.
      replace (Zpos (digits2_pos M) + Zpos d + e1) with (Zpos (digits2_pos M) + E) by lia.
      fold e1. lia.
    + unfold Qdiv. rewrite Qmult_0_l, Qplus_0_r.
      rewrite iter_xO_value. replace (Zpos d) with (E - e1) by lia.
      rewrite shift_value by lia. reflexivity.
Qed.

(** ** The operations round correctly *)

Lemma SFadd_positive_correct (mx my : positive) (ex ey : Z) :
  exists n e,
    rounds_to (inject_Z (Zpos mx) * 2 ^ ex + inject_Z (Zpos my) * 2 ^ ey) n e /\
    SFadd prec emax (S754_finite false mx ex) (S754_finite false my ey)
    = rounded false n e.
Proof.
  cbn [SFadd cond_Zopp]. set (ez := Z.min ex ey).
  change (Zpos (fst (shl_align mx ex ez)) + Zpos (fst (shl_align my ey ez)))
    with (Zpos (fst (shl_align mx ex ez) + fst (shl_align my ey ez))).
  cbn [binary_normalize].
  destruct (binary_round_correct false
              (fst (shl_align mx ex ez) + fst (shl_align my ey ez)) ez)
    as (n & e & R & B).
  exists n, e. split; [|exact B].
  eapply rounds_to_comp; [|exact R].
  rewrite Pos2Z.inj_add, !shl_align_value by (unfold ez; lia).
  rewrite inject_Z_plus, Qmult_plus_distr_l, !shift_value by (unfold ez; lia).
  reflexivity.
Qed.

Lemma valid_finite (s : bool) (m : positive) (e : Z) :
  valid_binary (S754_finite s m e) = true ->
  e = Z.max (Zpos (digits2_pos m) + e - 53) (-1074) /\ e <= 971.
Proof.
  cbn [SpecFloat.valid_binary]. unfold bounded, canonical_mantissa.
  rewrite fexp_eq. intro H. apply andb_true_iff in H. destruct H as [C B].
  apply Z.eqb_eq in C. apply Z.leb_le in B. change (emax - prec) with 971 in B. lia.
Qed.

Lemma digits_mul (mx my : positive) :
  Zpos (digits2_pos mx) + Zpos (digits2_pos my) - 1
  <= Zpos (digits2_pos (mx * my)).
Proof.
  pose proof (digits2_pos_bounds mx) as [Xlo Xhi].
  pose proof (digits2_pos_bounds my) as [Ylo Yhi].
  pose proof (digits2_pos_bounds (mx * my)) as [Plo Phi].
  set (dx := Zpos (digits2_pos mx)) in *. set (dy := Zpos (digits2_pos my)) in *.
  set (dp := Zpos (digits2_pos (mx * my))) in *.
  destruct (Z_lt_le_dec dp (dx + dy - 1)) as [L|L]; [|exact L]. exfalso.
  assert (2 ^ dp <= 2 ^ (dx - 1 + (dy - 1))) by (apply Z.pow_le_mono_r; unfold dx, dy in *; lia).
  rewrite Z.pow_add_r in H by (unfold dx, dy; lia).
  rewrite Pos2Z.inj_mul in Phi.
  assert (0 < 2 ^ (dx - 1)) by (apply Z.pow_pos_nonneg; unfold dx; lia).
  assert (0 < 2 ^ (dy - 1)) by (apply Z.pow_pos_nonneg; unfold dy; lia).
  nia.
Qed.

Lemma SFmul_finite_correct (sx sy : bool) (mx my : positive) (ex ey : Z) :
  valid_binary (S754_finite sx mx ex) = true ->
  valid_binary (S754_finite sy my ey) = true ->
  exists n e,
    rounds_to (inject_Z (Zpos mx) * 2 ^ ex * (inject_Z (Zpos my) * 2 ^ ey)) n e /\
    SFmul prec emax (S754_finite sx mx ex) (S754_finite sy my ey)
    = rounded (xorb sx sy) n e.
Proof.
  intros Vx Vy. apply valid_finite in Vx, Vy.
  pose proof (digits_mul mx my) as D.
  cbn [SFmul].
  apply (round_correct (xorb sx sy) (Zpos (mx * my)) (ex + ey) loc_Exact 0 1 false false);
    [lia | reflexivity | exact loc_ok_exact | |].
  - cbn [Zdigits2]. rewrite fexp_eq.
    pose proof (Pos2Z.is_pos (digits2_pos mx)). pose proof (Pos2Z.is_pos (digits2_pos my)).
    lia.
  - unfold Qdiv. rewrite Qmult_0_l, Qplus_0_r, Pos2Z.inj_mul, inject_Z_mult, Qpow2_plus.
    ring.
Qed.

Lemma new_location_ok (q my r : Z) :
  0 <= r < my ->
  exists r0 s0,
    shr_record_of_loc q (new_location my r) = Build_shr_record q r0 s0 /\
    loc_ok r my r0 s0.
Proof.
  intros [R0 R1]. unfold new_location, loc_ok.
  destruct (Z.even my) eqn:Ev.
  - unfold new_location_even. destruct (Z.eqb_spec r 0) as [->|Nz].
    + exists false, false. split; [reflexivity|]. split; [lia|]. split; bool_cases.
    + destruct (Z.compare_spec (2 * r) my) as [E|L|G].
      * exists true, false. split; [reflexivity|]. split; [lia|]. split; bool_cases.
      * exists false, true. split; [reflexivity|]. split; [lia|]. split; bool_cases.
      * exists true, true. split; [reflexivity|]. split; [lia|]. split; bool_cases.
  - assert (Od : my <> 2 * r).
    { intro E. rewrite E, Z.even_mul in Ev. discriminate. }
    unfold new_location_odd. destruct (Z.eqb_spec r 0) as [->|Nz].
    + exists false, false. split; [reflexivity|]. split; [lia|]. split; bool_cases.
    + destruct (Z.compare_spec (2 * r + 1) my) as [E|L|G].
      * exists false, true. split; [reflexivity|]. split; [lia|]. split; bool_cases.
      * exists false, true. split; [reflexivity|]. split; [lia|]. split; bool_cases.
      * exists true, true. split; [reflexivity|]. split; [lia|]. split; bool_cases.
Qed.

Lemma Zdigits2_lower (q t : Z) : 0 <= t -> 2 ^ t <= q -> t + 1 <= Zdigits2 q.
Proof.
  intros Ht H.
  assert (0 < 2 ^ t) by (apply Z.pow_pos_nonneg; lia).
  pose proof (Zdigits2_bounds q ltac:(lia)) as [_ Hi].
  destruct (Z_lt_le_dec (Zdigits2 q) (t + 1)) as [L|L]; [|exact L].
  assert (0 <= Zdigits2 q) by (destruct q; cbn; lia).
  assert (2 ^ Zdigits2 q <= 2 ^ t) by (apply Z.pow_le_mono_r; lia). lia.
Qed.

Lemma SFdiv_finite_correct (sx sy : bool) (mx my : positive) (ex ey : Z) :
  exists n e,
    rounds_to (inject_Z (Zpos mx) * 2 ^ ex / (inject_Z (Zpos my) * 2 ^ ey)) n e /\
    SFdiv prec emax (S754_finite sx mx ex) (S754_finite sy my ey)
    = rounded (xorb sx sy) n e.
Proof.
  cbn [SFdiv]. unfold SFdiv_core_binary. cbn [Zdigits2].
  set (dx := Zpos (digits2_pos mx)). set (dy := Zpos (digits2_pos my)).
  set (e' := Z.min (fexp prec emax (dx + ex - (dy + ey))) (ex - ey)).
  set (sh := ex - ey - e').
  assert (Sh : 0 <= sh) by (unfold sh, e'; lia).
  set (m' := match sh with Zpos _ => Z.shiftl (Zpos mx) sh | Z0 => Zpos mx | Zneg _ => 0 end).
  assert (M' : m' = Zpos mx * 2 ^ sh).
  { unfold m'. destruct sh as [|p|p]; [lia| |lia]. apply Z.shiftl_mul_pow2. lia. }
  pose proof (Z_div_mod m' (Zpos my) ltac:(lia)) as DM.
  destruct (Z.div_eucl m' (Zpos my)) as [q r]. destruct DM as [DM RB].
  assert (P : 0 < 2 ^ sh) by (apply Z.pow_pos_nonneg; lia).
  assert (Q0 : 0 <= q) by nia.
  destruct (new_location_ok q (Zpos my) r RB) as (r0 & s0 & Rec & LO).
  apply (round_correct (xorb sx sy) q e' (new_location (Zpos my) r) r (Zpos my) r0 s0);
    [exact Q0 | exact Rec | exact LO | |].
  - assert (F : fexp prec emax (dx + ex - (dy + ey)) <= fexp prec emax (Zdigits2 q + e')).
    { rewrite !fexp_eq.
      assert (dx + sh - dy <= Zdigits2 q); [|unfold sh in *; lia].
      destruct (Z_lt_le_dec 0 (dx + sh - dy)) as [Pos|Npos].
      - replace (dx + sh - dy) with ((dx + sh - dy - 1) + 1) by lia.
        apply Zdigits2_lower; [lia|].
        pose proof (digits2_pos_bounds mx) as [Xlo _].
        pose proof (digits2_pos_bounds my) as [_ Yhi]. fold dx in Xlo. fold dy in Yhi.
        assert (E2 : 2 ^ (dx + sh - dy - 1) * 2 ^ dy = 2 ^ (dx - 1) * 2 ^ sh).
        { rewrite <- !Z.pow_add_r by (unfold dx, dy in *; lia). f_equal. lia. }
        assert (0 < 2 ^ (dx + sh - dy - 1)) by (apply Z.pow_pos_nonneg; lia).
        assert (0 < 2 ^ (dx - 1)) by (apply Z.pow_pos_nonneg; unfold dx; lia).
        destruct (Z_lt_le_dec q (2 ^ (dx + sh - dy - 1))) as [C|C]; [exfalso|exact C].
        nia.
      - assert (0 <= Zdigits2 q) by (destruct q; cbn; lia). lia. }
    unfold e' at 1. lia.
  - assert (Ny : ~ (inject_Z (Zpos my) == 0)%Q).
    { intro Z. change 0%Q with (inject_Z 0) in Z. rewrite inject_Z_injective in Z. lia. }
    assert (Ne : forall a, ~ (2 ^ a == 0)%Q).
    { intros a Z. pose proof (Qpow2_pos a). lra. }
    assert (X : (inject_Z (Zpos mx) * 2 ^ sh == inject_Z q * inject_Z (Zpos my) + inject_Z r)%Q).
    { rewrite <- Qpow2_inject by lia. rewrite <- !inject_Z_mult, <- inject_Z_plus.
      rewrite <- M', DM. rewrite (Z.mul_comm (Zpos my)). reflexivity. }
    assert (Ee : (2 ^ ex == 2 ^ sh * 2 ^ ey * 2 ^ e')%Q).
    { rewrite <- !Qpow2_plus. replace (sh + ey + e') with ex by (unfold sh; lia). reflexivity. }
    rewrite Ee.
    setoid_replace (inject_Z (Zpos mx) * (2 ^ sh * 2 ^ ey * 2 ^ e') / (inject_Z (Zpos my) * 2 ^ ey))%Q
      with ((inject_Z (Zpos mx) * 2 ^ sh) / inject_Z (Zpos my) * 2 ^ e')%Q
      by (field; repeat split; first [exact Ny | apply Ne]).
    rewrite X. field; repeat split; first [exact Ny | apply Ne].
Qed.

(** ** Signs and order of the results *)

Lemma canonical_pair_nonneg (n e : Z) : canonical_pair n e -> 0 <= n.
Proof. intros ((H & _) & _). exact H. Qed.

Lemma scaled_nonneg (n e : Z) : 0 <= n -> (0 <= inject_Z n * 2 ^ e)%Q.
Proof.
  intro H. apply Qmult_le_0_compat.
  - change 0%Q with (inject_Z 0). rewrite <- Zle_Qle. exact H.
  - apply Qlt_le_weak, Qpow2_pos.
Qed.

Lemma rounded_nonneg (n e : Z) : canonical_pair n e -> nonneg (rounded false n e).
Proof.
  intro C. pose proof (canonical_pair_nonneg n e C) as N. unfold rounded.
  destruct n as [|p|p]; [exact I| |lia].
  destruct (Z.pos p =? 2 ^ 53); [destruct (e + 1 <=? emax - prec)|destruct (e <=? emax - prec)];
    exact I.
Qed.

Lemma rounded_nonpos (n e : Z) : canonical_pair n e -> nonpos (rounded true n e).
Proof.
  intro C. pose proof (canonical_pair_nonneg n e C) as N. unfold rounded.
  destruct n as [|p|p]; [exact I| |lia].
  destruct (Z.pos p =? 2 ^ 53); [destruct (e + 1 <=? emax - prec)|destruct (e <=? emax - prec)];
    exact I.
Qed.

Lemma rounded_le (n1 e1 n2 e2 : Z) :
  canonical_pair n1 e1 -> canonical_pair n2 e2 ->
  (inject_Z n1 * 2 ^ e1 <= inject_Z n2 * 2 ^ e2)%Q ->
  le_nn (rounded false n1 e1) (rounded false n2 e2).
Proof.
  intros C1 C2 H.
  destruct (rounded_spec false n2 e2 C2) as [(L2 & q2 & V2 & E2)|(G2 & I2)];
    [|left; exact I2].
  destruct (rounded_spec false n1 e1 C1) as [(L1 & q1 & V1 & E1)|(G1 & I1)]; [|lra].
  right. exists q1, q2. split; [exact V1|]. split; [exact V2|].
  cbn [cond_Zopp] in E1, E2. rewrite E1, E2. exact H.
Qed.

Lemma zero_le_rounded (s : bool) (n e : Z) :
  canonical_pair n e -> le_nn (S754_zero s) (rounded false n e).
Proof.
  intro C. destruct (rounded_spec false n e C) as [(L & q & V & E)|(G & Inf)];
    [|left; exact Inf].
  right. exists 0%Q, q. split; [reflexivity|]. split; [exact V|].
  rewrite E. apply scaled_nonneg. exact (canonical_pair_nonneg n e C).
Qed.

Lemma le_nn_zero_zero (s s' : bool) : le_nn (S754_zero s) (S754_zero s').
Proof. right. exists 0%Q, 0%Q. repeat split. apply Qle_refl. Qed.

Lemma finite_positive_value (m : positive) (e : Z) :
  (0 < inject_Z (Zpos m) * 2 ^ e)%Q.
Proof.
  apply Qmult_lt_0_compat; [|apply Qpow2_pos].
  change 0%Q with (inject_Z 0). rewrite <- Zlt_Qlt. lia.
Qed.

(** Multiplication by a non-negative float is monotone. *)
Lemma SFmul_nonneg_mono (d a b : spec_float) :
  valid_binary d = true -> valid_binary a = true -> valid_binary b = true ->
  finite_nonneg d -> finite_nonneg a -> finite_nonneg b -> le_nn a b ->
  le_nn (SFmul prec emax d a) (SFmul prec emax d b) /\
  nonneg (SFmul prec emax d a) /\ nonneg (SFmul prec emax d b).
Proof.
  intros Vd Va Vb Fd Fa Fb L.
  destruct d as [sd|sd| |[|] md ed]; try contradiction;
  destruct a as [sa|sa| |[|] ma ea]; try contradiction;
  destruct b as [sb|sb| |[|] mb eb]; try contradiction;
  try (cbn [SFmul]; split; [apply le_nn_zero_zero|split; exact I]).
  - (* a zero, b finite *)
    destruct (SFmul_finite_correct false false md mb ed eb Vd Vb) as (n & e & R & E).
    rewrite E. cbn [SFmul xorb]. destruct R as (_ & _ & C).
    split; [apply zero_le_rounded; exact C|].
    split; [exact I | apply rounded_nonneg; exact C].
  - (* a finite, b zero *)
    exfalso. destruct L as [L|(u & v & U & V & L)]; [discriminate|].
    cbn [sf_value cond_Zopp] in U, V. injection U as <-. injection V as <-.
    pose proof (finite_positive_value ma ea). lra.
  - destruct (SFmul_finite_correct false false md ma ed ea Vd Va) as (n1 & e1 & R1 & E1).
    destruct (SFmul_finite_correct false false md mb ed eb Vd Vb) as (n2 & e2 & R2 & E2).
    rewrite E1, E2. cbn [xorb].
    pose proof R1 as (_ & _ & C1). pose proof R2 as (_ & _ & C2).
    split; [|split; apply rounded_nonneg; assumption].
    apply rounded_le; [exact C1 | exact C2 |].
    apply (rounds_to_mono _ _ _ _ _ _ R1 R2).
    destruct L as [L|(u & v & U & V & L)]; [discriminate|].
    cbn [sf_value cond_Zopp] in U, V. injection U as <-. injection V as <-.
    apply Qmult_le_l; [apply finite_positive_value | exact L].
Qed.

(** Division by a positive float is monotone. *)
Lemma SFdiv_nonneg_mono (a b : spec_float) (my : positive) (ey : Z) :
  nonneg a -> nonneg b -> le_nn a b ->
  le_nn (SFdiv prec emax a (S754_finite false my ey))
        (SFdiv prec emax b (S754_finite false my ey)) /\
  nonneg (SFdiv prec emax a (S754_finite false my ey)) /\
  nonneg (SFdiv prec emax b (S754_finite false my ey)).
Proof.
  intros Fa Fb L.
  pose proof (finite_positive_value my ey) as Py.
  destruct a as [sa|[|]| |[|] ma ea]; try contradiction;
  destruct b as [sb|[|]| |[|] mb eb]; try contradiction;
  try (cbn [SFdiv xorb]; split; [first [apply le_nn_zero_zero | left; reflexivity]|split; exact I]).
  - (* zero, finite *)
    destruct (SFdiv_finite_correct false false mb my eb ey) as (n & e & R & E).
    rewrite E. cbn [SFdiv xorb]. destruct R as (_ & _ & C).
    split; [apply zero_le_rounded; exact C|].
    split; [exact I | apply rounded_nonneg; exact C].
  - exfalso. destruct L as [L|(u & v & U & V & L)]; discriminate.
  - exfalso. destruct L as [L|(u & v & U & V & L)]; discriminate.
  - exfalso. destruct L as [L|(u & v & U & V & L)]; [discriminate|].
    cbn [sf_value cond_Zopp] in U, V. injection U as <-. injection V as <-.
    pose proof (finite_positive_value ma ea). lra.
  - destruct (SFdiv_finite_correct false false ma my ea ey) as (n & e & R & E).
    rewrite E. cbn [SFdiv xorb]. destruct R as (_ & _ & C).
    split; [left; reflexivity|].
    split; [apply rounded_nonneg; exact C | exact I].
  - destruct (SFdiv_finite_correct false false ma my ea ey) as (n1 & e1 & R1 & E1).
    destruct (SFdiv_finite_correct false false mb my eb ey) as (n2 & e2 & R2 & E2).
    rewrite E1, E2. cbn [xorb].
    pose proof R1 as (_ & _ & C1). pose proof R2 as (_ & _ & C2).
    split; [|split; apply rounded_nonneg; assumption].
    apply rounded_le; [exact C1 | exact C2 |].
    apply (rounds_to_mono _ _ _ _ _ _ R1 R2).
    destruct L as [L|(u & v & U & V & L)]; [discriminate|].
    cbn [sf_value cond_Zopp] in U, V. injection U as <-. injection V as <-.
    unfold Qdiv. apply Qmult_le_r; [apply Qinv_lt_0_compat; exact Py | exact L].
Qed.

(** ** The cursor and the conversion of dusk_id *)

Lemma rounds_to_pow2 (k : Z) :
  -1021 <= k -> rounds_to (2 ^ k) (2 ^ 52) (k - 52).
Proof.
  intro H. split; [|split].
  - right. split; [lia|]. replace (k - 52 + 52) with k by lia.
    split; [apply Qle_refl|]. apply Qpow2_lt. lia.
  - rewrite (rint_comp _ (inject_Z (2 ^ 52))); [rewrite rint_int; reflexivity|].
    rewrite <- Qpow2_plus. replace (k + - (k - 52)) with 52 by lia.
    rewrite Qpow2_inject by lia. reflexivity.
  - split; [split; [apply Z.pow_nonneg; lia | apply Z.pow_le_mono_r; lia]|].
    split; [lia|]. intro C. lia.
Qed.

Lemma rounds_to_below_pow2 (x : Q) (n e k : Z) :
  rounds_to x n e -> -1021 <= k -> (x <= 2 ^ k)%Q ->
  (inject_Z n * 2 ^ e <= 2 ^ k)%Q.
Proof.
  intros R K H.
  pose proof (rounds_to_mono _ _ _ _ _ _ R (rounds_to_pow2 k K) H) as M.
  rewrite Qpow2_inject, <- Qpow2_plus in M by lia.
  replace (52 + (k - 52)) with k in M by lia. exact M.
Qed.

Lemma Prim2SF_total_seconds (c : timedelta) :
  Prim2SF (total_seconds c)
  = SFdiv prec emax (sf_of_int c) (sf_of_int 1000000).
Proof.
  unfold total_seconds. apply Prim2SF_SF2Prim.
  destruct c as [|m|m]; [reflexivity| |].
  - cbn [sf_of_int].
    destruct (SFdiv_finite_correct false false m 1000000 0 0) as (n & e & R & E).
    rewrite E. apply rounded_valid. apply R.
  - cbn [sf_of_int].
    destruct (SFdiv_finite_correct true false m 1000000 0 0) as (n & e & R & E).
    rewrite E. apply rounded_valid. apply R.
Qed.

Lemma seconds_value (m : positive) :
  (inject_Z (Zpos m) * 2 ^ 0 / (inject_Z 1000000 * 2 ^ 0)
   == inject_Z (Zpos m) / 1000000)%Q.
Proof. change (2 ^ 0)%Q with 1%Q. change (inject_Z 1000000) with 1000000%Q. field. Qed.

Lemma rounded_finite (s : bool) (n e : Z) :
  canonical_pair n e -> (inject_Z n * 2 ^ e < 2 ^ 1024)%Q ->
  match rounded s n e with
  | S754_zero s' => s' = s
  | S754_finite s' _ _ => s' = s
  | _ => False
  end.
Proof.
  intros C H. destruct (rounded_spec s n e C) as [(_ & q & V & _)|(G & _)]; [|lra].
  pose proof (canonical_pair_nonneg n e C) as N. unfold rounded in *.
  destruct n as [|p|p]; [reflexivity| |lia].
  destruct (Z.pos p =? 2 ^ 53); [destruct (e + 1 <=? emax - prec)|destruct (e <=? emax - prec)];
    first [reflexivity | discriminate].
Qed.

(** The cursor of a time after dawn is a finite float, zero or more. *)
Lemma total_seconds_nonneg (c : timedelta) :
  0 <= c -> timedelta_in_range c ->
  finite_nonneg (Prim2SF (total_seconds c)).
Proof.
  intros H [_ R]. rewrite Prim2SF_total_seconds.
  destruct c as [|m|m]; [exact I| |lia]. cbn [sf_of_int].
  destruct (SFdiv_finite_correct false false m 1000000 0 0) as (n & e & Rd & E).
  rewrite E. cbn [xorb].
  assert (F : (inject_Z n * 2 ^ e < 2 ^ 1024)%Q).
  { apply (Qle_lt_trans _ (2 ^ 67)); [|apply Qpow2_lt; lia].
    apply (rounds_to_below_pow2 _ _ _ _ Rd); [lia|].
    rewrite seconds_value. rewrite <- (Qpow2_inject 67) by lia.
    apply Qle_shift_div_r; [reflexivity|].
    change 1000000%Q with (inject_Z 1000000). rewrite <- inject_Z_mult, <- Zle_Qle.
    change (2 ^ 67) with 147573952589676412928. lia. }
  pose proof (rounded_finite false n e ltac:(apply Rd) F) as Fin.
  destruct (rounded false n e) as [s|s| |s m' e']; try contradiction; subst; exact I.
Qed.

Lemma total_seconds_nonpos (c : timedelta) :
  c <= 0 -> timedelta_in_range c ->
  finite_nonpos (Prim2SF (total_seconds c)).
Proof.
  intros H [R _]. rewrite Prim2SF_total_seconds.
  destruct c as [|m|m]; [exact I|lia|]. cbn [sf_of_int].
  destruct (SFdiv_finite_correct true false m 1000000 0 0) as (n & e & Rd & E).
  rewrite E. cbn [xorb].
  assert (F : (inject_Z n * 2 ^ e < 2 ^ 1024)%Q).
  { apply (Qle_lt_trans _ (2 ^ 67)); [|apply Qpow2_lt; lia].
    apply (rounds_to_below_pow2 _ _ _ _ Rd); [lia|].
    rewrite seconds_value. rewrite <- (Qpow2_inject 67) by lia.
    apply Qle_shift_div_r; [reflexivity|].
    change 1000000%Q with (inject_Z 1000000). rewrite <- inject_Z_mult, <- Zle_Qle.
    change (2 ^ 67) with 147573952589676412928. lia. }
  pose proof (rounded_finite true n e ltac:(apply Rd) F) as Fin.
  destruct (rounded true n e) as [s|s| |s m' e']; try contradiction; subst; exact I.
Qed.

(** The cursor grows with the time. *)
Lemma total_seconds_mono (c1 c2 : timedelta) :
  0 <= c1 <= c2 ->
  le_nn (Prim2SF (total_seconds c1)) (Prim2SF (total_seconds c2)).
Proof.
  intros [H1 H2]. rewrite !Prim2SF_total_seconds.
  destruct c1 as [|m1|m1]; [| |lia]; (destruct c2 as [|m2|m2]; [| |lia]);
    cbn [sf_of_int]; try lia.
  - apply le_nn_zero_zero.
  - destruct (SFdiv_finite_correct false false m2 1000000 0 0) as (n & e & Rd & E).
    rewrite E. cbn [SFdiv xorb]. apply zero_le_rounded. apply Rd.
  - destruct (SFdiv_finite_correct false false m1 1000000 0 0) as (n1 & e1 & R1 & E1).
    destruct (SFdiv_finite_correct false false m2 1000000 0 0) as (n2 & e2 & R2 & E2).
    rewrite E1, E2. cbn [xorb].
    apply rounded_le; [apply R1 | apply R2 |].
    apply (rounds_to_mono _ _ _ _ _ _ R1 R2).
    rewrite !seconds_value. unfold Qdiv.
    apply Qmult_le_r; [reflexivity|]. rewrite <- Zle_Qle. exact H2.
Qed.

Lemma float_of_int_Ok (z : Z) (d : float) :
  float_of_int z = Ok d ->
  d = SF2Prim (binary_normalize prec emax z 0 false) /\
  forall s, binary_normalize prec emax z 0 false <> S754_infinity s.
Proof.
  unfold float_of_int.
  destruct (binary_normalize prec emax z 0 false); intro E;
    try discriminate; inversion E; split; try reflexivity; intros; discriminate.
Qed.

Lemma float_of_int_nonneg (z : Z) (d : float) :
  0 <= z -> float_of_int z = Ok d -> finite_nonneg (Prim2SF d).
Proof.
  intros H E. apply float_of_int_Ok in E. destruct E as [-> NI].
  destruct z as [|m|m]; [exact I| |lia]. cbn [binary_normalize] in *.
  destruct (binary_round_correct false m 0) as (n & e & R & B). rewrite B in *.
  rewrite Prim2SF_SF2Prim by (apply rounded_valid; apply R).
  pose proof (rounded_nonneg n e ltac:(apply R)) as N.
  destruct (rounded false n e) as [s|s| |s m' e']; try contradiction.
  - exact I.
  - exfalso. exact (NI s eq_refl).
  - destruct s; [contradiction|exact I].
Qed.

(** ** The regimes of get_current_images *)

Lemma get_current_images_eq {Image : Type} (now dawn_time : datetime)
    (day_length : float) (images : list Image) (dusk_id : Z) :
  Binary64.get_current_images now dawn_time day_length images dusk_id
  = (image_id <- Binary64.image_id_of now dawn_time day_length dusk_id ;;
     if float_lt_int image_id 1 || float_gt_int image_id (len images - 1) then
       last_image <- getitem images (len images - 1) ;;
       Ok (last_image, last_image, one)
     else
       i <- Binary64.math_floor image_id ;;
       img1 <- getitem images i ;;
       j <- Binary64.math_floor (image_id + one)%float ;;
       img2 <- getitem images j ;;
       i' <- Binary64.math_floor image_id ;;
       fi <- float_of_int i' ;;
       Ok (img1, img2, (image_id - fi)%float))%py.
Proof.
  unfold Binary64.get_current_images, Binary64.image_id_of.
  destruct (float_of_int dusk_id); reflexivity.
Qed.

Lemma image_id_of_Ok (now dawn_time : datetime) (day_length : float)
    (dusk_id : Z) (p : float) :
  Binary64.image_id_of now dawn_time day_length dusk_id = Ok p ->
  exists d, float_of_int dusk_id = Ok d /\
            p = (d * Binary64.total_seconds (now - dawn_time) / day_length)%float.
Proof.
  unfold Binary64.image_id_of, Binary64.truediv.
  destruct (float_of_int dusk_id) as [d|e]; cbn [bind]; [|discriminate].
  destruct (is_zero day_length); [discriminate|].
  intro E. injection E as <-. exists d. split; reflexivity.
Qed.

(** ** The guards and the floor, by the value of the float *)

Lemma float_value_cases (p : float) (v : Q) :
  float_value p = Some v ->
  (exists s, Prim2SF p = S754_zero s /\ v = 0%Q) \/
  (exists s m e, Prim2SF p = S754_finite s m e /\
                 v = (inject_Z (cond_Zopp s (Zpos m)) * 2 ^ e)%Q).
Proof.
  unfold float_value. destruct (Prim2SF p) as [s|s| |s m e]; cbn [sf_value];
    intro E; try discriminate; injection E as <-.
  - left. exists s. split; reflexivity.
  - right. exists s, m, e. split; reflexivity.
Qed.

Lemma float_compare_int_value (p : float) (v : Q) (n : Z) :
  float_value p = Some v ->
  float_compare_int p n = Some (Qcompare v (inject_Z n)).
Proof.
  unfold float_value, float_compare_int.
  destruct (Prim2SF p) as [s|s| |s m e]; cbn [sf_value]; intro E;
    try discriminate; injection E as <-; reflexivity.
Qed.

Lemma float_lt_int_value (p : float) (v : Q) (n : Z) :
  float_value p = Some v ->
  float_lt_int p n = true <-> (v < inject_Z n)%Q.
Proof.
  intro E. unfold float_lt_int. rewrite (float_compare_int_value p v n E).
  rewrite Qlt_alt. destruct (v ?= inject_Z n)%Q; split; congruence.
Qed.

Lemma float_gt_int_value (p : float) (v : Q) (n : Z) :
  float_value p = Some v ->
  float_gt_int p n = true <-> (inject_Z n < v)%Q.
Proof.
  intro E. unfold float_gt_int. rewrite (float_compare_int_value p v n E).
  rewrite Qgt_alt. destruct (v ?= inject_Z n)%Q; split; congruence.
Qed.

Lemma math_floor_value (p : float) (v : Q) :
  float_value p = Some v -> Binary64.math_floor p = Ok (Qfloor v).
Proof.
  unfold float_value, Binary64.math_floor.
  destruct (Prim2SF p) as [s|s| |s m e]; cbn [sf_value]; intro E;
    try discriminate; injection E as <-; reflexivity.
Qed.

Lemma math_floor_Ok (p : float) (i : Z) :
  Binary64.math_floor p = Ok i -> exists v, float_value p = Some v /\ i = Qfloor v.
Proof.
  unfold float_value, Binary64.math_floor.
  destruct (Prim2SF p) as [s|s| |s m e]; cbn [sf_value]; intro E;
    try discriminate; injection E as <-; eexists; split; reflexivity.
Qed.

(** A float that is neither below 1 nor a NaN or an infinity is a positive
    finite float. *)
Lemma at_least_one_finite (p : float) (v : Q) :
  float_value p = Some v -> (1 <= v)%Q ->
  exists m e, Prim2SF p = S754_finite false m e /\
              (v == inject_Z (Zpos m) * 2 ^ e)%Q.
Proof.
  intros E H. destruct (float_value_cases p v E) as [(s & _ & ->)|(s & m & e & P & ->)].
  - lra.
  - destruct s.
    + exfalso. cbn [cond_Zopp] in H.
      pose proof (finite_positive_value m e) as Pos.
      change (- Zpos m) with (Zneg m) in H.
      assert (N : (inject_Z (Zneg m) * 2 ^ e == - (inject_Z (Zpos m) * 2 ^ e))%Q).
      { change (Zneg m) with (- Zpos m). rewrite inject_Z_opp. ring. }
      lra.
    + exists m, e. split; [exact P|reflexivity].
Qed.

Lemma nonpos_below_one (p : float) (n : Z) :
  nonpos (Prim2SF p) -> 1 <= n -> float_lt_int p n = true.
Proof.
  intros N H. unfold float_lt_int, float_compare_int.
  destruct (Prim2SF p) as [s|[|]| |[|] m e]; try contradiction; cbn [sf_value].
  - assert (L : (0 < inject_Z n)%Q).
    { change 0%Q with (inject_Z 0). rewrite <- Zlt_Qlt. lia. }
    assert (C : Qcompare 0 (inject_Z n) = Lt) by (apply -> Qlt_alt; exact L).
    change (match Some (Qcompare 0 (inject_Z n)) with Some Lt => true | _ => false end = true).
    rewrite C. reflexivity.
  - reflexivity.
  - assert (L : (inject_Z (cond_Zopp true (Zpos m)) * 2 ^ e < inject_Z n)%Q).
    { cbn [cond_Zopp]. rewrite inject_Z_opp.
      pose proof (finite_positive_value m e).
      assert ((0 < inject_Z n)%Q).
      { change 0%Q with (inject_Z 0). rewrite <- Zlt_Qlt. lia. }
      lra. }
    assert (C : Qcompare (inject_Z (cond_Zopp true (Zpos m)) * 2 ^ e) (inject_Z n) = Lt)
      by (apply -> Qlt_alt; exact L).
    rewrite C. reflexivity.
Qed.

Lemma Prim2SF_one : Prim2SF one = S754_finite false 4503599627370496 (-52).
Proof. reflexivity. Qed.

Lemma float_value_one : float_value one = Some (inject_Z 4503599627370496 * 2 ^ (-52))%Q.
Proof. reflexivity. Qed.

Lemma one_value : (inject_Z 4503599627370496 * 2 ^ (-52) == 1)%Q.
Proof. reflexivity. Qed.

(** The first regime: out of range. *)
Lemma get_current_images_clamped {Image : Type} (images : list Image)
    (now dawn_time : datetime) (day_length : float) (dusk_id : Z) (p : float) :
  1 <= len images ->
  Binary64.image_id_of now dawn_time day_length dusk_id = Ok p ->
  float_lt_int p 1 || float_gt_int p (len images - 1) = true ->
  Binary64.picks_last_image now dawn_time day_length images dusk_id.
Proof.
  intros N P G.
  destruct (getitem_inside images (len images - 1)) as (a & Ea & _); [lia|].
  exists a. split; [exact Ea|].
  rewrite get_current_images_eq, P. cbn [bind]. rewrite G, Ea. reflexivity.
Qed.

(** The second regime: the position is a finite float from 1 to N-1. *)
Lemma get_current_images_interior {Image : Type} (images : list Image)
    (now dawn_time : datetime) (day_length : float) (dusk_id : Z)
    (p : float) (v : Q) :
  Binary64.image_id_of now dawn_time day_length dusk_id = Ok p ->
  float_value p = Some v ->
  (1 <= v)%Q -> (v <= inject_Z (len images - 1))%Q ->
  exists img1 amount q,
    getitem images (Qfloor v) = Ok img1 /\
    float_value amount = Some q /\
    (q == v - inject_Z (Qfloor v))%Q /\
    Binary64.get_current_images now dawn_time day_length images dusk_id
    = (j <- Binary64.math_floor (p + one)%float ;;
       img2 <- getitem images j ;;
       Ok (img1, img2, amount))%py.
Proof.
  intros P V Lo Hi.
  assert (G1 : float_lt_int p 1 = false).
  { destruct (float_lt_int p 1) eqn:E; [|reflexivity].
    apply (float_lt_int_value p v 1 V) in E. change (inject_Z 1) with 1%Q in E. lra. }
  assert (G2 : float_gt_int p (len images - 1) = false).
  { destruct (float_gt_int p (len images - 1)) eqn:E; [|reflexivity].
    apply (float_gt_int_value p v _ V) in E. lra. }
  destruct (Qfloor_between v 1 (len images)) as [I1 I2].
  { exact Lo. }
  { eapply Qle_lt_trans; [exact Hi|]. rewrite <- Zlt_Qlt. lia. }
  destruct (getitem_inside images (Qfloor v)) as (a & Ea & _); [lia|].
  destruct (at_least_one_finite p v V Lo) as (m & e & Pm & Ev).
  destruct (float_minus_floor p m e Pm) as (fi & q & Fi & Vq & Eq).
  { rewrite <- Ev. exact Lo. }
  assert (Fl : Qfloor (inject_Z (Zpos m) * 2 ^ e) = Qfloor v)
    by (apply Qfloor_comp; symmetry; exact Ev).
  rewrite Fl in Fi, Eq.
  exists a, (p - fi)%float, q.
  split; [exact Ea|]. split; [exact Vq|]. split; [rewrite Eq, <- Ev; reflexivity|].
  rewrite get_current_images_eq, P. cbn [bind]. rewrite G1, G2. cbn [orb].
  rewrite (math_floor_value p v V). cbn [bind]. rewrite Ea. cbn [bind].
  destruct (Binary64.math_floor (p + one)) as [j|ex]; cbn [bind]; [|reflexivity].
  destruct (getitem images j) as [b|ex]; cbn [bind]; [|reflexivity].
  rewrite Fi. reflexivity.
Qed.

Lemma rounds_to_int (z : Z) :
  0 < z < 2 ^ 53 ->
  exists n e, rounds_to (inject_Z z) n e /\ (inject_Z n * 2 ^ e == inject_Z z)%Q.
Proof.
  intros [Z0 Z1]. destruct z as [|m|m]; try lia.
  destruct (binary_round_correct false m 0) as (n & e & R & _).
  assert (X : (inject_Z (Zpos m) * 2 ^ 0 == inject_Z (Zpos m))%Q)
    by (change (2 ^ 0)%Q with 1%Q; ring).
  apply (rounds_to_comp _ _ _ _ X) in R.
  exists n, e. split; [exact R|].
  apply (rounds_to_exact _ n e (Zpos m) 0 R); [symmetry; exact X|].
  destruct R as (C & _ & _).
  destruct C as [[-> _]|(G & L & _)]; [lia|].
  destruct (Z_lt_le_dec 0 e) as [Pos|Npos]; [exfalso|exact Npos].
  assert (B : (inject_Z (Zpos m) < 2 ^ 53)%Q).
  { rewrite <- Qpow2_inject by lia. rewrite <- Zlt_Qlt. exact Z1. }
  pose proof (Qpow2_le 53 (e + 52) ltac:(lia)). lra.
Qed.

(** The float sum [p + 1.0] of a position from 1 to below 2^53 - 1 is one of
    the two integers around the exact sum, or lies between them. *)
Lemma successor_bracket (p : float) (v : Q) :
  float_value p = Some v -> (1 <= v)%Q -> (v < inject_Z (2 ^ 53 - 2))%Q ->
  exists w,
    float_value (p + one)%float = Some w /\
    (inject_Z (Qfloor v + 1) <= w)%Q /\ (w <= inject_Z (Qfloor v + 2))%Q.
Proof.
  intros V Lo Hi.
  destruct (at_least_one_finite p v V Lo) as (m & e & Pm & Ev).
  destruct (SFadd_positive_correct m 4503599627370496 e (-52)) as (n & e' & R & A).
  assert (X : (inject_Z (Zpos m) * 2 ^ e + inject_Z 4503599627370496 * 2 ^ (-52)
               == v + 1)%Q) by (rewrite one_value, Ev; reflexivity).
  apply (rounds_to_comp _ _ _ _ X) in R.
  destruct (Qfloor_between v 1 (2 ^ 53 - 2) Lo Hi) as [I1 I2].
  destruct (Qfloor_bounds v) as [F1 F2].
  destruct (rounds_to_int (Qfloor v + 1) ltac:(lia)) as (n1 & e1 & R1 & X1).
  destruct (rounds_to_int (Qfloor v + 2) ltac:(lia)) as (n2 & e2 & R2 & X2).
  assert (L1 : (inject_Z (Qfloor v + 1) <= v + 1)%Q).
  { rewrite inject_Z_plus. change (inject_Z 1) with 1%Q. lra. }
  assert (L2 : (v + 1 <= inject_Z (Qfloor v + 2))%Q).
  { replace (Qfloor v + 2) with (Qfloor v + 1 + 1) by lia.
    rewrite inject_Z_plus. change (inject_Z 1) with 1%Q. lra. }
  pose proof (rounds_to_mono _ _ _ _ _ _ R1 R L1) as M1.
  pose proof (rounds_to_mono _ _ _ _ _ _ R R2 L2) as M2.
  rewrite X1 in M1. rewrite X2 in M2.
  assert (Fin : (inject_Z n * 2 ^ e' < 2 ^ 1024)%Q).
  { eapply Qle_lt_trans; [exact M2|].
    apply (Qlt_le_trans _ (2 ^ 53)); [|apply Qpow2_le; lia].
    rewrite <- Qpow2_inject by lia. rewrite <- Zlt_Qlt. lia. }
  destruct (rounded_spec false n e' ltac:(apply R)) as [(_ & w & W & Ew)|(G & _)]; [|lra].
  cbn [cond_Zopp] in Ew.
  exists w. split.
  - unfold float_value. rewrite add_spec, Pm, Prim2SF_one. unfold SF64add.
    rewrite A. exact W.
  - rewrite Ew. split; assumption.
Qed.

(** The index of the second image is the one after the first, or the one
    after that when the float sum is rounded up to it. *)
Lemma successor_floor (p : float) (v : Q) :
  float_value p = Some v -> (1 <= v)%Q -> (v < inject_Z (2 ^ 53 - 2))%Q ->
  exists j w,
    Binary64.math_floor (p + one)%float = Ok j /\
    float_value (p + one)%float = Some w /\
    (j = Qfloor v + 1 \/ (j = Qfloor v + 2 /\ (w == inject_Z (Qfloor v + 2))%Q)).
Proof.
  intros V Lo Hi.
  destruct (successor_bracket p v V Lo Hi) as (w & W & B1 & B2).
  exists (Qfloor w), w. split; [apply math_floor_value; exact W|].
  split; [exact W|].
  destruct (Qlt_le_dec w (inject_Z (Qfloor v + 2))) as [L|G].
  - left. apply (Qfloor_unique w (Qfloor v + 1)); [exact B1|].
    replace (Qfloor v + 1 + 1) with (Qfloor v + 2) by lia. exact L.
  - right. assert (E : (w == inject_Z (Qfloor v + 2))%Q) by (apply Qle_antisym; assumption).
    split; [|exact E]. rewrite (Qfloor_comp _ _ E). apply Qfloor_Z.
Qed.

(** ** The position as the time goes *)

Lemma Prim2SF_position (d cursor day_length : float) :
  Prim2SF (d * cursor / day_length)%float
  = SFdiv prec emax (SFmul prec emax (Prim2SF d) (Prim2SF cursor))
      (Prim2SF day_length).
Proof. rewrite div_spec, mul_spec. reflexivity. Qed.

(** The computed position does not decrease with the time. *)
Lemma image_id_of_mono (now1 now2 dawn_time : datetime) (day_length : float)
    (dusk_id : Z) (p1 p2 : float) :
  finite_positive day_length -> 0 <= dusk_id ->
  timedelta_in_range (now1 - dawn_time) ->
  timedelta_in_range (now2 - dawn_time) ->
  dawn_time <= now1 -> now1 <= now2 ->
  Binary64.image_id_of now1 dawn_time day_length dusk_id = Ok p1 ->
  Binary64.image_id_of now2 dawn_time day_length dusk_id = Ok p2 ->
  le_nn (Prim2SF p1) (Prim2SF p2) /\
  nonneg (Prim2SF p1) /\ nonneg (Prim2SF p2).
Proof.
  intros (my & ey & Dy) Dn R1 R2 H0 H12 P1 P2.
  apply image_id_of_Ok in P1, P2.
  destruct P1 as (d & Fd & ->). destruct P2 as (d' & Fd' & ->).
  assert (d' = d) by congruence. subst d'.
  rewrite !Prim2SF_position, Dy.
  destruct (SFmul_nonneg_mono (Prim2SF d)
              (Prim2SF (Binary64.total_seconds (now1 - dawn_time)))
              (Prim2SF (Binary64.total_seconds (now2 - dawn_time))))
    as (L & N1 & N2);
    try apply Prim2SF_valid.
  - exact (float_of_int_nonneg dusk_id d Dn Fd).
  - apply total_seconds_nonneg; [lia | exact R1].
  - apply total_seconds_nonneg; [lia | exact R2].
  - apply total_seconds_mono. lia.
  - apply SFdiv_nonneg_mono; assumption.
Qed.

Lemma SFmul_nonneg_nonpos (d a : spec_float) :
  valid_binary d = true -> valid_binary a = true ->
  finite_nonneg d -> finite_nonpos a -> nonpos (SFmul prec emax d a).
Proof.
  intros Vd Va Fd Fa.
  destruct d as [sd|sd| |[|] md ed]; try contradiction;
  destruct a as [sa|sa| |[|] ma ea]; try contradiction; try exact I.
  destruct (SFmul_finite_correct false true md ma ed ea Vd Va) as (n & e & R & E).
  rewrite E. cbn [xorb]. apply rounded_nonpos. apply R.
Qed.

Lemma SFdiv_nonpos (a : spec_float) (my : positive) (ey : Z) :
  nonpos a -> nonpos (SFdiv prec emax a (S754_finite false my ey)).
Proof.
  intro Fa. destruct a as [sa|[|]| |[|] ma ea]; try contradiction; try exact I.
  destruct (SFdiv_finite_correct true false ma my ea ey) as (n & e & R & E).
  rewrite E. cbn [xorb]. apply rounded_nonpos. apply R.
Qed.

(** At dawn and before it the computed position is zero or negative. *)
Lemma image_id_of_nonpos_before_dawn (now dawn_time : datetime) (day_length : float)
    (dusk_id : Z) (p : float) :
  finite_positive day_length -> 0 <= dusk_id ->
  timedelta_in_range (now - dawn_time) -> now <= dawn_time ->
  Binary64.image_id_of now dawn_time day_length dusk_id = Ok p ->
  nonpos (Prim2SF p).
Proof.
  intros (my & ey & Dy) Dn R H P.
  apply image_id_of_Ok in P. destruct P as (d & Fd & ->).
  rewrite Prim2SF_position, Dy. apply SFdiv_nonpos.
  apply SFmul_nonneg_nonpos; try apply Prim2SF_valid.
  - exact (float_of_int_nonneg dusk_id d Dn Fd).
  - apply total_seconds_nonpos; [lia | exact R].
Qed.

(** The float sum [p + 1.0] does not decrease with [p]. *)
Lemma successor_mono (p1 p2 : float) (v1 v2 : Q) (j1 j2 : Z) :
  float_value p1 = Some v1 -> float_value p2 = Some v2 ->
  (1 <= v1)%Q -> (v1 <= v2)%Q ->
  Binary64.math_floor (p1 + one)%float = Ok j1 ->
  Binary64.math_floor (p2 + one)%float = Ok j2 ->
  j1 <= j2.
Proof.
  intros V1 V2 Lo Le F1 F2.
  destruct (at_least_one_finite p1 v1 V1 Lo) as (m1 & e1 & P1 & E1).
  destruct (at_least_one_finite p2 v2 V2 ltac:(lra)) as (m2 & e2 & P2 & E2).
  destruct (SFadd_positive_correct m1 4503599627370496 e1 (-52)) as (n1 & x1 & R1 & A1).
  destruct (SFadd_positive_correct m2 4503599627370496 e2 (-52)) as (n2 & x2 & R2 & A2).
  apply math_floor_Ok in F1, F2.
  destruct F1 as (w1 & W1 & ->). destruct F2 as (w2 & W2 & ->).
  unfold float_value in W1, W2.
  rewrite add_spec, P1, Prim2SF_one in W1. rewrite add_spec, P2, Prim2SF_one in W2.
  unfold SF64add in W1, W2. rewrite A1 in W1. rewrite A2 in W2.
  destruct (rounded_spec false n1 x1 ltac:(apply R1)) as [(_ & q1 & Q1 & Eq1)|(_ & I1)];
    [|rewrite I1 in W1; discriminate].
  destruct (rounded_spec false n2 x2 ltac:(apply R2)) as [(_ & q2 & Q2 & Eq2)|(_ & I2)];
    [|rewrite I2 in W2; discriminate].
  assert (w1 = q1) by congruence. assert (w2 = q2) by congruence. subst w1 w2.
  apply Qfloor_resp_le. rewrite Eq1, Eq2. cbn [cond_Zopp].
  apply (rounds_to_mono _ _ _ _ _ _ R1 R2).
  rewrite one_value, <- E1, <- E2. lra.
Qed.

Lemma successor_nonneg (p : float) (v : Q) (j : Z) :
  float_value p = Some v -> (1 <= v)%Q ->
  Binary64.math_floor (p + one)%float = Ok j -> 0 <= j.
Proof.
  intros V Lo F.
  destruct (at_least_one_finite p v V Lo) as (m & e & P & E).
  destruct (SFadd_positive_correct m 4503599627370496 e (-52)) as (n & x & R & A).
  apply math_floor_Ok in F. destruct F as (w & W & ->).
  unfold float_value in W. rewrite add_spec, P, Prim2SF_one in W.
  unfold SF64add in W. rewrite A in W.
  destruct (rounded_spec false n x ltac:(apply R)) as [(_ & q & Q & Eq)|(_ & I1)];
    [|rewrite I1 in W; discriminate].
  assert (w = q) by congruence. subst w.
  change 0 with (Qfloor 0). apply Qfloor_resp_le. rewrite Eq. cbn [cond_Zopp].
  apply scaled_nonneg. apply (canonical_pair_nonneg n x). apply R.
Qed.

(** ** The indices *)

Lemma indices_clamped {Image : Type} (images : list Image)
    (now dawn_time : datetime) (day_length : float) (dusk_id : Z)
    (p : float) (i j : Z) (a : float) :
  Binary64.image_id_of now dawn_time day_length dusk_id = Ok p ->
  float_lt_int p 1 || float_gt_int p (len images - 1) = true ->
  Binary64.get_current_indices now dawn_time day_length images dusk_id = Ok (i, j, a) ->
  1 <= len images /\ i = len images - 1 /\ j = len images - 1.
Proof.
  intros P G. unfold Binary64.get_current_indices.
  rewrite get_current_images_eq, P. cbn [bind]. rewrite len_positions, G.
  destruct (Z_lt_le_dec (len images) 1) as [Small|Big].
  - pose proof (len_nonneg images).
    rewrite getitem_outside by (rewrite len_positions; lia). discriminate.
  - rewrite getitem_positions_inside by lia. cbn [bind].
    intro E. injection E as <- <- _. lia.
Qed.

Lemma indices_interior {Image : Type} (images : list Image)
    (now dawn_time : datetime) (day_length : float) (dusk_id : Z)
    (p : float) (i j : Z) (a : float) :
  Binary64.image_id_of now dawn_time day_length dusk_id = Ok p ->
  float_lt_int p 1 || float_gt_int p (len images - 1) = false ->
  Binary64.get_current_indices now dawn_time day_length images dusk_id = Ok (i, j, a) ->
  exists v,
    float_value p = Some v /\ (1 <= v)%Q /\ (v <= inject_Z (len images - 1))%Q /\
    i = Qfloor v /\ Binary64.math_floor (p + one)%float = Ok j /\ j < len images.
Proof.
  intros P G. unfold Binary64.get_current_indices.
  rewrite get_current_images_eq, P. cbn [bind]. rewrite len_positions, G.
  apply orb_false_iff in G. destruct G as [G1 G2].
  destruct (Binary64.math_floor p) as [i0|ex] eqn:F; cbn [bind]; [|discriminate].
  apply math_floor_Ok in F. destruct F as (v & V & ->).
  assert (Lo : (1 <= v)%Q).
  { destruct (Qlt_le_dec v 1) as [L|L]; [|exact L].
    apply (float_lt_int_value p v 1 V) in L. congruence. }
  assert (Hi : (v <= inject_Z (len images - 1))%Q).
  { destruct (Qlt_le_dec (inject_Z (len images - 1)) v) as [L|L]; [|exact L].
    apply (float_gt_int_value p v _ V) in L. congruence. }
  destruct (Qfloor_between v 1 (len images)) as [I1 I2].
  { exact Lo. }
  { eapply Qle_lt_trans; [exact Hi|]. rewrite <- Zlt_Qlt. lia. }
  rewrite getitem_positions_inside by lia. cbn [bind].
  destruct (Binary64.math_floor (p + one)) as [j0|ex] eqn:F; cbn [bind]; [|discriminate].
  pose proof (successor_nonneg p v j0 V Lo F) as J0.
  destruct (getitem (positions images) j0) as [j'|ex] eqn:Gj; cbn [bind]; [|discriminate].
  pose proof (getitem_index_range _ _ _ Gj) as Rj. rewrite len_positions in Rj.
  rewrite getitem_positions_inside in Gj by lia. injection Gj as <-.
  destruct (float_of_int (Qfloor v)) as [fi|ex]; cbn [bind]; [|discriminate].
  intro E. injection E as <- <- _.
  exists v. repeat split; try assumption; try reflexivity. lia.
Qed.

Lemma le_nn_above (a b : float) (n : Z) :
  le_nn (Prim2SF a) (Prim2SF b) -> nonneg (Prim2SF a) ->
  float_gt_int a n = true -> float_gt_int b n = true.
Proof.
  intros L N G.
  destruct L as [Inf|(u & v & U & V & L)].
  - unfold float_gt_int, float_compare_int. rewrite Inf. reflexivity.
  - apply (float_gt_int_value a u n U) in G.
    apply (float_gt_int_value b v n V). lra.
Qed.

(** C4 (amended). For a day_length that is a positive finite float, a
    dusk_id that is not negative and two times now1 <= now2 (both within the
    range of a timedelta from dawn): unless the position computed for now1 is
    below 1 while the one computed for now2 is in range, from 1 to N - 1,
    whenever both calls return, the indices returned for now1 are at most the
    ones returned for now2, index by index. *)
Theorem C4_indices_monotone_from_position_one {Image : Type}
    (images : list Image) (dusk_id : Z) (day_length : float)
    (dawn_time now1 now2 : datetime) (p1 p2 : float)
    (i1 j1 i2 j2 : Z) (a1 a2 : float) :
  finite_positive day_length -> 0 <= dusk_id ->
  timedelta_in_range (now1 - dawn_time) ->
  timedelta_in_range (now2 - dawn_time) ->
  now1 <= now2 ->
  Binary64.image_id_of now1 dawn_time day_length dusk_id = Ok p1 ->
  Binary64.image_id_of now2 dawn_time day_length dusk_id = Ok p2 ->
  (float_lt_int p1 1 = true ->
   float_lt_int p2 1 || float_gt_int p2 (len images - 1) = true) ->
  Binary64.get_current_indices now1 dawn_time day_length images dusk_id
  = Ok (i1, j1, a1) ->
  Binary64.get_current_indices now2 dawn_time day_length images dusk_id
  = Ok (i2, j2, a2) ->
  i1 <= i2 /\ j1 <= j2.
Proof.
  intros Dy Dn R1 R2 H12 P1 P2 Hex G1 G2.
  destruct (float_lt_int p1 1) eqn:Lt1.
  - (* both calls pick the last image *)
    destruct (indices_clamped images _ _ _ _ p1 i1 j1 a1 P1) as (_ & -> & ->);
      [rewrite Lt1; reflexivity | exact G1 |].
    destruct (indices_clamped images _ _ _ _ p2 i2 j2 a2 P2) as (_ & -> & ->);
      [exact (Hex eq_refl) | exact G2 |].
    lia.
  - assert (After : dawn_time <= now1).
    { destruct (Z_lt_le_dec now1 dawn_time) as [B|A]; [exfalso|exact A].
      pose proof (image_id_of_nonpos_before_dawn now1 dawn_time day_length dusk_id p1
                    Dy Dn R1 ltac:(lia) P1) as Np.
      rewrite (nonpos_below_one p1 1 Np ltac:(lia)) in Lt1. discriminate. }
    destruct (image_id_of_mono now1 now2 dawn_time day_length dusk_id p1 p2
                Dy Dn R1 R2 After H12 P1 P2) as (Le & N1 & N2).
    destruct (float_gt_int p1 (len images - 1)) eqn:Gt1.
    + destruct (indices_clamped images _ _ _ _ p1 i1 j1 a1 P1) as (_ & -> & ->);
        [rewrite Lt1, Gt1; reflexivity | exact G1 |].
      pose proof (le_nn_above p1 p2 _ Le N1 Gt1) as Gt2.
      destruct (indices_clamped images _ _ _ _ p2 i2 j2 a2 P2) as (_ & -> & ->);
        [rewrite Gt2; apply orb_true_r | exact G2 |].
      lia.
    + destruct (indices_interior images _ _ _ _ p1 i1 j1 a1 P1)
        as (v1 & V1 & Lo1 & Hi1 & -> & F1 & J1);
        [rewrite Lt1, Gt1; reflexivity | exact G1 |].
      destruct (Qfloor_between v1 1 (len images)) as [I1 I2].
      { exact Lo1. }
      { eapply Qle_lt_trans; [exact Hi1|]. rewrite <- Zlt_Qlt. lia. }
      destruct (float_lt_int p2 1 || float_gt_int p2 (len images - 1)) eqn:Gd2.
      * destruct (indices_clamped images _ _ _ _ p2 i2 j2 a2 P2 Gd2 G2)
          as (_ & -> & ->). lia.
      * destruct (indices_interior images _ _ _ _ p2 i2 j2 a2 P2 Gd2 G2)
          as (v2 & V2 & Lo2 & Hi2 & -> & F2 & J2).
        assert (L : (v1 <= v2)%Q).
        { destruct Le as [Inf|(u & v & U & V & L)].
          - unfold float_value in V2. rewrite Inf in V2. discriminate.
          - unfold float_value in V1, V2. congruence. }
        split; [apply Qfloor_resp_le; exact L|].
        exact (successor_mono p1 p2 v1 v2 j1 j2 V1 V2 Lo1 L F1 F2).
Qed.

(** ** The position, the indices and the amount *)

Lemma finite_positive_36000 : finite_positive 36000.
Proof. exists 4947802324992000%positive, (-37). reflexivity. Defined.

(** C1, as the spec states it, fails: one hour after dusk in the scenario of
    the spec (dawn 08:00, day of 36000 s, sixteen images, dusk image 13,
    now 19:00) the computed position is 14.3 (the float
    14.300000000000001), above N - 2 = 14, and the function returns images
    14 and 15 with the amount 0.30000000000000071, not the last image
    twice. *)
Lemma C1_counterexample :
  1 <= len sixteen /\ 0 <= 13 <= len sixteen - 1 /\ finite_positive 36000 /\
  exists p,
    Binary64.image_id_of (hms 19 0 0) (hms 8 0 0) 36000 13 = Ok p /\
    float_gt_int p (len sixteen - 2) = true /\
    getitem sixteen (len sixteen - 1) = Ok 15 /\
    Binary64.get_current_images (hms 19 0 0) (hms 8 0 0) 36000 sixteen 13
    = Ok (14, 15, 0.30000000000000071%float) /\
    Binary64.get_current_images (hms 19 0 0) (hms 8 0 0) 36000 sixteen 13
    <> Ok (15, 15, one).
Proof.
  split; [vm_compute; congruence|].
  split; [split; vm_compute; congruence|].
  split; [exact finite_positive_36000|].
  exists 14.300000000000001%float.
  repeat split; try (vm_compute; congruence).
Qed.

(** C1 (amended). For a sequence of N >= 1 images and any dusk_id,
    day_length and times for which the position is computed (the float
    [image_id = dusk_id * cursor / day_length] of the source, each operation
    rounded): when that float is below 1 or above N - 1, get_current_images
    returns (images[N-1], images[N-1], 1). *)
Theorem C1_out_of_range_picks_last {Image : Type} (images : list Image)
    (dusk_id : Z) (day_length : float) (now dawn_time : datetime) (p : float) :
  1 <= len images ->
  Binary64.image_id_of now dawn_time day_length dusk_id = Ok p ->
  float_lt_int p 1 = true \/ float_gt_int p (len images - 1) = true ->
  Binary64.picks_last_image now dawn_time day_length images dusk_id.
Proof.
  intros N P G. apply (get_current_images_clamped images _ _ _ _ p N P).
  apply orb_true_iff. exact G.
Qed.

Lemma C1_out_of_range_picks_last_witness :
  1 <= len sixteen /\
  Binary64.image_id_of (hms 21 0 0) (hms 8 0 0) 36000 13 = Ok 16.899999999999999%float /\
  float_gt_int 16.899999999999999%float (len sixteen - 1) = true /\
  Binary64.picks_last_image (hms 21 0 0) (hms 8 0 0) 36000 sixteen 13.
Proof.
  assert (N : 1 <= len sixteen) by (vm_compute; congruence).
  assert (P : Binary64.image_id_of (hms 21 0 0) (hms 8 0 0) 36000 13
              = Ok 16.899999999999999%float) by (vm_compute; reflexivity).
  assert (G : float_gt_int 16.899999999999999%float (len sixteen - 1) = true)
    by (vm_compute; reflexivity).
  split; [exact N|]. split; [exact P|]. split; [exact G|].
  exact (C1_out_of_range_picks_last sixteen 13 36000%float (hms 21 0 0)
           (hms 8 0 0) _ N P (or_intror G)).
Defined.




(** C5. Whatever the inputs, the amount get_current_images returns is a
    finite float of a value from 0 to 1; when the computed position is not
    out of range (the branch that blends), the value is below 1. *)
Theorem C5_amount_in_unit_interval {Image : Type} (images : list Image)
    (dusk_id : Z) (day_length : float) (now dawn_time : datetime)
    (img1 img2 : Image) (amount : float) :
  Binary64.get_current_images now dawn_time day_length images dusk_id
  = Ok (img1, img2, amount) ->
  exists q,
    float_value amount = Some q /\ (0 <= q)%Q /\ (q <= 1)%Q /\
    forall p,
      Binary64.image_id_of now dawn_time day_length dusk_id = Ok p ->
      float_lt_int p 1 = false -> float_gt_int p (len images - 1) = false ->
      (q < 1)%Q.
Proof.
  intro H. rewrite get_current_images_eq in H.
  destruct (Binary64.image_id_of now dawn_time day_length dusk_id) as [p|ex] eqn:P;
    cbn [bind] in H; [|discriminate].
  destruct (float_lt_int p 1 || float_gt_int p (len images - 1)) eqn:G.
  - destruct (getitem images (len images - 1)) as [a|ex]; cbn [bind] in H;
      [|discriminate].
    injection H as _ _ <-.
    exists (inject_Z 4503599627370496 * 2 ^ (-52))%Q.
    split; [reflexivity|]. split; [vm_compute; congruence|].
    split; [vm_compute; congruence|].
    intros p' E L1 L2. injection E as <-. rewrite L1, L2 in G. discriminate.
  - pose proof G as G'. apply orb_false_iff in G'. destruct G' as [G1 G2].
    destruct (Binary64.math_floor p) as [i|ex] eqn:F; cbn [bind] in H; [|discriminate].
    apply math_floor_Ok in F. destruct F as (v & V & ->).
    assert (Lo : (1 <= v)%Q).
    { destruct (Qlt_le_dec v 1) as [L|L]; [|exact L].
      apply (float_lt_int_value p v 1 V) in L. congruence. }
    assert (Hi : (v <= inject_Z (len images - 1))%Q).
    { destruct (Qlt_le_dec (inject_Z (len images - 1)) v) as [L|L]; [|exact L].
      apply (float_gt_int_value p v _ V) in L. congruence. }
    destruct (get_current_images_interior images now dawn_time day_length
                dusk_id p v P V Lo Hi)
      as (a & amount' & q & Ga & Vq & Eq & E).
    rewrite get_current_images_eq, P in E. cbn [bind] in E. rewrite G in E.
    rewrite (math_floor_value p v V) in E. cbn [bind] in E.
    rewrite E in H.
    destruct (Binary64.math_floor (p + one)) as [j|ex]; cbn [bind] in H; [|discriminate].
    destruct (getitem images j) as [b|ex]; cbn [bind] in H; [|discriminate].
    injection H as _ _ <-.
    destruct (Qfloor_bounds v) as [B1 B2].
    rewrite inject_Z_plus in B2. change (inject_Z 1) with 1%Q in B2.
    exists q. split; [exact Vq|].
    split; [rewrite Eq; lra|]. split; [rewrite Eq; lra|].
    intros _ _ _ _. rewrite Eq. lra.
Qed.

Lemma C5_amount_in_unit_interval_witness :
  Binary64.get_current_images (hms 12 0 0) (hms 8 0 0) 36000 sixteen 13
  = Ok (5, 6, 0.20000000000000018%float) /\
  exists q,
    float_value 0.20000000000000018%float = Some q /\ (0 <= q)%Q /\ (q <= 1)%Q /\
    forall p,
      Binary64.image_id_of (hms 12 0 0) (hms 8 0 0) 36000 13 = Ok p ->
      float_lt_int p 1 = false -> float_gt_int p (len sixteen - 1) = false ->
      (q < 1)%Q.
Proof.
  assert (H : Binary64.get_current_images (hms 12 0 0) (hms 8 0 0) 36000 sixteen 13
              = Ok (5, 6, 0.20000000000000018%float)) by (vm_compute; reflexivity).
  split; [exact H|].
  exact (C5_amount_in_unit_interval sixteen 13 36000%float (hms 12 0 0)
           (hms 8 0 0) 5 6 _ H).
Defined.

(** C4, as the spec states it, fails: in the scenario of the spec the
    indices are (15, 15) at dawn, 08:00, and (5, 6) at 12:00. *)
Lemma C4_counterexample :
  hms 8 0 0 <= hms 12 0 0 /\
  Binary64.get_current_indices (hms 8 0 0) (hms 8 0 0) 36000 sixteen 13
  = Ok (15, 15, one) /\
  Binary64.get_current_indices (hms 12 0 0) (hms 8 0 0) 36000 sixteen 13
  = Ok (5, 6, 0.20000000000000018%float) /\
  ~ (15 <= 5 /\ 15 <= 6).
Proof.
  repeat split; try (vm_compute; congruence). lia.
Qed.

Lemma C4_indices_monotone_from_position_one_witness :
  finite_positive 36000 /\ 0 <= 13 /\
  timedelta_in_range (hms 12 0 0 - hms 8 0 0) /\
  timedelta_in_range (hms 15 0 0 - hms 8 0 0) /\
  hms 12 0 0 <= hms 15 0 0 /\
  Binary64.image_id_of (hms 12 0 0) (hms 8 0 0) 36000 13 = Ok 5.2%float /\
  Binary64.image_id_of (hms 15 0 0) (hms 8 0 0) 36000 13 = Ok 9.1%float /\
  float_lt_int 5.2 1 = false /\
  Binary64.get_current_indices (hms 12 0 0) (hms 8 0 0) 36000 sixteen 13
  = Ok (5, 6, 0.20000000000000018%float) /\
  Binary64.get_current_indices (hms 15 0 0) (hms 8 0 0) 36000 sixteen 13
  = Ok (9, 10, 0.099999999999999645%float) /\
  5 <= 9 /\ 6 <= 10.
Proof.
  assert (Dn : 0 <= 13) by lia.
  assert (R1 : timedelta_in_range (hms 12 0 0 - hms 8 0 0))
    by (split; vm_compute; congruence).
  assert (R2 : timedelta_in_range (hms 15 0 0 - hms 8 0 0))
    by (split; vm_compute; congruence).
  assert (H : hms 12 0 0 <= hms 15 0 0) by (vm_compute; congruence).
  assert (P1 : Binary64.image_id_of (hms 12 0 0) (hms 8 0 0) 36000 13 = Ok 5.2%float)
    by (vm_compute; reflexivity).
  assert (P2 : Binary64.image_id_of (hms 15 0 0) (hms 8 0 0) 36000 13 = Ok 9.1%float)
    by (vm_compute; reflexivity).
  assert (L : float_lt_int 5.2 1 = false) by (vm_compute; reflexivity).
  assert (G1 : Binary64.get_current_indices (hms 12 0 0) (hms 8 0 0) 36000 sixteen 13
               = Ok (5, 6, 0.20000000000000018%float)) by (vm_compute; reflexivity).
  assert (G2 : Binary64.get_current_indices (hms 15 0 0) (hms 8 0 0) 36000 sixteen 13
               = Ok (9, 10, 0.099999999999999645%float)) by (vm_compute; reflexivity).
  split; [exact finite_positive_36000|].
  repeat (split; [assumption|]).
  apply (C4_indices_monotone_from_position_one sixteen 13 36000%float (hms 8 0 0)
           (hms 12 0 0) (hms 15 0 0) 5.2%float 9.1%float 5 6 9 10
           0.20000000000000018%float 0.099999999999999645%float
           finite_positive_36000 Dn R1 R2 H P1 P2); [|exact G1|exact G2].
  intro C. rewrite L in C. discriminate.
Defined.

(** ** When it raises, and what it reads *)

Lemma finite_positive_not_zero (x : float) :
  finite_positive x -> is_zero x = false.
Proof.
  intros (m & e & P). unfold is_zero. rewrite FloatAxioms.eqb_spec, P. reflexivity.
Qed.

Lemma image_id_of_returns (now dawn_time : datetime) (day_length : float)
    (dusk_id : Z) (d : float) :
  float_of_int dusk_id = Ok d -> finite_positive day_length ->
  Binary64.image_id_of now dawn_time day_length dusk_id
  = Ok (d * Binary64.total_seconds (now - dawn_time) / day_length)%float.
Proof.
  intros D P. unfold Binary64.image_id_of, Binary64.truediv. rewrite D. cbn [bind].
  rewrite (finite_positive_not_zero _ P). reflexivity.
Qed.

(** The integers of 53 bits at most convert to floats. *)
Lemma float_of_int_small (z : Z) :
  0 <= z < 2 ^ 53 -> exists d, float_of_int z = Ok d.
Proof.
  intros [Z0 Z1]. unfold float_of_int.
  destruct (Z.eq_dec z 0) as [->|Nz].
  - eexists. reflexivity.
  - destruct (binary_normalize_exact z 0) as (m & e & B & _); [lia|lia|].
    rewrite B. eexists. reflexivity.
Qed.

Lemma float_of_int_nonpos (z : Z) (d : float) :
  z <= 0 -> float_of_int z = Ok d -> finite_nonpos (Prim2SF d).
Proof.
  intros H E. apply float_of_int_Ok in E. destruct E as [-> NI].
  destruct z as [|m|m]; [exact I|lia|]. cbn [binary_normalize] in *.
  destruct (binary_round_correct true m 0) as (n & e & R & B). rewrite B in *.
  rewrite Prim2SF_SF2Prim by (apply rounded_valid; apply R).
  pose proof (rounded_nonpos n e ltac:(apply R)) as N.
  destruct (rounded true n e) as [s|s| |s m' e']; try contradiction.
  - exact I.
  - exfalso. exact (NI s eq_refl).
  - destruct s; [exact I|contradiction].
Qed.

Lemma SFmul_nonpos_nonneg (d a : spec_float) :
  valid_binary d = true -> valid_binary a = true ->
  finite_nonpos d -> finite_nonneg a -> nonpos (SFmul prec emax d a).
Proof.
  intros Vd Va Fd Fa.
  destruct d as [sd|sd| |[|] md ed]; try contradiction;
  destruct a as [sa|sa| |[|] ma ea]; try contradiction; try exact I.
  destruct (SFmul_finite_correct true false md ma ed ea Vd Va) as (n & e & R & E).
  rewrite E. cbn [xorb]. apply rounded_nonpos. apply R.
Qed.

(** The float sum [p + 1.0] lies between any two integers of 53 bits at most
    that the exact sum lies between. *)
Lemma successor_between (p : float) (v : Q) (lo hi : Z) :
  float_value p = Some v -> (1 <= v)%Q ->
  0 < lo -> hi < 2 ^ 53 ->
  (inject_Z lo <= v + 1)%Q -> (v + 1 <= inject_Z hi)%Q ->
  exists w,
    float_value (p + one)%float = Some w /\
    (inject_Z lo <= w)%Q /\ (w <= inject_Z hi)%Q.
Proof.
  intros V Lo L0 H1 L H.
  assert (LH : lo <= hi) by (rewrite Zle_Qle; lra).
  destruct (at_least_one_finite p v V Lo) as (m & e & Pm & Ev).
  destruct (SFadd_positive_correct m 4503599627370496 e (-52)) as (n & e' & R & A).
  assert (X : (inject_Z (Zpos m) * 2 ^ e + inject_Z 4503599627370496 * 2 ^ (-52)
               == v + 1)%Q) by (rewrite one_value, Ev; reflexivity).
  apply (rounds_to_comp _ _ _ _ X) in R.
  destruct (rounds_to_int lo ltac:(lia)) as (n1 & e1 & R1 & X1).
  destruct (rounds_to_int hi ltac:(lia)) as (n2 & e2 & R2 & X2).
  pose proof (rounds_to_mono _ _ _ _ _ _ R1 R L) as M1.
  pose proof (rounds_to_mono _ _ _ _ _ _ R R2 H) as M2.
  rewrite X1 in M1. rewrite X2 in M2.
  assert (Fin : (inject_Z n * 2 ^ e' < 2 ^ 1024)%Q).
  { eapply Qle_lt_trans; [exact M2|].
    apply (Qlt_le_trans _ (2 ^ 53)); [|apply Qpow2_le; lia].
    rewrite <- Qpow2_inject by lia. rewrite <- Zlt_Qlt. lia. }
  destruct (rounded_spec false n e' ltac:(apply R)) as [(_ & w & W & Ew)|(G & _)]; [|lra].
  cbn [cond_Zopp] in Ew.
  exists w. split.
  - unfold float_value. rewrite add_spec, Pm, Prim2SF_one. unfold SF64add.
    rewrite A. exact W.
  - rewrite Ew. split; assumption.
Qed.

Lemma image_id_of_nonneg (now dawn_time : datetime) (day_length : float)
    (dusk_id : Z) (p : float) :
  finite_positive day_length -> 0 <= dusk_id ->
  timedelta_in_range (now - dawn_time) -> dawn_time <= now ->
  Binary64.image_id_of now dawn_time day_length dusk_id = Ok p ->
  nonneg (Prim2SF p).
Proof.
  intros Dy Dn R H P.
  apply (image_id_of_mono now now dawn_time day_length dusk_id p p Dy Dn R R H
           (Z.le_refl now) P P).
Qed.

(** X16. On the floats too the time before dawn is not an error: with
    N >= 1 images, a dusk_id from 0 to N - 1, a day_length that is a positive
    finite float and now <= dawn, get_current_images returns
    (images[N-1], images[N-1], 1). *)
Theorem X16_before_dawn_on_floats {Image : Type} (images : list Image)
    (dusk_id : Z) (day_length : float) (now dawn_time : datetime) :
  1 <= len images -> len images <= 2 ^ 53 ->
  0 <= dusk_id <= len images - 1 ->
  finite_positive day_length ->
  timedelta_in_range (now - dawn_time) -> now <= dawn_time ->
  Binary64.picks_last_image now dawn_time day_length images dusk_id.
Proof.
  intros N1 N2 Dn Dy R H.
  destruct (float_of_int_small dusk_id ltac:(lia)) as (d & D).
  pose proof (image_id_of_returns now dawn_time day_length dusk_id d D Dy) as P.
  apply (get_current_images_clamped images _ _ _ _ _ N1 P).
  rewrite (nonpos_below_one _ 1); [reflexivity| |lia].
  exact (image_id_of_nonpos_before_dawn now dawn_time day_length dusk_id _ Dy
           ltac:(lia) R H P).
Qed.

Lemma X16_before_dawn_on_floats_witness :
  1 <= len sixteen /\ len sixteen <= 2 ^ 53 /\ 0 <= 13 <= len sixteen - 1 /\
  finite_positive 36000 /\
  timedelta_in_range (hms 7 30 0 - hms 8 0 0) /\ hms 7 30 0 <= hms 8 0 0 /\
  Binary64.picks_last_image (hms 7 30 0) (hms 8 0 0) 36000 sixteen 13.
Proof.
  assert (N1 : 1 <= len sixteen) by (vm_compute; congruence).
  assert (N2 : len sixteen <= 2 ^ 53) by (vm_compute; congruence).
  assert (Dn : 0 <= 13 <= len sixteen - 1) by (split; vm_compute; congruence).
  assert (R : timedelta_in_range (hms 7 30 0 - hms 8 0 0))
    by (split; vm_compute; congruence).
  assert (H : hms 7 30 0 <= hms 8 0 0) by (vm_compute; congruence).
  split; [exact N1|]. split; [exact N2|]. split; [exact Dn|].
  split; [exact finite_positive_36000|]. split; [exact R|]. split; [exact H|].
  exact (X16_before_dawn_on_floats sixteen 13 36000%float (hms 7 30 0) (hms 8 0 0)
           N1 N2 Dn finite_positive_36000 R H).
Defined.

(** X6. With a dusk_id of 0 or less (one that converts to a float) the
    wallpaper does not move during the day: at every time from dawn on the
    computed position is zero or negative and get_current_images returns
    the last image, twice, with amount 1. *)
Theorem X6_no_progress_without_positive_dusk_id {Image : Type}
    (images : list Image) (dusk_id : Z) (day_length : float)
    (now dawn_time : datetime) (d : float) :
  1 <= len images -> finite_positive day_length ->
  dusk_id <= 0 -> float_of_int dusk_id = Ok d ->
  timedelta_in_range (now - dawn_time) -> dawn_time <= now ->
  Binary64.picks_last_image now dawn_time day_length images dusk_id.
Proof.
  intros N Dy Dn D R H.
  pose proof (image_id_of_returns now dawn_time day_length dusk_id d D Dy) as P.
  apply (get_current_images_clamped images _ _ _ _ _ N P).
  rewrite (nonpos_below_one _ 1); [reflexivity| |lia].
  destruct Dy as (my & ey & Dy).
  rewrite Prim2SF_position, Dy. apply SFdiv_nonpos.
  apply SFmul_nonpos_nonneg; try apply Prim2SF_valid.
  - exact (float_of_int_nonpos dusk_id d Dn D).
  - apply total_seconds_nonneg; [lia | exact R].
Qed.

Lemma X6_no_progress_without_positive_dusk_id_witness :
  1 <= len sixteen /\ finite_positive 36000 /\ -3 <= 0 /\
  float_of_int (-3) = Ok (-3)%float /\
  timedelta_in_range (hms 12 0 0 - hms 8 0 0) /\ hms 8 0 0 <= hms 12 0 0 /\
  Binary64.picks_last_image (hms 12 0 0) (hms 8 0 0) 36000 sixteen (-3).
Proof.
  assert (N : 1 <= len sixteen) by (vm_compute; congruence).
  assert (Dn : -3 <= 0) by lia.
  assert (D : float_of_int (-3) = Ok (-3)%float) by (vm_compute; reflexivity).
  assert (R : timedelta_in_range (hms 12 0 0 - hms 8 0 0))
    by (split; vm_compute; congruence).
  assert (H : hms 8 0 0 <= hms 12 0 0) by (vm_compute; congruence).
  split; [exact N|]. split; [exact finite_positive_36000|]. split; [exact Dn|].
  split; [exact D|]. split; [exact R|]. split; [exact H|].
  exact (X6_no_progress_without_positive_dusk_id sixteen (-3) 36000%float
           (hms 12 0 0) (hms 8 0 0) _ N finite_positive_36000 Dn D R H).
Defined.

(** X3. With two images or more, the indices get_current_images reads
    when it returns are at least 1, so that image 0 is never used; the
    second index is the first one (the fallback), the first plus one, or, when
    the float sum [image_id + 1] is rounded up, the first plus two. *)
Theorem X3_first_image_never_used {Image : Type} (images : list Image)
    (dusk_id : Z) (day_length : float) (now dawn_time : datetime)
    (i j : Z) (amount : float) :
  2 <= len images -> len images < 2 ^ 53 - 1 ->
  Binary64.get_current_indices now dawn_time day_length images dusk_id
  = Ok (i, j, amount) ->
  1 <= i /\ (j = i \/ j = i + 1 \/ j = i + 2) /\ j <= len images - 1.
Proof.
  intros N1 N2 G.
  destruct (Binary64.image_id_of now dawn_time day_length dusk_id) as [p|ex] eqn:P.
  2:{ unfold Binary64.get_current_indices in G. rewrite get_current_images_eq, P in G.
      discriminate. }
  destruct (float_lt_int p 1 || float_gt_int p (len images - 1)) eqn:Gd.
  - destruct (indices_clamped images _ _ _ _ p i j amount P Gd G) as (_ & -> & ->).
    split; [lia|]. split; [left; reflexivity | lia].
  - destruct (indices_interior images _ _ _ _ p i j amount P Gd G)
      as (v & V & Lo & Hi & -> & F & J).
    destruct (Qfloor_between v 1 (len images)) as [I1 I2].
    { exact Lo. }
    { eapply Qle_lt_trans; [exact Hi|]. rewrite <- Zlt_Qlt. lia. }
    destruct (successor_floor p v V Lo) as (j' & w & F' & _ & C).
    { eapply Qle_lt_trans; [exact Hi|]. rewrite <- Zlt_Qlt. lia. }
    assert (j' = j) by congruence. subst j'.
    split; [lia|]. split; [|lia].
    destruct C as [->|[-> _]]; [right; left|right; right]; reflexivity.
Qed.

Lemma X3_first_image_never_used_witness :
  2 <= len sixteen /\ len sixteen < 2 ^ 53 - 1 /\
  Binary64.get_current_indices 16385600000 0 30723 sixteen 15
  = Ok (7, 9, 0.99999999999999911%float) /\
  1 <= 7 /\ (9 = 7 \/ 9 = 7 + 1 \/ 9 = 7 + 2) /\ 9 <= len sixteen - 1.
Proof.
  assert (N1 : 2 <= len sixteen) by (vm_compute; congruence).
  assert (N2 : len sixteen < 2 ^ 53 - 1) by (vm_compute; congruence).
  assert (G : Binary64.get_current_indices 16385600000 0 30723 sixteen 15
              = Ok (7, 9, 0.99999999999999911%float)) by (vm_compute; reflexivity).
  split; [exact N1|]. split; [exact N2|]. split; [exact G|].
  exact (X3_first_image_never_used sixteen 15 30723%float 16385600000 0 7 9 _
           N1 N2 G).
Defined.

(** X1. With a dusk_id from 0 to N - 1, a day_length that is a positive
    finite float and a time within the range of a timedelta from dawn,
    get_current_images raises nothing but IndexError, and that only when the
    computed position lies from N - 2 to N - 1 and the floor of the float
    sum [image_id + 1] is N. *)
Theorem X1_raises_only_index_error {Image : Type} (images : list Image)
    (dusk_id : Z) (day_length : float) (now dawn_time : datetime) :
  1 <= len images -> len images < 2 ^ 53 - 1 ->
  0 <= dusk_id <= len images - 1 ->
  finite_positive day_length -> timedelta_in_range (now - dawn_time) ->
  (exists r,
      Binary64.get_current_images now dawn_time day_length images dusk_id = Ok r) \/
  (Binary64.get_current_images now dawn_time day_length images dusk_id
   = Raise IndexError /\
   exists p v,
     Binary64.image_id_of now dawn_time day_length dusk_id = Ok p /\
     float_value p = Some v /\
     (inject_Z (len images - 2) <= v)%Q /\ (v <= inject_Z (len images - 1))%Q /\
     Binary64.math_floor (p + one)%float = Ok (len images)).
Proof.
  intros N1 N2 Dn Dy R.
  destruct (float_of_int_small dusk_id ltac:(lia)) as (d & D).
  pose proof (image_id_of_returns now dawn_time day_length dusk_id d D Dy) as P.
  set (p := (d * Binary64.total_seconds (now - dawn_time) / day_length)%float) in *.
  destruct (float_lt_int p 1 || float_gt_int p (len images - 1)) eqn:Gd.
  - left. destruct (get_current_images_clamped images _ _ _ _ p N1 P Gd)
      as (a & _ & E). eexists. exact E.
  - pose proof Gd as Gd'. apply orb_false_iff in Gd'. destruct Gd' as [G1 G2].
    assert (After : dawn_time <= now).
    { destruct (Z_lt_le_dec now dawn_time) as [B|A]; [exfalso|exact A].
      pose proof (image_id_of_nonpos_before_dawn now dawn_time day_length dusk_id p
                    Dy ltac:(lia) R ltac:(lia) P) as Np.
      rewrite (nonpos_below_one p 1 Np ltac:(lia)) in G1. discriminate. }
    pose proof (image_id_of_nonneg now dawn_time day_length dusk_id p Dy
                  ltac:(lia) R After P) as Nn.
    assert (V : exists v, float_value p = Some v).
    { unfold float_value, float_gt_int, float_compare_int in *.
      destruct (Prim2SF p) as [s|[|]| |[|] m e]; try contradiction;
        try discriminate; eexists; reflexivity. }
    destruct V as (v & V).
    assert (Lo : (1 <= v)%Q).
    { destruct (Qlt_le_dec v 1) as [L|L]; [|exact L].
      apply (float_lt_int_value p v 1 V) in L. congruence. }
    assert (Hi : (v <= inject_Z (len images - 1))%Q).
    { destruct (Qlt_le_dec (inject_Z (len images - 1)) v) as [L|L]; [|exact L].
      apply (float_gt_int_value p v _ V) in L. congruence. }
    destruct (get_current_images_interior images now dawn_time day_length
                dusk_id p v P V Lo Hi)
      as (a & amount & q & Ga & Vq & Eq & E).
    destruct (Qfloor_between v 1 (len images)) as [I1 I2].
    { exact Lo. }
    { eapply Qle_lt_trans; [exact Hi|]. rewrite <- Zlt_Qlt. lia. }
    destruct (Qfloor_bounds v) as [B1 B2].
    destruct (successor_between p v (Qfloor v + 1) (len images) V Lo)
      as (w & W & W1 & W2); [lia | lia | | |].
    { rewrite inject_Z_plus. change (inject_Z 1) with 1%Q. lra. }
    { replace (len images) with (len images - 1 + 1) by lia.
      rewrite inject_Z_plus. change (inject_Z 1) with 1%Q. lra. }
    pose proof (math_floor_value _ _ W) as F.
    assert (J1 : Qfloor v + 1 <= Qfloor w).
    { apply Qfloor_resp_le in W1. rewrite Qfloor_Z in W1. exact W1. }
    assert (J2 : Qfloor w <= len images).
    { apply Qfloor_resp_le in W2. rewrite Qfloor_Z in W2. exact W2. }
    rewrite E, F. cbn [bind].
    destruct (Z_lt_le_dec (Qfloor w) (len images)) as [In|Out].
    + left. destruct (getitem_inside images (Qfloor w)) as (b & Gb & _); [lia|].
      rewrite Gb. eexists. reflexivity.
    + right. rewrite getitem_beyond by lia. split; [reflexivity|].
      exists p, v. split; [exact P|]. split; [exact V|].
      assert (Qfloor w = len images) by lia.
      split; [|split; [exact Hi|congruence]].
      destruct (successor_floor p v V Lo) as (j' & w' & F' & _ & C).
      { eapply Qle_lt_trans; [exact Hi|]. rewrite <- Zlt_Qlt. lia. }
      assert (j' = Qfloor w) by congruence. subst j'.
      apply (Qle_trans _ (inject_Z (Qfloor v))); [|exact B1].
      rewrite <- Zle_Qle. destruct C as [C|[C _]]; lia.
Qed.

Lemma X1_raises_only_index_error_witness :
  1 <= len sixteen /\ len sixteen < 2 ^ 53 - 1 /\ 0 <= 13 <= len sixteen - 1 /\
  finite_positive 39000 /\ timedelta_in_range (hms 20 30 0 - hms 8 0 0) /\
  Binary64.get_current_images (hms 20 30 0) (hms 8 0 0) 39000 sixteen 13
  = Raise IndexError /\
  ((exists r,
      Binary64.get_current_images (hms 20 30 0) (hms 8 0 0) 39000 sixteen 13 = Ok r) \/
   (Binary64.get_current_images (hms 20 30 0) (hms 8 0 0) 39000 sixteen 13
    = Raise IndexError /\
    exists p v,
      Binary64.image_id_of (hms 20 30 0) (hms 8 0 0) 39000 13 = Ok p /\
      float_value p = Some v /\
      (inject_Z (len sixteen - 2) <= v)%Q /\ (v <= inject_Z (len sixteen - 1))%Q /\
      Binary64.math_floor (p + one)%float = Ok (len sixteen))).
Proof.
  assert (N1 : 1 <= len sixteen) by (vm_compute; congruence).
  assert (N2 : len sixteen < 2 ^ 53 - 1) by (vm_compute; congruence).
  assert (Dn : 0 <= 13 <= len sixteen - 1) by (split; vm_compute; congruence).
  assert (Dy : finite_positive 39000)
    by (exists 5360119185408000%positive, (-37); reflexivity).
  assert (R : timedelta_in_range (hms 20 30 0 - hms 8 0 0))
    by (split; vm_compute; congruence).
  split; [exact N1|]. split; [exact N2|]. split; [exact Dn|].
  split; [exact Dy|]. split; [exact R|].
  split; [vm_compute; reflexivity|].
  exact (X1_raises_only_index_error sixteen 13 39000%float (hms 20 30 0)
           (hms 8 0 0) N1 N2 Dn Dy R).
Defined.

(** X17. From dawn on the computed position never decreases as the time
    passes, the three roundings included: the values are ordered, and so are
    the comparisons with any integer. *)
Theorem X17_position_never_decreases (now1 now2 dawn_time : datetime)
    (day_length : float) (dusk_id : Z) (p1 p2 : float) :
  finite_positive day_length -> 0 <= dusk_id ->
  timedelta_in_range (now1 - dawn_time) ->
  timedelta_in_range (now2 - dawn_time) ->
  dawn_time <= now1 -> now1 <= now2 ->
  Binary64.image_id_of now1 dawn_time day_length dusk_id = Ok p1 ->
  Binary64.image_id_of now2 dawn_time day_length dusk_id = Ok p2 ->
  (forall v1 v2,
      float_value p1 = Some v1 -> float_value p2 = Some v2 -> (v1 <= v2)%Q) /\
  (forall k, float_gt_int p1 k = true -> float_gt_int p2 k = true) /\
  (forall k, float_lt_int p2 k = true -> float_lt_int p1 k = true).
Proof.
  intros Dy Dn R1 R2 H0 H12 P1 P2.
  destruct (image_id_of_mono now1 now2 dawn_time day_length dusk_id p1 p2
              Dy Dn R1 R2 H0 H12 P1 P2) as (Le & N1 & N2).
  split; [|split].
  - intros v1 v2 V1 V2. destruct Le as [Inf|(u & v & U & V & L)].
    + unfold float_value in V2. rewrite Inf in V2. discriminate.
    + unfold float_value in V1, V2. congruence.
  - intros k G. exact (le_nn_above p1 p2 k Le N1 G).
  - intros k L. destruct Le as [Inf|(u & v & U & V & Le)].
    + unfold float_lt_int, float_compare_int in L. rewrite Inf in L. discriminate.
    + apply (float_lt_int_value p2 v k V) in L.
      apply (float_lt_int_value p1 u k U). lra.
Qed.

Lemma X17_position_never_decreases_witness :
  finite_positive 36000 /\ 0 <= 13 /\
  timedelta_in_range (hms 12 0 0 - hms 8 0 0) /\
  timedelta_in_range (hms 15 0 0 - hms 8 0 0) /\
  hms 8 0 0 <= hms 12 0 0 /\ hms 12 0 0 <= hms 15 0 0 /\
  Binary64.image_id_of (hms 12 0 0) (hms 8 0 0) 36000 13 = Ok 5.2%float /\
  Binary64.image_id_of (hms 15 0 0) (hms 8 0 0) 36000 13 = Ok 9.1%float /\
  (forall v1 v2,
      float_value 5.2%float = Some v1 -> float_value 9.1%float = Some v2 ->
      (v1 <= v2)%Q) /\
  (forall k, float_gt_int 5.2%float k = true -> float_gt_int 9.1%float k = true) /\
  (forall k, float_lt_int 9.1%float k = true -> float_lt_int 5.2%float k = true).
Proof.
  assert (Dn : 0 <= 13) by lia.
  assert (R1 : timedelta_in_range (hms 12 0 0 - hms 8 0 0))
    by (split; vm_compute; congruence).
  assert (R2 : timedelta_in_range (hms 15 0 0 - hms 8 0 0))
    by (split; vm_compute; congruence).
  assert (H0 : hms 8 0 0 <= hms 12 0 0) by (vm_compute; congruence).
  assert (H : hms 12 0 0 <= hms 15 0 0) by (vm_compute; congruence).
  assert (P1 : Binary64.image_id_of (hms 12 0 0) (hms 8 0 0) 36000 13 = Ok 5.2%float)
    by (vm_compute; reflexivity).
  assert (P2 : Binary64.image_id_of (hms 15 0 0) (hms 8 0 0) 36000 13 = Ok 9.1%float)
    by (vm_compute; reflexivity).
  split; [exact finite_positive_36000|].
  repeat (split; [assumption|]).
  exact (X17_position_never_decreases (hms 12 0 0) (hms 15 0 0) (hms 8 0 0)
           36000%float 13 5.2%float 9.1%float finite_positive_36000 Dn R1 R2
           H0 H P1 P2).
Defined.

End Binary64Facts.

(** ** The scenarios on binary64 *)

Module Binary64Runs.

Import PrimFloat.
Local Set Warnings "-inexact-float".

(** Noon: images 5 and 6; the amount is 0.2 up to the rounding of the
    floats. *)
Example noon :
  Binary64.get_current_images (hms 12 0 0) (hms 8 0 0) 36000 sixteen 13
  = Ok (5, 6, 0.20000000000000018%float).
Proof. vm_compute. reflexivity. Qed.

(** Dawn: the last image. *)
Example dawn :
  Binary64.get_current_images (hms 8 0 0) (hms 8 0 0) 36000 sixteen 13
  = Ok (15, 15, 1%float).
Proof. vm_compute. reflexivity. Qed.

(** One hour after dusk: images 14 and 15. *)
Example one_hour_after_dusk :
  Binary64.get_current_images (hms 19 0 0) (hms 8 0 0) 36000 sixteen 13
  = Ok (14, 15, 0.30000000000000071%float).
Proof. vm_compute. reflexivity. Qed.

(** The position 15 of sixteen images, and the position 1 of two. *)
Example at_last_position :
  Binary64.get_current_images (hms 20 30 0) (hms 8 0 0) 39000 sixteen 13
  = Raise IndexError /\
  Binary64.get_current_images (hms 18 0 0) (hms 8 0 0) 36000 [0; 1] 1
  = Raise IndexError.
Proof. split; vm_compute; reflexivity. Qed.

(** A position that is 8 on the rationals is the float next below 8: the
    first image is image 7, and the sum with 1 is rounded up to 9. *)
Example sum_rounded_up :
  Binary64.get_current_images 16385600000 0 30723 sixteen 15
  = Ok (7, 9, 0.99999999999999911%float).
Proof. vm_compute. reflexivity. Qed.

(** A position that is 1 on the rationals is a float below 1: the
    fallback. *)
Example just_below_one :
  Binary64.get_current_images 2048200000 0 30723 sixteen 15
  = Ok (15, 15, 1%float).
Proof. vm_compute. reflexivity. Qed.

(** A position that is above 15 on the rationals is the float 15: the
    last image is not picked, and the second index is 16. *)
Example position_rounded_to_the_last :
  Binary64.get_current_images 45000000015 0
    (Binary64.total_seconds 39000000013) sixteen 13
  = Raise IndexError.
Proof. vm_compute. reflexivity. Qed.

(** At dusk itself, 41000.000002 s after dawn, the position is the float
    next below 13. *)
Example dusk_itself :
  Binary64.get_current_images 41000000002 0
    (Binary64.total_seconds 41000000002) sixteen 13
  = Ok (12, 13, 0.99999999999999822%float).
Proof. vm_compute. reflexivity. Qed.

(** A dusk_id past the largest float does not convert. *)
Example dusk_id_beyond_the_floats :
  Binary64.get_current_images (hms 12 0 0) (hms 8 0 0) 36000 sixteen (2 ^ 1024)
  = Raise OverflowError.
Proof. vm_compute. reflexivity. Qed.

End Binary64Runs.

(** * More on init_images *)

Lemma int_of_float_half (n : Z) :
  0 <= n -> int_of_float (inject_Z n / 2) = n / 2.
Proof.
  intro H. unfold int_of_float. cbn [Qnum Qden Qdiv Qmult Qinv inject_Z].
  rewrite Z.mul_1_r. change (Z.pos (1 * 2)) with 2.
  apply Z.quot_div_nonneg; lia.
Qed.

Section InitImagesMore.

Context {Image : Type}.
Variable w : World Image.
Variables (folder set_cmd : string).

(** What a call that returned has done. *)
Lemma init_images_inversion (tr tr' : list (event Image))
    (paths : list string) (files : list Image) :
  init_images w folder set_cmd tr = (tr', Ok (paths, files)) ->
  mapM (fun f => Image_open w (os_path_join folder f)) paths = Ok files /\
  if truthy set_cmd
  then exists middle,
         getitem paths (len paths / 2) = Ok middle /\
         tr' = tr ++ [Called set_cmd (os_path_join folder middle)]
  else tr' = tr.
Proof.
  unfold init_images, pbind, lift.
  destruct (os_listdir w folder) as [names|e]; [|discriminate].
  destruct (list_sort sort_key (filter is_image_name names)) as [ps|e];
    [|discriminate].
  rewrite int_of_float_half by apply len_nonneg.
  destruct (truthy set_cmd).
  - destruct (getitem ps (len ps / 2)) as [m|e] eqn:G; [|discriminate].
    unfold update_wallpaper, pbind, lift, emit.
    destruct (format_split_call w set_cmd (os_path_join folder m)) as [[]|e];
      [|discriminate].
    destruct (mapM _ ps) as [fs|e] eqn:M; [|discriminate].
    unfold ret. intros [= <- <- <-].
    split; [exact M|]. exists m. split; [exact G | reflexivity].
  - unfold ret.
    destruct (mapM _ ps) as [fs|e] eqn:M; [|discriminate].
    intros [= <- <- <-]. split; [exact M | reflexivity].
Qed.

(** Whether it returns or raises, a call has run the command once at
    most. *)
Lemma init_images_trace (tr tr' : list (event Image))
    (r : result (list string * list Image)) :
  init_images w folder set_cmd tr = (tr', r) ->
  tr' = tr \/ exists wallpaper_path, tr' = tr ++ [Called set_cmd wallpaper_path].
Proof.
  unfold init_images, pbind, lift.
  destruct (os_listdir w folder) as [names|e]; [|intros [= <- _]; left; reflexivity].
  destruct (list_sort sort_key (filter is_image_name names)) as [ps|e];
    [|intros [= <- _]; left; reflexivity].
  destruct (truthy set_cmd).
  - destruct (getitem ps _) as [m|e]; [|intros [= <- _]; left; reflexivity].
    unfold update_wallpaper, pbind, lift, emit.
    destruct (format_split_call w set_cmd (os_path_join folder m)) as [[]|e];
      [|intros [= <- _]; left; reflexivity].
    destruct (mapM _ ps) as [fs|e]; unfold ret; intros [= <- _]; right;
      eexists; reflexivity.
  - unfold ret.
    destruct (mapM _ ps) as [fs|e]; intros [= <- _]; left; reflexivity.
Qed.

End InitImagesMore.

(** X7. The two lists init_images returns go together: they have the same
    length, and the image at an index is the one opened from the folder
    joined with the name at that index. *)
Theorem X7_images_follow_their_names {Image : Type} (w : World Image)
    (folder set_cmd : string) (tr tr' : list (event Image))
    (paths : list string) (files : list Image) :
  init_images w folder set_cmd tr = (tr', Ok (paths, files)) ->
  List.length paths = List.length files /\
  forall n f,
    nth_error paths n = Some f ->
    exists img,
      nth_error files n = Some img /\
      Image_open w (os_path_join folder f) = Ok img.
Proof.
  intro H.
  destruct (init_images_inversion w folder set_cmd tr tr' paths files H)
    as [M _].
  apply mapM_returned in M. clear H.
  induction M as [|f img ps fs E _ [IHl IHn]].
  - split; [reflexivity|]. intros [|n] f H; discriminate.
  - split; [simpl; congruence|].
    intros [|n] g H; simpl in *.
    + injection H as <-. exists img. split; [reflexivity | exact E].
    + apply IHn. exact H.
Qed.

Lemma X7_images_follow_their_names_witness :
  init_images (listing_world mixed_listing) "wallpapers" "feh --bg-scale {}" []
  = ([Called "feh --bg-scale {}" "wallpapers/9.jpg"],
     Ok (["1.jpg"%string; "02.jpeg"%string; "9.jpg"%string; "10.jpg"%string],
         [1; 2; 9; 10]))
  /\
  List.length ["1.jpg"%string; "02.jpeg"%string; "9.jpg"%string; "10.jpg"%string]
  = List.length [1; 2; 9; 10].
Proof.
  assert (H : init_images (listing_world mixed_listing) "wallpapers"
                "feh --bg-scale {}" []
              = ([Called "feh --bg-scale {}" "wallpapers/9.jpg"],
                 Ok (["1.jpg"%string; "02.jpeg"%string; "9.jpg"%string;
                      "10.jpg"%string], [1; 2; 9; 10])))
    by reflexivity.
  split; [exact H|].
  exact (proj1 (X7_images_follow_their_names _ _ _ _ _ _ _ H)).
Defined.

(** X8. The wallpaper init_images sets while the images load: when the
    command is not empty and init_images returns, it has run the command
    once, on the folder joined with the name at index len // 2 of the
    sorted names; when the command is empty it has run nothing. *)
Theorem X8_initial_wallpaper_is_the_middle_one {Image : Type}
    (w : World Image) (folder set_cmd : string) (tr tr' : list (event Image))
    (paths : list string) (files : list Image) :
  init_images w folder set_cmd tr = (tr', Ok (paths, files)) ->
  (truthy set_cmd = true ->
   exists middle,
     nth_error paths (Nat.div2 (List.length paths)) = Some middle /\
     tr' = tr ++ [Called set_cmd (os_path_join folder middle)])
  /\
  (truthy set_cmd = false -> tr' = tr).
Proof.
  intro H.
  destruct (init_images_inversion w folder set_cmd tr tr' paths files H)
    as [_ T].
  split; intro C; rewrite C in T; [|exact T].
  destruct T as (middle & G & E). exists middle. split; [|exact E].
  pose proof (getitem_index_range _ _ _ G) as R.
  pose proof (len_nonneg paths) as P.
  assert (Hlo : 0 <= len paths / 2) by (apply Z.div_pos; lia).
  destruct (getitem_inside paths (len paths / 2)) as (m & G' & N); [lia|].
  rewrite G in G'. injection G' as <-.
  replace (Nat.div2 (List.length paths)) with (Z.to_nat (len paths / 2));
    [exact N|].
  unfold len. rewrite Nat.div2_div.
  change 2 with (Z.of_nat 2). rewrite <- Nat2Z.inj_div. apply Nat2Z.id.
Qed.

Lemma X8_initial_wallpaper_is_the_middle_one_witness :
  init_images (listing_world mixed_listing) "wallpapers" "feh --bg-scale {}" []
  = ([Called "feh --bg-scale {}" "wallpapers/9.jpg"],
     Ok (["1.jpg"%string; "02.jpeg"%string; "9.jpg"%string; "10.jpg"%string],
         [1; 2; 9; 10]))
  /\
  truthy "feh --bg-scale {}" = true /\
  exists middle,
    nth_error ["1.jpg"%string; "02.jpeg"%string; "9.jpg"%string; "10.jpg"%string]
      (Nat.div2 4) = Some middle /\
    [@Called Z "feh --bg-scale {}" "wallpapers/9.jpg"]
    = [] ++ [Called "feh --bg-scale {}" (os_path_join "wallpapers" middle)].
Proof.
  assert (H : init_images (listing_world mixed_listing) "wallpapers"
                "feh --bg-scale {}" []
              = ([Called "feh --bg-scale {}" "wallpapers/9.jpg"],
                 Ok (["1.jpg"%string; "02.jpeg"%string; "9.jpg"%string;
                      "10.jpg"%string], [1; 2; 9; 10])))
    by reflexivity.
  assert (C : truthy "feh --bg-scale {}" = true) by reflexivity.
  split; [exact H|]. split; [exact C|].
  exact (proj1 (X8_initial_wallpaper_is_the_middle_one _ _ _ _ _ _ _ H) C).
Defined.

(** ** A listing that is in order already *)

Lemma sort_keyed_of_sorted {A : Type} (ps : list (Z * A)) :
  Sorted key_le ps -> sort_keyed ps = ps.
Proof.
  induction 1 as [|[k x] rest S IH Hd]; [reflexivity|].
  cbn [sort_keyed]. rewrite IH.
  destruct Hd as [|[k' y] rest' Hle]; [reflexivity|].
  cbn [insert_keyed]. unfold key_le in Hle. simpl in Hle.
  apply Z.leb_le in Hle. rewrite Hle. reflexivity.
Qed.

Lemma sorted_by_of_sorted {A : Type} (key : A -> Z) (l : list A) :
  Sorted Z.le (map key l) -> sorted_by key l = l.
Proof.
  intro S. unfold sorted_by. rewrite sort_keyed_of_sorted.
  - rewrite map_map. cbn [snd]. apply map_id.
  - induction l as [|x rest IH]; [constructor|].
    cbn [map] in *. inversion S as [|? ? Srest Hd]; subst.
    constructor; [apply IH; exact Srest|].
    destruct rest; cbn [map] in *; constructor.
    inversion Hd; subst. assumption.
Qed.

(** X9. When the names init_images keeps come in ascending order of their
    keys in the listing of the folder already (equal keys next to each
    other included), init_images returns them as the listing has them. *)
Theorem X9_sorted_listing_is_kept {Image : Type} (w : World Image)
    (folder set_cmd : string) (tr tr' : list (event Image))
    (names paths : list string) (files : list Image) :
  os_listdir w folder = Ok names ->
  Sorted Z.le (map key_value (filter is_image_name names)) ->
  init_images w folder set_cmd tr = (tr', Ok (paths, files)) ->
  paths = filter is_image_name names.
Proof.
  intros L S H.
  destruct (init_images_returned w folder set_cmd tr tr' paths files H)
    as (names' & L' & R).
  rewrite L in L'. injection L' as <-.
  apply list_sort_returned in R. destruct R as [-> _].
  apply sorted_by_of_sorted. exact S.
Qed.

Lemma X9_sorted_listing_is_kept_witness :
  os_listdir (listing_world ordered_listing) "wallpapers" = Ok ordered_listing /\
  Sorted Z.le (map key_value (filter is_image_name ordered_listing)) /\
  init_images (listing_world ordered_listing) "wallpapers" "" []
  = ([], Ok (["1.jpg"%string; "02.jpeg"%string; "9.jpg"%string; "10.jpg"%string],
             [1; 2; 9; 10])) /\
  ["1.jpg"%string; "02.jpeg"%string; "9.jpg"%string; "10.jpg"%string]
  = filter is_image_name ordered_listing.
Proof.
  assert (L : os_listdir (listing_world ordered_listing) "wallpapers"
              = Ok ordered_listing) by reflexivity.
  assert (S : Sorted Z.le (map key_value (filter is_image_name ordered_listing))).
  { change (Sorted Z.le [1; 2; 9; 10]).
    repeat constructor; discriminate. }
  assert (H : init_images (listing_world ordered_listing) "wallpapers" "" []
              = ([], Ok (["1.jpg"%string; "02.jpeg"%string; "9.jpg"%string;
                          "10.jpg"%string], [1; 2; 9; 10])))
    by reflexivity.
  split; [exact L|]. split; [exact S|]. split; [exact H|].
  exact (X9_sorted_listing_is_kept _ _ _ _ _ _ _ _ L S H).
Defined.

(** ** Zeros in front of the number *)

Lemma re_sub_non_digits_append (a b : string) :
  re_sub_non_digits (String.append a b)
  = String.append (re_sub_non_digits a) (re_sub_non_digits b).
Proof.
  induction a as [|c rest IH]; [reflexivity|].
  simpl. destruct (is_digit c); simpl; rewrite IH; reflexivity.
Qed.

(** X10. Zeros put in front of the first digit of a name do not change its
    key (the padding the sort is there for): for a name made of a part
    without a digit and a rest with one, the key is defined and is the
    same with a "0" between the two. *)
Theorem X10_padding_zero_keeps_the_key (before rest : string) :
  ~ has_digit before -> has_digit rest ->
  exists k,
    sort_key (String.append before rest) = Ok k /\
    sort_key (String.append before (String "0" rest)) = Ok k.
Proof.
  intros Hb Hr.
  apply re_sub_non_digits_empty in Hb.
  destruct (sort_key_defined rest Hr) as [k E].
  exists k. unfold sort_key in *.
  rewrite !re_sub_non_digits_append, Hb. cbn [String.append].
  split; [exact E|].
  change (re_sub_non_digits (String "0" rest))
    with (String "0" (re_sub_non_digits rest)).
  destruct (re_sub_non_digits rest) as [|c d] eqn:R; [discriminate|].
  exact E.
Qed.

Lemma X10_padding_zero_keeps_the_key_witness :
  ~ has_digit "img_" /\ has_digit "7.jpg" /\
  exists k,
    sort_key (String.append "img_" "7.jpg") = Ok k /\
    sort_key (String.append "img_" (String "0" "7.jpg")) = Ok k.
Proof.
  assert (Hb : ~ has_digit "img_")
    by (apply re_sub_non_digits_empty; reflexivity).
  assert (Hr : has_digit "7.jpg")
    by (exists "7"%char; split; [left; reflexivity | reflexivity]).
  split; [exact Hb|]. split; [exact Hr|].
  exact (X10_padding_zero_keeps_the_key "img_" "7.jpg" Hb Hr).
Defined.

(** * More on main *)

Section MainTraces.

Context {Image : Type}.
Variable w : World Image.
Variable args : Args.

Lemma sleeps_app (tr1 tr2 : list (event Image)) :
  sleeps (tr1 ++ tr2) = (sleeps tr1 + sleeps tr2)%nat.
Proof. unfold sleeps. rewrite filter_app, length_app. reflexivity. Qed.

Lemma saves_app (tr1 tr2 : list (event Image)) :
  saves (tr1 ++ tr2) = (saves tr1 + saves tr2)%nat.
Proof. unfold saves. rewrite filter_app, length_app. reflexivity. Qed.

(** What one iteration adds to the trace: a sleep and a save when it comes
    to its end, no sleep and one save at most when it raises. *)
Lemma main_tick_trace (images : list Image) (tick : nat)
    (tr tr' : list (event Image)) (r : result unit) :
  main_tick w args images tick tr = (tr', r) ->
  exists added,
    tr' = tr ++ added /\
    Forall (event_allowed args) added /\
    match r with
    | Ok _ => sleeps added = 1%nat /\ saves added = 1%nat
    | Raise _ => sleeps added = 0%nat /\ (saves added <= 1)%nat
    end.
Proof.
  cbv beta iota zeta
      delta [main_tick pbind lift emit blend_images update_wallpaper sleep].
  destruct (init_astral w tick (city args)) as [[[dawn dusk] day]|e].
  2:{ intros [= <- <-]. exists []. rewrite app_nil_r.
      repeat split; [constructor | apply Nat.le_0_l]. }
  destruct (get_current_images _ dawn day images (dusk_id args))
    as [[[img1 img2] amount]|e].
  2:{ intros [= <- <-]. eexists.
      split; [rewrite <- !app_assoc; reflexivity|].
      split; [repeat constructor|]. split; [reflexivity | apply Nat.le_0_l]. }
  destruct (Image_blend w img1 img2 amount) as [new_img|e].
  2:{ intros [= <- <-]. eexists.
      split; [rewrite <- !app_assoc; reflexivity|].
      split; [repeat constructor|]. split; [reflexivity | apply Nat.le_0_l]. }
  destruct (Image_save w new_img (temp args)) as [[]|e].
  2:{ intros [= <- <-]. eexists.
      split; [rewrite <- !app_assoc; reflexivity|].
      split; [repeat constructor|]. split; [reflexivity | apply Nat.le_0_l]. }
  destruct (format_split_call w (command args) (temp args)) as [[]|e].
  2:{ intros [= <- <-]. eexists.
      split; [rewrite <- !app_assoc; reflexivity|].
      split; [repeat constructor|]. split; [reflexivity | apply le_n]. }
  destruct (9223372036 <? Z.abs (60 * rate args)).
  { intros [= <- <-]. eexists.
    split; [rewrite <- !app_assoc; reflexivity|].
    split; [repeat constructor|]. split; [reflexivity | apply le_n]. }
  destruct (60 * rate args <? 0) eqn:R.
  - intros [= <- <-]. eexists.
    split; [rewrite <- !app_assoc; reflexivity|].
    split; [repeat constructor|]. split; [reflexivity | apply le_n].
  - apply Z.ltb_ge in R. intros [= <- <-]. eexists.
    split; [rewrite <- !app_assoc; reflexivity|].
    split; [repeat constructor; exact R|]. split; reflexivity.
Qed.

(** What the loop adds to the trace, by the way it ends. *)
Lemma main_loop_trace (images : list Image) (fuel : nat) :
  forall (tick : nat) (tr tr' : list (event Image)) (out : outcome),
    main_loop w fuel args images tick tr = (tr', out) ->
    exists added,
      tr' = tr ++ added /\
      Forall (event_allowed args) added /\
      match out with
      | Raised_at_startup _ => False
      | Raised_in_loop k _ =>
          (tick <= k < tick + fuel)%nat /\
          sleeps added = (k - tick)%nat /\
          (k - tick <= saves added <= k - tick + 1)%nat
      | Looping n =>
          n = (tick + fuel)%nat /\ sleeps added = fuel /\ saves added = fuel
      end.
Proof.
  induction fuel as [|fuel IH]; intros tick tr tr' out; cbn [main_loop].
  - intros [= <- <-]. exists []. rewrite app_nil_r.
    repeat split; [constructor | lia].
  - destruct (main_tick w args images tick tr) as [tr1 [[]|e]] eqn:T;
      apply main_tick_trace in T; destruct T as (a1 & -> & F1 & C1).
    + intro L. apply IH in L. destruct L as (a2 & -> & F2 & C2).
      exists (a1 ++ a2). split; [symmetry; apply app_assoc|].
      split; [apply Forall_app; split; assumption|].
      rewrite sleeps_app, saves_app. destruct C1 as [S1 V1].
      destruct out as [e|k e|n]; [contradiction| |];
        destruct C2 as (? & ? & ?); repeat split; lia.
    + intros [= <- <-]. exists a1. split; [reflexivity|].
      split; [exact F1|]. destruct C1 as [S1 V1]. repeat split; lia.
Qed.

End MainTraces.

(** X11. Whatever the world and however far it runs, main runs no command
    but the one of its arguments, saves nowhere but at the temp path of
    its arguments, and sleeps 60 * rate seconds, never a negative time. *)
Theorem X11_main_keeps_to_its_arguments {Image : Type} (w : World Image)
    (args : Args) (fuel : nat) :
  Forall (event_allowed args) (fst (main w fuel args)).
Proof.
  unfold main.
  destruct (init_images w _ (command args) []) as [tr [[paths images]|e]] eqn:I;
    apply init_images_trace in I.
  - destruct (main_loop w fuel args images 0 tr) as [tr' out] eqn:L.
    apply main_loop_trace in L. destruct L as (added & -> & F & _).
    cbn [fst]. apply Forall_app. split; [|exact F].
    destruct I as [->|[p ->]]; repeat constructor.
  - cbn [fst]. destruct I as [->|[p ->]]; repeat constructor.
Qed.

(** X12. The trace of main counts its iterations: when main is still
    looping after n iterations it has slept n times and saved n files; when
    the iteration number k raises it has slept k times and saved k or
    k + 1 files; when init_images raises it has slept and saved
    nothing. *)
Theorem X12_one_save_and_one_sleep_per_iteration {Image : Type}
    (w : World Image) (args : Args) (fuel : nat) :
  match snd (main w fuel args) with
  | Raised_at_startup _ =>
      sleeps (fst (main w fuel args)) = 0%nat /\
      saves (fst (main w fuel args)) = 0%nat
  | Raised_in_loop k _ =>
      (k < fuel)%nat /\
      sleeps (fst (main w fuel args)) = k /\
      (k <= saves (fst (main w fuel args)) <= k + 1)%nat
  | Looping n =>
      n = fuel /\
      sleeps (fst (main w fuel args)) = fuel /\
      saves (fst (main w fuel args)) = fuel
  end.
Proof.
  unfold main.
  destruct (init_images w _ (command args) []) as [tr [[paths images]|e]] eqn:I;
    apply init_images_trace in I.
  - destruct (main_loop w fuel args images 0 tr) as [tr' out] eqn:L.
    apply main_loop_trace in L. destruct L as (added & -> & _ & C).
    cbn [fst snd]. rewrite sleeps_app, saves_app.
    assert (Z0 : sleeps tr = 0%nat /\ saves tr = 0%nat)
      by (destruct I as [->|[p ->]]; split; reflexivity).
    destruct Z0 as [-> ->].
    destruct out as [e|k e|n]; [contradiction| |];
      destruct C as (? & ? & ?); repeat split; lia.
  - cbn [fst snd]. destruct I as [->|[p ->]]; split; reflexivity.
Qed.

(** ** A day without length, a rate below zero *)

(** X2. When the sun calculator gives a dusk equal to the dawn and the
    dusk_id is one that converts to a float (below 2^1023 in absolute
    value), day_length is 0 and the first iteration of main raises
    ZeroDivisionError, from the division in get_current_images: the three
    lines are written out, no file is saved and no command is run in the
    loop. *)
Theorem X2_day_without_length {Image : Type} (w : World Image) (args : Args)
    (fuel : nat) (tr : list (event Image)) (paths : list string)
    (images : list Image) (t : datetime) :
  Z.abs (dusk_id args) < 2 ^ 1023 ->
  init_images w (os_path_expanduser w (folder args)) (command args) []
  = (tr, Ok (paths, images)) ->
  astral_sun w 0%nat (city args) = Ok (t, t) ->
  main w (S fuel) args
  = (tr ++ [Stdout_time "Dawn:" t; Stdout_time "Dusk:" t;
            Stdout_number "Day length (seconds):" (total_seconds 0)],
     Raised_in_loop 0 ZeroDivisionError).
Proof.
  intros _ I A. unfold main. rewrite I. cbn [main_loop].
  cbv beta iota zeta delta [main_tick pbind lift emit init_astral bind].
  rewrite A. cbv beta iota.
  rewrite Z.sub_diag. unfold get_current_images.
  rewrite truediv_zero by reflexivity. cbn [bind].
  rewrite <- !app_assoc. reflexivity.
Qed.

Lemma X2_day_without_length_witness :
  Z.abs (dusk_id (default_args "wallpapers" "feh --bg-scale {}")) < 2 ^ 1023 /\
  init_images (no_day_world mixed_listing)
    (os_path_expanduser (no_day_world mixed_listing)
       (folder (default_args "wallpapers" "feh --bg-scale {}")))
    (command (default_args "wallpapers" "feh --bg-scale {}")) []
  = ([Called "feh --bg-scale {}" "wallpapers/9.jpg"],
     Ok (["1.jpg"%string; "02.jpeg"%string; "9.jpg"%string; "10.jpg"%string],
         [1; 2; 9; 10])) /\
  astral_sun (no_day_world mixed_listing) 0%nat
    (city (default_args "wallpapers" "feh --bg-scale {}"))
  = Ok (hms 12 0 0, hms 12 0 0) /\
  main (no_day_world mixed_listing) 3
    (default_args "wallpapers" "feh --bg-scale {}")
  = ([Called "feh --bg-scale {}" "wallpapers/9.jpg"]
     ++ [Stdout_time "Dawn:" (hms 12 0 0); Stdout_time "Dusk:" (hms 12 0 0);
         Stdout_number "Day length (seconds):" (total_seconds 0)],
     Raised_in_loop 0 ZeroDivisionError).
Proof.
  assert (I : init_images (no_day_world mixed_listing)
                (os_path_expanduser (no_day_world mixed_listing)
                   (folder (default_args "wallpapers" "feh --bg-scale {}")))
                (command (default_args "wallpapers" "feh --bg-scale {}")) []
              = ([Called "feh --bg-scale {}" "wallpapers/9.jpg"],
                 Ok (["1.jpg"%string; "02.jpeg"%string; "9.jpg"%string;
                      "10.jpg"%string], [1; 2; 9; 10])))
    by reflexivity.
  assert (A : astral_sun (no_day_world mixed_listing) 0%nat
                (city (default_args "wallpapers" "feh --bg-scale {}"))
              = Ok (hms 12 0 0, hms 12 0 0)) by reflexivity.
  assert (D : Z.abs (dusk_id (default_args "wallpapers" "feh --bg-scale {}"))
              < 2 ^ 1023) by (vm_compute; reflexivity).
  split; [exact D|]. split; [exact I|]. split; [exact A|].
  exact (X2_day_without_length (no_day_world mixed_listing)
           (default_args "wallpapers" "feh --bg-scale {}") 2 _ _ _ _ D I A).
Defined.

Lemma main_tick_negative_rate {Image : Type} (w : World Image) (args : Args)
    (images : list Image) (tick : nat) (tr : list (event Image)) :
  rate args < 0 ->
  exists tr' e, main_tick w args images tick tr = (tr', Raise e).
Proof.
  intro R.
  cbv beta iota zeta
      delta [main_tick pbind lift emit blend_images update_wallpaper sleep].
  destruct (init_astral w tick (city args)) as [[[dawn dusk] day]|e];
    [|eauto].
  destruct (get_current_images _ dawn day images (dusk_id args))
    as [[[img1 img2] amount]|e]; [|eauto].
  destruct (Image_blend w img1 img2 amount) as [new_img|e]; [|eauto].
  destruct (Image_save w new_img (temp args)) as [[]|e]; [|eauto].
  destruct (format_split_call w (command args) (temp args)) as [[]|e];
    [|eauto].
  destruct (9223372036 <? Z.abs (60 * rate args)); [eauto|].
  destruct (60 * rate args <? 0) eqn:C; [eauto|].
  apply Z.ltb_ge in C. lia.
Qed.

(** X13. With a negative rate no iteration of main comes to its end: main
    raises before the loop or in its first iteration (the sleep of a
    negative time raises once the rest of the iteration is done). *)
Theorem X13_negative_rate_stops_main {Image : Type} (w : World Image)
    (args : Args) (fuel : nat) :
  rate args < 0 ->
  exists tr e,
    main w (S fuel) args = (tr, Raised_at_startup e) \/
    main w (S fuel) args = (tr, Raised_in_loop 0 e).
Proof.
  intro R. unfold main.
  destruct (init_images w _ (command args) []) as [tr [[paths images]|e]].
  - cbn [main_loop].
    destruct (main_tick_negative_rate w args images 0%nat tr R)
      as (tr' & e & T).
    rewrite T. exists tr', e. right. reflexivity.
  - exists tr, e. left. reflexivity.
Qed.

Lemma X13_negative_rate_stops_main_witness :
  rate negative_rate_args < 0 /\
  exists tr e,
    main (listing_world mixed_listing) 3 negative_rate_args
    = (tr, Raised_at_startup e) \/
    main (listing_world mixed_listing) 3 negative_rate_args
    = (tr, Raised_in_loop 0 e).
Proof.
  assert (R : rate negative_rate_args < 0) by reflexivity.
  split; [exact R|].
  exact (X13_negative_rate_stops_main (listing_world mixed_listing)
           negative_rate_args 2 R).
Defined.

Lemma main_tick_long_rate {Image : Type} (w : World Image) (args : Args)
    (images : list Image) (tick : nat) (tr : list (event Image)) :
  153722867 < rate args ->
  exists tr' e, main_tick w args images tick tr = (tr', Raise e).
Proof.
  intro R.
  cbv beta iota zeta
      delta [main_tick pbind lift emit blend_images update_wallpaper sleep].
  destruct (init_astral w tick (city args)) as [[[dawn dusk] day]|e];
    [|eauto].
  destruct (get_current_images _ dawn day images (dusk_id args))
    as [[[img1 img2] amount]|e]; [|eauto].
  destruct (Image_blend w img1 img2 amount) as [new_img|e]; [|eauto].
  destruct (Image_save w new_img (temp args)) as [[]|e]; [|eauto].
  destruct (format_split_call w (command args) (temp args)) as [[]|e];
    [|eauto].
  destruct (9223372036 <? Z.abs (60 * rate args)) eqn:C; [eauto|].
  apply Z.ltb_ge in C. lia.
Qed.

(** X18. With a rate above 153722867 minutes no iteration of main comes
    to its end either: the sleep of 60 * rate seconds is beyond what
    time.sleep converts to nanoseconds, so that main raises before the
    loop or in its first iteration. *)
Theorem X18_long_rate_stops_main {Image : Type} (w : World Image)
    (args : Args) (fuel : nat) :
  153722867 < rate args ->
  exists tr e,
    main w (S fuel) args = (tr, Raised_at_startup e) \/
    main w (S fuel) args = (tr, Raised_in_loop 0 e).
Proof.
  intro R. unfold main.
  destruct (init_images w _ (command args) []) as [tr [[paths images]|e]].
  - cbn [main_loop].
    destruct (main_tick_long_rate w args images 0%nat tr R)
      as (tr' & e & T).
    rewrite T. exists tr', e. right. reflexivity.
  - exists tr, e. left. reflexivity.
Qed.

Lemma X18_long_rate_stops_main_witness :
  153722867 < rate long_rate_args /\
  exists tr e,
    main (listing_world mixed_listing) 3 long_rate_args
    = (tr, Raised_at_startup e) \/
    main (listing_world mixed_listing) 3 long_rate_args
    = (tr, Raised_in_loop 0 e).
Proof.
  assert (R : 153722867 < rate long_rate_args) by reflexivity.
  split; [exact R|].
  exact (X18_long_rate_stops_main (listing_world mixed_listing)
           long_rate_args 2 R).
Defined.

(** ** The images of a result *)


